(** * gtools: hash sort, panel setup and range summaries

    A shallow embedding of the group-discovery engine of gtools:
    - [src/plugin/hash/gtools_sort.c] (the [mf_] sorts and panel builders),
    - [src/plugin/parallel/hash/gtools_sort.c] (the [gf_] sorts),
    - [src/plugin/tools/gtools_math.c] (the range summaries),
    - [src/plugin/common/quicksortComparators.c] (the comparators),
    followed by the properties that the specification states about them
    and by further properties of the code.

    Conventions of the embedding.
    - A C array is a [list]; every read and write is bounds-checked and an
      access outside the list is undefined behaviour.  Undefined behaviour
      (out-of-bounds access, NULL dereference, division by zero) is the
      value [None] of the [option] monad; [Some r] is a run that returns.
    - [uint64_t] and [size_t] values are [Z] with the wrap-around modulo
      [2^64] written out; [uint32_t] wraps modulo [2^32]; an [int] whose
      value leaves the range of the type is undefined behaviour.
    - [double] values are IEEE binary64 numbers ([PrimFloat.float]).
    - The outcome of every [calloc]/[malloc] is an input of the model: an
      [allocator] tells, for every buffer, whether the allocation succeeds. *)

From Stdlib Require Import ZArith List Lia Floats String Permutation Sorted.
From stdpp Require Import base option numbers list sorting strings.

Open Scope Z_scope.

(** ** Machine arithmetic *)

Definition wrap64 (z : Z) : Z := z mod 2 ^ 64.
Definition wrap32 (z : Z) : Z := z mod 2 ^ 32.

(** Arithmetic on a counter type: [None] when the result cannot be stored. *)
Definition ctype := Z → option Z.

(** [uint32_t]: wraps. *)
Definition c_uint32 : ctype := λ z, Some (wrap32 z).
(** [uint64_t], and [GT_size], which the parallel file uses as the type of
    sizes and indices (its typedef is outside [src/]; taken as 64-bit). *)
Definition c_uint64 : ctype := λ z, Some (wrap64 z).
(** [int]: signed overflow is undefined. *)
Definition c_int : ctype := λ z, if decide (- 2 ^ 31 ≤ z < 2 ^ 31) then Some z else None.

(** ** Arrays *)

(** [a[i]] as an rvalue. *)
Definition aget {A} (a : list A) (i : Z) : option A :=
  if decide (0 ≤ i) then a !! Z.to_nat i else None.

(** [a[i] = v]. *)
Definition aset {A} (a : list A) (i : Z) (v : A) : option (list A) :=
  if decide (0 ≤ i < Z.of_nat (length a)) then Some (<[Z.to_nat i := v]> a) else None.

(** [c[d]++] and [c[d]--] on an array of counters of type [ct]. *)
Definition bump (ct : ctype) (c : list Z) (d : Z) : option (list Z) :=
  v ← aget c d; v' ← ct (v + 1); aset c d v'.
Definition drop1 (ct : ctype) (c : list Z) (d : Z) : option (list Z) :=
  v ← aget c d; v' ← ct (v - 1); aset c d v'.

(** ** Loops *)

(** [for (i = lo; i < hi; i++) body]: [loop_up n lo] runs [n] iterations. *)
Fixpoint loop_up {St} (n : nat) (i : Z) (body : Z → St → option St) (s : St) : option St :=
  match n with
  | O => Some s
  | S n' => s' ← body i s; loop_up n' (i + 1) body s'
  end.

Definition for_up {St} (lo hi : Z) (body : Z → St → option St) (s : St) : option St :=
  loop_up (Z.to_nat (hi - lo)) lo body s.

(** The same loop when [i] is an [int] and the bound is unsigned: the
    [i++] that ends a turn is an [int] addition, so the one that follows
    the turn at [i = INT_MAX] overflows. *)
Fixpoint loop_up_int {St} (n : nat) (i : Z) (body : Z → St → option St) (s : St)
    : option St :=
  match n with
  | O => Some s
  | S n' => s' ← body i s; i' ← c_int (i + 1); loop_up_int n' i' body s'
  end.

Definition for_up_int {St} (lo hi : Z) (body : Z → St → option St) (s : St) : option St :=
  loop_up_int (Z.to_nat (hi - lo)) lo body s.

(** [for (i = n - 1; i >= 0; i--) body]. *)
Fixpoint for_down {St} (n : nat) (body : Z → St → option St) (s : St) : option St :=
  match n with
  | O => Some s
  | S n' => s' ← body (Z.of_nat n') s; for_down n' body s'
  end.

(** [do { body; i++ } while (i < hi)] entered with [i = lo]: the body runs
    once before the bound is looked at. *)
Definition do_while_up {St} (lo hi : Z) (body : Z → St → option St) (s : St) : option St :=
  s' ← body lo s; for_up (lo + 1) hi body s'.

(** ** Allocation *)

(** Whether the allocation of the named buffer succeeds. *)
Definition allocator := string → bool.

Definition all_ok : allocator := λ _, true.

(** [calloc(n, sizeof ...)]: [None] is the NULL pointer. *)
Definition calloc (ok : allocator) (name : string) (n : Z) : option (list Z) :=
  if ok name then Some (replicate (Z.to_nat n) 0) else None.

(** Modelled from the spec: [sf_oom_error] is defined outside [src/]; the
    specification (section 7) says that an allocation failure is signalled
    as a non-zero return code.  The model returns 1702 for every buffer. *)
Definition sf_oom_error (func buf : string) : Z := 1702.

(** What a sort returns: the status code, the keys and the index. *)
Definition sort_result : Type := Z * list Z * list Z.

(** ** src/plugin/hash/gtools_sort.c *)

(** Modelled from the spec: [mf_max] and [mf_min] are defined outside
    [src/]; they are the largest and the smallest of [x[0..N)], scanned from
    [x[0]] the way [mf_array_dmax_range] and [mf_array_dmin_range] scan. *)
Definition mf_max (x : list Z) (N : Z) : option Z :=
  m ← aget x 0;
  for_up 1 N (λ i m, xi ← aget x i; Some (if decide (m < xi) then xi else m)) m.

Definition mf_min (x : list Z) (N : Z) : option Z :=
  m ← aget x 0;
  for_up 1 N (λ i m, xi ← aget x i; Some (if decide (m > xi) then xi else m)) m.

(** [for (i = 0; i < n; i++) count[i] = 0;] *)
Definition zero_body (i : Z) (count : list Z) : option (list Z) := aset count i 0.

(** [count[ xcopy[i] = (x[i] + 1 - min) ]++; icopy[i] = index[i];] *)
Definition cs_count_body (ct : ctype) (x index : list Z) (min : Z)
    (i : Z) (st : list Z * list Z * list Z) : option (list Z * list Z * list Z) :=
  let '(xcopy, icopy, count) := st in
  xi ← aget x i;
  let v := wrap64 (xi + 1 - min) in
  xcopy ← aset xcopy i v;
  count ← bump ct count v;
  ii ← aget index i;
  icopy ← aset icopy i ii;
  Some (xcopy, icopy, count).

(** [count[i] += count[i - 1];] *)
Definition cumul_body (ct : ctype) (i : Z) (count : list Z) : option (list Z) :=
  a ← aget count i; b ← aget count (i - 1); v ← ct (a + b); aset count i v.

(** [index[ s = count[xcopy[i] - 1]++ ] = icopy[i]; x[s] = xcopy[i] - 1 + min;] *)
Definition cs_place_body (ct : ctype) (xcopy icopy : list Z) (min : Z)
    (i : Z) (st : list Z * list Z * list Z) : option (list Z * list Z * list Z) :=
  let '(x, index, count) := st in
  xc ← aget xcopy i;
  let d := wrap64 (xc - 1) in
  s ← aget count d;
  count ← bump ct count d;
  ic ← aget icopy i;
  index ← aset index s ic;
  x ← aset x s (wrap64 (xc - 1 + min));
  Some (x, index, count).

(** The four loops of the counting sort, after the buffers are there. *)
Definition counting_loops (ct : ctype) (x index : list Z) (N min : Z) (range : Z)
    (xcopy icopy count : list Z) : option (list Z * list Z) :=
  count ← for_up 0 (wrap64 (range + 1)) zero_body count;
  '(xcopy, icopy, count) ← for_up 0 N (cs_count_body ct x index min) (xcopy, icopy, count);
  count ← for_up 1 range (cumul_body ct) count;
  '(x, index, _) ← for_up 0 N (cs_place_body ct xcopy icopy min) (x, index, count);
  Some (x, index).

(** The four loops of [mf_counting_sort_index], which counts them with
    [int i] against the [size_t] bounds [range + 1], [N] and [range]. *)
Definition mf_counting_loops (x index : list Z) (N min : Z) (range : Z)
    (xcopy icopy count : list Z) : option (list Z * list Z) :=
  count ← for_up_int 0 (wrap64 (range + 1)) zero_body count;
  '(xcopy, icopy, count) ←
    for_up_int 0 N (cs_count_body c_int x index min) (xcopy, icopy, count);
  count ← for_up_int 1 range (cumul_body c_int) count;
  '(x, index, _) ← for_up_int 0 N (cs_place_body c_int xcopy icopy min) (x, index, count);
  Some (x, index).

(** [mf_counting_sort_index]: [count] is an array of [int], and [i] and
    [s] are [int]s. *)
Definition mf_counting_sort_index (ok : allocator) (x index : list Z) (N min max : Z)
    : option sort_result :=
  let range := wrap64 (max - min + 1) in
  let xcopy := calloc ok "mf_counting_sort_index.xcopy" N in
  let icopy := calloc ok "mf_counting_sort_index.icopy" N in
  let count := calloc ok "mf_counting_sort_index.count" (wrap64 (range + 1)) in
  match xcopy, icopy, count with
  | None, _, _ => Some (sf_oom_error "mf_counting_sort_index" "xcopy", x, index)
  | _, None, _ => Some (sf_oom_error "mf_counting_sort_index" "icopy", x, index)
  | _, _, None => Some (sf_oom_error "mf_counting_sort_index" "count", x, index)
  | Some xcopy, Some icopy, Some count =>
      '(x, index) ← mf_counting_loops x index N min range xcopy icopy count;
      Some (0, x, index)
  end.

(** [count[ xmod[i] = ((outx[i] = x[i]) / exp) % shift ]++; outi[i] = index[i];] *)
Definition pass_count_body (x index : list Z) (exp shift : Z)
    (i : Z) (st : list Z * list Z * list Z * list Z)
    : option (list Z * list Z * list Z * list Z) :=
  let '(xmod, outx, outi, count) := st in
  xi ← aget x i;
  outx ← aset outx i xi;
  if decide (exp = 0 ∨ shift = 0) then None else
  let d := (xi / exp) mod shift in
  xmod ← aset xmod i d;
  count ← bump c_int count d;
  ii ← aget index i;
  outi ← aset outi i ii;
  Some (xmod, outx, outi, count).

(** [index[ c = count[xmod[i]]-- - 1 ] = outi[i]; x[c] = outx[i];] *)
Definition pass_place_body (xmod outx outi : list Z)
    (i : Z) (st : list Z * list Z * list Z) : option (list Z * list Z * list Z) :=
  let '(x, index, count) := st in
  d ← aget xmod i;
  v ← aget count d;
  count ← drop1 c_int count d;
  c ← c_int (v - 1);
  oi ← aget outi i;
  index ← aset index c oi;
  ox ← aget outx i;
  x ← aset x c ox;
  Some (x, index, count).

(** [mf_radix_sort_index_pass].  [count] is a variable-length array of
    [shift] ints, indeterminate until the first loop zeroes it.  The
    loops are counted with [int i].  The last one starts at [i = N - 1],
    which the loop over [i < N] before it has shown to be an [int] (for
    [N = 0] the start is [-1] and no turn is taken). *)
Definition mf_radix_sort_index_pass (ok : allocator) (x index : list Z) (N exp shift : Z)
    : option sort_result :=
  let xmod := calloc ok "mf_radix_sort_index_pass.xmod" N in
  let outx := calloc ok "mf_radix_sort_index_pass.outx" N in
  let outi := calloc ok "mf_radix_sort_index_pass.outi" N in
  let count := replicate (Z.to_nat shift) 0 in
  match xmod, outx, outi with
  | None, _, _ => Some (sf_oom_error "mf_radix_sort_index_pass" "xmod", x, index)
  | _, None, _ => Some (sf_oom_error "mf_radix_sort_index_pass" "outx", x, index)
  | _, _, None => Some (sf_oom_error "mf_radix_sort_index_pass" "outi", x, index)
  | Some xmod, Some outx, Some outi =>
      count ← for_up_int 0 shift zero_body count;
      '(xmod, outx, outi, count) ←
        for_up_int 0 N (pass_count_body x index exp shift) (xmod, outx, outi, count);
      count ← for_up_int 1 shift (cumul_body c_int) count;
      '(x, index, _) ← for_down (Z.to_nat N) (pass_place_body xmod outx outi) (x, index, count);
      Some (0, x, index)
  end.

(** The [do { ... } while ((max > (exp *= shift)) & (nloops++ < loops))] of
    [mf_radix_sort_index].  Both operands of [&] are evaluated.  The loop
    runs at most [loops + 1] times, which is the fuel it is started with. *)
Fixpoint mf_radix_passes (fuel : nat) (ok : allocator) (x index : list Z)
    (N exp shift max nloops loops : Z) : option sort_result :=
  match fuel with
  | O => None
  | S fuel' =>
      '(rc, x, index) ← mf_radix_sort_index_pass ok x index N exp shift;
      if decide (rc ≠ 0) then Some (rc, x, index) else
      let exp := wrap64 (exp * shift) in
      if bool_decide (max > exp) && bool_decide (nloops < loops)
      then mf_radix_passes fuel' ok x index N exp shift max (nloops + 1) loops
      else Some (0, x, index)
  end.

(** [mf_radix_sort_index].  [logq] stands for the value that
    [log(max) / log(dshift)] has as a [uint64_t]; it is used in [raw] mode
    only.  [64 / dshift] with [dshift = 0] and [pow(2, dshift)] beyond the
    range of [size_t] are undefined.  The loop that fills [index] is
    counted with [int i]. *)
Definition mf_radix_sort_index (ok : allocator) (logq : Z) (x index : list Z)
    (N dshift : Z) (raw : bool) : option sort_result :=
  max ← mf_max x N;
  min ← mf_min x N;
  let range := wrap64 (max - min + 1) in
  let ctol := 2 ^ 24 in
  '(shift, loops) ←
    (if raw then Some (dshift, logq)
     else if decide (0 < dshift < 64) then Some (2 ^ dshift, 64 / dshift - 1) else None);
  index ← for_up_int 0 N (λ i index, aset index i i) index;
  if decide (range < ctol) then
    '(rc, x, index) ← mf_counting_sort_index ok x index N min max;
    Some (rc, x, index)
  else
    mf_radix_passes (Z.to_nat (loops + 1)) ok x index N 1 shift max 0 loops.

(** [mf_check_allequal]: the loop leaves with 0 at the first difference. *)
Fixpoint check_allequal_from (n : nat) (hash : list Z) (first i : Z) : option bool :=
  match n with
  | O => Some true
  | S n' =>
      h ← aget hash i;
      if decide (h ≠ first) then Some false
      else check_allequal_from n' hash first (i + 1)
  end.

Definition mf_check_allequal (hash : list Z) (start end_ : Z) : option bool :=
  first ← aget hash start;
  check_allequal_from (Z.to_nat (end_ - (start + 1))) hash first (start + 1).

(** What a panel builder hands back: the [info] array ([None] is the NULL
    it returns when an allocation fails) and the value left in [*J]. *)
Definition panel_result : Type := option (list Z) * Z.

(** [if (h1[i] != el) { info_largest[l++] = i; el = h1[i]; }] *)
Definition panel_body (h1 : list Z) (i : Z) (st : list Z * Z * Z) : option (list Z * Z * Z) :=
  let '(info_largest, l, el) := st in
  hi ← aget h1 i;
  if decide (hi ≠ el) then
    info_largest ← aset info_largest l i;
    Some (info_largest, l + 1, hi)
  else Some (info_largest, l, el).

(** [for (i = 0; i < l + 1; i++) info[i] = info_largest[i];] *)
Definition copy_body (src : list Z) (i : Z) (dst : list Z) : option (list Z) :=
  v ← aget src i; aset dst i v.

(** [mf_panelsetup]. *)
Definition mf_panelsetup (ok : allocator) (h1 : list Z) (N : Z) : option panel_result :=
  el ← aget h1 0;
  match calloc ok "mf_panelsetup.info_largest" (wrap64 (N + 1)) with
  | None => Some (None, 1)
  | Some info_largest =>
      info_largest ← aset info_largest 0 0;
      '(info_largest, l, _) ← do_while_up 1 N (panel_body h1) (info_largest, 1, el);
      info_largest ← aset info_largest l N;
      match calloc ok "mf_panelsetup.info" (wrap64 (l + 1)) with
      | None => Some (None, l)
      | Some info =>
          info ← for_up 0 (wrap64 (l + 1)) (copy_body info_largest) info;
          Some (Some info, l)
      end
  end.

(** The state of the scan of [mf_panelsetup128]. *)
Record panel128_state := Panel128 {
  p_info : list Z;        (* info_largest *)
  p_l : Z;                (* l *)
  p_el : Z;               (* el *)
  p_index : list Z;       (* index, refined in place *)
  p_collision64 : Z       (* collision64 *)
}.

(** What [mf_panelsetup128] leaves behind: the panel, the index and the
    number of 64-bit collisions it counted (printed when positive). *)
Definition panel128_result : Type := panel_result * list Z * Z.

(** The repair of the block [start_l, i) of [mf_panelsetup128]: copy the
    second halves, sort the copy, send the local order through [index].
    [inl] is the early [return(NULL)] of a failed allocation.  The status
    of [mf_radix_sort_index] is not looked at. *)
Definition panel128_resort (ok : allocator) (RADIX_SHIFT : Z) (h2 index : list Z)
    (start_l i : Z) : option (unit + list Z) :=
  let range_l := wrap64 (i - start_l) in
  let ix_l := calloc ok "mf_panelsetup128.ix_l" range_l in
  let ix_c := calloc ok "mf_panelsetup128.ix_c" range_l in
  let h2_l := calloc ok "mf_panelsetup128.h2_l" range_l in
  match ix_l, ix_c, h2_l with
  | Some ix_l, Some ix_c, Some h2_l =>
      h2_l ← for_up start_l i (λ j h2_l, v ← aget h2 j; aset h2_l (j - start_l) v) h2_l;
      '(_, _, ix_l) ← mf_radix_sort_index ok 0 h2_l ix_l range_l RADIX_SHIFT false;
      ix_c ← for_up 0 range_l
        (λ j ix_c, p ← aget ix_l j; v ← aget index (wrap64 (p + start_l)); aset ix_c j v) ix_c;
      index ← for_up start_l i (λ j index, v ← aget ix_c (j - start_l); aset index j v) index;
      Some (inr index)
  | _, _, _ => Some (inl ())
  end.

(** One turn of the [do ... while] of [mf_panelsetup128].  [inl index] is
    the early [return(NULL)], with the index as it is at that point. *)
Definition panel128_body (ok : allocator) (RADIX_SHIFT : Z) (h1 h2 : list Z)
    (i : Z) (st : panel128_state) : option (list Z + panel128_state) :=
  hi ← aget h1 i;
  if decide (hi ≠ p_el st) then
    start_l ← aget (p_info st) (p_l st - 1);
    alleq ← mf_check_allequal h2 start_l i;
    r ← (if alleq : bool then Some (inr (p_index st, p_collision64 st))
         else
           r ← panel128_resort ok RADIX_SHIFT h2 (p_index st) start_l i;
           match r with
           | inl _ => Some (inl ())
           | inr index => Some (inr (index, p_collision64 st + 1))
           end) : option (unit + list Z * Z);
    match r with
    | inl _ => Some (inl (p_index st))
    | inr (index, collision64) =>
        info ← aset (p_info st) (p_l st) i;
        Some (inr (Panel128 info (p_l st + 1) hi index collision64))
    end
  else Some (inr st).

(** [do { ... i++; } while (i < N)], [n] turns from [i], with the early
    return of [panel128_body]. *)
Fixpoint panel128_loop (n : nat) (ok : allocator) (RADIX_SHIFT : Z) (h1 h2 : list Z)
    (i : Z) (st : panel128_state) : option (list Z + panel128_state) :=
  match n with
  | O => Some (inr st)
  | S n' =>
      r ← panel128_body ok RADIX_SHIFT h1 h2 i st;
      match r with
      | inl index => Some (inl index)
      | inr st' => panel128_loop n' ok RADIX_SHIFT h1 h2 (i + 1) st'
      end
  end.

(** [mf_panelsetup128].  [RADIX_SHIFT] is a constant of a header outside
    [src/]; it is an argument here.  The loop body runs once (at [i = 1])
    and then while [i < N]. *)
Definition mf_panelsetup128 (ok : allocator) (RADIX_SHIFT : Z) (h1 h2 index : list Z) (N : Z)
    : option panel128_result :=
  el ← aget h1 0;
  match calloc ok "mf_panelsetup128.info_largest" (wrap64 (N + 1)) with
  | None => Some ((None, 1), index, 0)
  | Some info_largest =>
      info_largest ← aset info_largest 0 0;
      r ← panel128_loop (S (Z.to_nat (N - 2))) ok RADIX_SHIFT h1 h2 1
            (Panel128 info_largest 1 el index 0);
      match r with
      | inl index => Some ((None, 1), index, 0)
      | inr st =>
          info_largest ← aset (p_info st) (p_l st) N;
          match calloc ok "mf_panelsetup128.info" (wrap64 (p_l st + 1)) with
          | None => Some ((None, p_l st), p_index st, p_collision64 st)
          | Some info =>
              info ← for_up 0 (wrap64 (p_l st + 1)) (copy_body info_largest) info;
              Some ((Some info, p_l st), p_index st, p_collision64 st)
          end
      end
  end.

(** ** src/plugin/parallel/hash/gtools_sort.c *)

(** Modelled from the spec: the macros [GTOOLS_MIN] and [GTOOLS_MAX] are
    defined outside [src/]; they declare the smallest and the largest of
    [hash[0..N)], scanned from [hash[0]]. *)
Definition GTOOLS_MIN (x : list Z) (N : Z) : option Z :=
  m ← aget x 0;
  for_up 1 N (λ i m, xi ← aget x i; Some (if decide (m > xi) then xi else m)) m.

Definition GTOOLS_MAX (x : list Z) (N : Z) : option Z :=
  m ← aget x 0;
  for_up 1 N (λ i m, xi ← aget x i; Some (if decide (m < xi) then xi else m)) m.

(** [gf_counting_sort]: [count] is an array of [GT_size]. *)
Definition gf_counting_sort (ok : allocator) (hash index : list Z) (N min max : Z)
    : option sort_result :=
  let range := wrap64 (max - min + 1) in
  let xcopy := calloc ok "gf_counting_sort.xcopy" N in
  let icopy := calloc ok "gf_counting_sort.icopy" N in
  let count := calloc ok "gf_counting_sort.count" (wrap64 (range + 1)) in
  match xcopy, icopy, count with
  | None, _, _ => Some (sf_oom_error "gf_counting_sort_hash" "xcopy", hash, index)
  | _, None, _ => Some (sf_oom_error "gf_counting_sort_hash" "icopy", hash, index)
  | _, _, None => Some (sf_oom_error "gf_counting_sort_hash" "count", hash, index)
  | Some xcopy, Some icopy, Some count =>
      '(hash, index) ← counting_loops c_uint64 hash index N min range xcopy icopy count;
      Some (0, hash, index)
  end.

(** [(h >> bits) & mask], the digit of [h] at [bits]. *)
Definition digit (bits mask h : Z) : Z := Z.land (Z.shiftr h bits) mask.

(** [byte = offset + c[i]; c[i] = offset; offset = byte;] for one histogram. *)
Definition offset_step (i : Z) (st : list Z * Z) : option (list Z * Z) :=
  let '(c, offset) := st in
  v ← aget c i;
  let byte := wrap32 (offset + v) in
  c ← aset c i offset;
  Some (c, byte).

(** One redistribution loop:
    [byte = (src[i] >> bits) & mask; dst[c[byte]] = src[i];
     dsti[c[byte]] = srci[i]; c[byte]++;] *)
Definition radix_body (bits mask : Z) (src srci : list Z)
    (i : Z) (st : list Z * list Z * list Z) : option (list Z * list Z * list Z) :=
  let '(dst, dsti, c) := st in
  h ← aget src i;
  let byte := digit bits mask h in
  p ← aget c byte;
  dst ← aset dst p h;
  ii ← aget srci i;
  dsti ← aset dsti p ii;
  c ← bump c_uint32 c byte;
  Some (dst, dsti, c).

Definition radix_pass (bits mask N : Z) (src srci dst dsti c : list Z)
    : option (list Z * list Z) :=
  '(dst, dsti, _) ← for_up 0 N (radix_body bits mask src srci) (dst, dsti, c);
  Some (dst, dsti).

(** The four histograms of [gf_radix_sort16], filled in one loop. *)
Definition counts16 : Type := list Z * list Z * list Z * list Z.

Definition count16_body (hash : list Z) (i : Z) (st : counts16) : option counts16 :=
  let '(c4, c3, c2, c1) := st in
  h ← aget hash i;
  c4 ← bump c_uint32 c4 (digit 0 65535 h);
  c3 ← bump c_uint32 c3 (digit 16 65535 h);
  c2 ← bump c_uint32 c2 (digit 32 65535 h);
  c1 ← bump c_uint32 c1 (digit 48 65535 h);
  Some (c4, c3, c2, c1).

Definition zero16_body (i : Z) (st : counts16) : option counts16 :=
  let '(c4, c3, c2, c1) := st in
  c4 ← aset c4 i 0; c3 ← aset c3 i 0; c2 ← aset c2 i 0; c1 ← aset c1 i 0;
  Some (c4, c3, c2, c1).

Definition offsets16_body (i : Z)
    (st : (list Z * Z) * (list Z * Z) * (list Z * Z) * (list Z * Z))
    : option ((list Z * Z) * (list Z * Z) * (list Z * Z) * (list Z * Z)) :=
  let '(s4, s3, s2, s1) := st in
  s4 ← offset_step i s4; s3 ← offset_step i s3; s2 ← offset_step i s2; s1 ← offset_step i s1;
  Some (s4, s3, s2, s1).

(** [gf_radix_sort16].  Only [hcopy] and [ixcopy] are tested against NULL;
    [counts] and its four histograms are used as they come. *)
Definition gf_radix_sort16 (ok : allocator) (hash index : list Z) (N : Z)
    : option sort_result :=
  let size := 65536 in
  let hcopy := calloc ok "gf_radix_sort16.hcopy" N in
  let ixcopy := calloc ok "gf_radix_sort16.ixcopy" N in
  match hcopy, ixcopy with
  | None, _ => Some (sf_oom_error "radixSort" "hcopy", hash, index)
  | _, None => Some (sf_oom_error "radixSort" "ixcopy", hash, index)
  | Some hcopy, Some ixcopy =>
      _ ← calloc ok "gf_radix_sort16.counts" 4;
      c4 ← calloc ok "gf_radix_sort16.counts->c4" size;
      c3 ← calloc ok "gf_radix_sort16.counts->c3" size;
      c2 ← calloc ok "gf_radix_sort16.counts->c2" size;
      c1 ← calloc ok "gf_radix_sort16.counts->c1" size;
      cs ← for_up 0 size zero16_body (c4, c3, c2, c1);
      '(c4, c3, c2, c1) ← for_up 0 N (count16_body hash) cs;
      '(s4, s3, s2, s1) ← for_up 0 size offsets16_body ((c4, 0), (c3, 0), (c2, 0), (c1, 0));
      '(hcopy, ixcopy) ← radix_pass 0 65535 N hash index hcopy ixcopy (s4.1);
      '(hash, index) ← radix_pass 16 65535 N hcopy ixcopy hash index (s3.1);
      '(hcopy, ixcopy) ← radix_pass 32 65535 N hash index hcopy ixcopy (s2.1);
      '(hash, index) ← radix_pass 48 65535 N hcopy ixcopy hash index (s1.1);
      Some (0, hash, index)
  end.

(** [gf_radix_counts16], the body of one worker thread: the histogram of
    the digit at [16 * thread], turned into running offsets. *)
Definition gf_radix_counts16 (hash counts : list Z) (size N thread : Z) : option (list Z) :=
  let bits := wrap32 (16 * thread) in
  counts ← for_up 0 size zero_body counts;
  counts ←
    (if decide (bits = 0)
     then for_up 0 N (λ i c, h ← aget hash i; bump c_uint32 c (Z.land h 65535)) counts
     else for_up 0 N (λ i c, h ← aget hash i; bump c_uint32 c (digit bits 65535 h)) counts);
  '(counts, _) ← for_up 0 size offset_step (counts, 0);
  Some counts.

(** [gf_radix_psort16].  The four workers read [hash] and write disjoint
    histograms, and the main thread waits for all of them before it goes
    on, so their effect is that of running them one after the other; thread
    creation is taken to succeed (the code asserts it).  No histogram and
    no [pinfo] is tested against NULL. *)
Definition gf_radix_psort16 (ok : allocator) (hash index : list Z) (N : Z)
    : option sort_result :=
  let size := 65536 in
  let pcounts4 := calloc ok "gf_radix_psort16.pcounts4" size in
  let pcounts3 := calloc ok "gf_radix_psort16.pcounts3" size in
  let pcounts2 := calloc ok "gf_radix_psort16.pcounts2" size in
  let pcounts1 := calloc ok "gf_radix_psort16.pcounts1" size in
  let pinfo := calloc ok "gf_radix_psort16.pinfo" 4 in
  let hcopy := calloc ok "gf_radix_psort16.hcopy" N in
  let ixcopy := calloc ok "gf_radix_psort16.ixcopy" N in
  match hcopy, ixcopy with
  | None, _ => Some (sf_oom_error "radixSort" "hcopy", hash, index)
  | _, None => Some (sf_oom_error "radixSort" "ixcopy", hash, index)
  | Some hcopy, Some ixcopy =>
      _ ← pinfo;
      pcounts4 ← (c ← pcounts4; gf_radix_counts16 hash c size N 0);
      pcounts3 ← (c ← pcounts3; gf_radix_counts16 hash c size N 1);
      pcounts2 ← (c ← pcounts2; gf_radix_counts16 hash c size N 2);
      pcounts1 ← (c ← pcounts1; gf_radix_counts16 hash c size N 3);
      '(hcopy, ixcopy) ← radix_pass 0 65535 N hash index hcopy ixcopy pcounts4;
      '(hash, index) ← radix_pass 16 65535 N hcopy ixcopy hash index pcounts3;
      '(hcopy, ixcopy) ← radix_pass 32 65535 N hash index hcopy ixcopy pcounts2;
      '(hash, index) ← radix_pass 48 65535 N hcopy ixcopy hash index pcounts1;
      Some (0, hash, index)
  end.

(** The eight histograms of [gf_radix_sort8]: a [radixCounts8] on the
    stack (its declaration is outside [src/]; the [memset] clears eight
    tables of 256 [uint32_t]). *)
Definition counts8 : Type :=
  list Z * list Z * list Z * list Z * list Z * list Z * list Z * list Z.

Definition count8_body (hash : list Z) (i : Z) (st : counts8) : option counts8 :=
  let '(c8, c7, c6, c5, c4, c3, c2, c1) := st in
  h ← aget hash i;
  c8 ← bump c_uint32 c8 (digit 0 255 h);
  c7 ← bump c_uint32 c7 (digit 8 255 h);
  c6 ← bump c_uint32 c6 (digit 16 255 h);
  c5 ← bump c_uint32 c5 (digit 24 255 h);
  c4 ← bump c_uint32 c4 (digit 32 255 h);
  c3 ← bump c_uint32 c3 (digit 40 255 h);
  c2 ← bump c_uint32 c2 (digit 48 255 h);
  c1 ← bump c_uint32 c1 (digit 56 255 h);
  Some (c8, c7, c6, c5, c4, c3, c2, c1).

Definition offsets8 : Type :=
  (list Z * Z) * (list Z * Z) * (list Z * Z) * (list Z * Z) *
  (list Z * Z) * (list Z * Z) * (list Z * Z) * (list Z * Z).

Definition offsets8_body (i : Z) (st : offsets8) : option offsets8 :=
  let '(s8, s7, s6, s5, s4, s3, s2, s1) := st in
  s8 ← offset_step i s8; s7 ← offset_step i s7; s6 ← offset_step i s6; s5 ← offset_step i s5;
  s4 ← offset_step i s4; s3 ← offset_step i s3; s2 ← offset_step i s2; s1 ← offset_step i s1;
  Some (s8, s7, s6, s5, s4, s3, s2, s1).

(** [gf_radix_sort8]. *)
Definition gf_radix_sort8 (ok : allocator) (hash index : list Z) (N : Z)
    : option sort_result :=
  let z := replicate 256 0 in
  let hcopy := calloc ok "gf_radix_sort8.hcopy" N in
  let ixcopy := calloc ok "gf_radix_sort8.ixcopy" N in
  match hcopy, ixcopy with
  | None, _ => Some (sf_oom_error "radixSort" "hcopy", hash, index)
  | _, None => Some (sf_oom_error "radixSort" "ixcopy", hash, index)
  | Some hcopy, Some ixcopy =>
      '(c8, c7, c6, c5, c4, c3, c2, c1) ← for_up 0 N (count8_body hash) (z, z, z, z, z, z, z, z);
      '(s8, s7, s6, s5, s4, s3, s2, s1) ←
        for_up 0 256 offsets8_body
          ((c8, 0), (c7, 0), (c6, 0), (c5, 0), (c4, 0), (c3, 0), (c2, 0), (c1, 0));
      '(hcopy, ixcopy) ← radix_pass 0 255 N hash index hcopy ixcopy (s8.1);
      '(hash, index) ← radix_pass 8 255 N hcopy ixcopy hash index (s7.1);
      '(hcopy, ixcopy) ← radix_pass 16 255 N hash index hcopy ixcopy (s6.1);
      '(hash, index) ← radix_pass 24 255 N hcopy ixcopy hash index (s5.1);
      '(hcopy, ixcopy) ← radix_pass 32 255 N hash index hcopy ixcopy (s4.1);
      '(hash, index) ← radix_pass 40 255 N hcopy ixcopy hash index (s3.1);
      '(hcopy, ixcopy) ← radix_pass 48 255 N hash index hcopy ixcopy (s2.1);
      '(hash, index) ← radix_pass 56 255 N hcopy ixcopy hash index (s1.1);
      Some (0, hash, index)
  end.

(** [copy_hash[i] = hash[i]; copy_index[i] = index[i];] through two
    pointers that were not tested against NULL. *)
Definition sort_hash_copy_body (hash index : list Z) (i : Z)
    (st : option (list Z) * option (list Z)) : option (option (list Z) * option (list Z)) :=
  let '(copy_hash, copy_index) := st in
  ch ← copy_hash;
  h ← aget hash i;
  ch ← aset ch i h;
  ci ← copy_index;
  ii ← aget index i;
  ci ← aset ci i ii;
  Some (Some ch, Some ci).

(** [gf_sort_hash].  A NULL copy that was never written (N = 0) reaches
    [gf_radix_psort16] as an array without elements. *)
Definition gf_sort_hash (ok : allocator) (hash index : list Z) (N : Z) : option sort_result :=
  min ← GTOOLS_MIN hash N;
  max ← GTOOLS_MAX hash N;
  let range := wrap64 (max - min + 1) in
  let ctol := 2 ^ 24 in
  if decide (range < ctol) then
    gf_counting_sort ok hash index N min max
  else
    let copy_hash := calloc ok "gf_sort_hash.copy_hash" N in
    let copy_index := calloc ok "gf_sort_hash.copy_index" N in
    '(copy_hash, copy_index) ←
      for_up 0 N (sort_hash_copy_body hash index) (copy_hash, copy_index);
    '(rc, _, _) ← gf_radix_psort16 ok (default [] copy_hash) (default [] copy_index) N;
    if decide (rc ≠ 0) then Some (rc, hash, index)
    else gf_radix_sort16 ok hash index N.

(** ** src/plugin/tools/gtools_math.c *)

(** A [size_t] as a [double], rounded to nearest.  Above [2^63] the value
    is halved with its lowest bit kept sticky, converted and doubled. *)
Definition double_of_size (n : Z) : float :=
  if decide (n < 2 ^ 63) then PrimFloat.of_uint63 (Uint63.of_Z n)
  else (PrimFloat.of_uint63 (Uint63.of_Z (Z.lor (n / 2) (n mod 2))) * 2)%float.

(** [(size_t) floor(f)]: [None] when [f] is not a number or its floor is
    outside [0 .. 2^64), where the conversion is undefined. *)
Definition size_of_floor (f : float) : option Z :=
  match Prim2SF f with
  | S754_zero _ => Some 0
  | S754_finite s m e =>
      let z := if s then Z.neg m else Z.pos m in
      let fl := if decide (0 ≤ e) then z * 2 ^ e else z / 2 ^ (- e) in
      if decide (0 ≤ fl < 2 ^ 64) then Some fl else None
  | _ => None
  end.

(** [mf_array_dsum_range]. *)
Definition mf_array_dsum_range (v : list float) (start end_ : Z) : option float :=
  for_up start end_ (λ i vsum, vi ← aget v i; Some (vsum + vi)%float) 0%float.

(** [mf_array_dmean_range]. *)
Definition mf_array_dmean_range (v : list float) (start end_ : Z) : option float :=
  s ← mf_array_dsum_range v start end_;
  Some (s / double_of_size (wrap64 (end_ - start)))%float.

(** [mf_array_dsd_range]. *)
Definition mf_array_dsd_range (v : list float) (start end_ : Z) : option float :=
  vmean ← mf_array_dmean_range v start end_;
  vvar ← for_up start end_
    (λ i vvar, vi ← aget v i; Some (vvar + (vi - vmean) * (vi - vmean))%float) 0%float;
  Some (PrimFloat.sqrt (vvar / double_of_size (wrap64 (end_ - start - 1)))).

(** [mf_array_dmin_range]. *)
Definition mf_array_dmin_range (v : list float) (start end_ : Z) : option float :=
  m ← aget v start;
  for_up (start + 1) end_ (λ i m, vi ← aget v i; Some (if (vi <? m)%float then vi else m)) m.

(** [mf_array_dmax_range]. *)
Definition mf_array_dmax_range (v : list float) (start end_ : Z) : option float :=
  m ← aget v start;
  for_up (start + 1) end_ (λ i m, vi ← aget v i; Some (if (m <? vi)%float then vi else m)) m.

(** [mf_array_dsorted_range]: leaves with 0 at the first descent. *)
Fixpoint dsorted_from (n : nat) (v : list float) (i : Z) : option bool :=
  match n with
  | O => Some true
  | S n' =>
      a ← aget v (i - 1); b ← aget v i;
      if (b <? a)%float then Some false else dsorted_from n' v (i + 1)
  end.

Definition mf_array_dsorted_range (v : list float) (start end_ : Z) : option bool :=
  dsorted_from (Z.to_nat (end_ - (start + 1))) v (start + 1).

(** Modelled from the spec: [mf_qselect_range] lives in [qselect.c], which
    is outside [src/].  Section 4.F: an in-place partition selection that
    places the [k]th order statistic of the slice at its position and
    returns it.  The model orders the whole slice [v[left..right)] (one of
    the arrangements a selection may leave) and returns its [k]th element,
    counted from 0. *)
Fixpoint finsert (x : float) (l : list float) : list float :=
  match l with
  | [] => [x]
  | y :: l' => if (x <=? y)%float then x :: l else y :: finsert x l'
  end.

Definition fsort (l : list float) : list float := foldr finsert [] l.

Definition mf_qselect_range (v : list float) (left right k : Z) : option (float * list float) :=
  if decide (0 ≤ left ≤ right ∧ right ≤ Z.of_nat (length v)) then
    let sorted := fsort (take (Z.to_nat (right - left)) (drop (Z.to_nat left) v)) in
    q ← aget sorted k;
    Some (q, take (Z.to_nat left) v ++ sorted ++ drop (Z.to_nat right) v)
  else None.

(** The macros [MAX] and [MIN] of gtools_math.c. *)
Definition MAX (a b : float) : float := if (b <? a)%float then a else b.
Definition MIN (a b : float) : float := if (b <? a)%float then b else a.

(** [mf_array_dquantile_range]; the array comes back as the selection
    left it. *)
Definition mf_array_dquantile_range (v : list float) (start end_ : Z) (quantile : float)
    : option (float * list float) :=
  let N := wrap64 (end_ - start) in
  let qf := (quantile * double_of_size N / 100)%float in
  qth ← size_of_floor qf;
  if decide (N = 1) then
    a ← aget v start; Some (a, v)
  else if decide (N = 2) then
    a ← aget v start;
    b ← aget v (wrap64 (end_ - 1));
    if (50 <? quantile)%float then Some (MAX a b, v)
    else if (quantile <? 50)%float then Some (MIN a b, v)
    else Some ((a + b) / 2, v)%float
  else if decide (qth = 0) then
    m ← mf_array_dmin_range v start end_; Some (m, v)
  else
    let dmax := bool_decide (qth = wrap64 (N - 1)) in
    '(q, v) ← (if dmax then m ← mf_array_dmax_range v start end_; Some (m, v)
               else mf_qselect_range v start end_ qth);
    if (double_of_size qth =? qf)%float then
      '(q', v) ← mf_qselect_range v start end_ (wrap64 (qth - 1));
      Some ((q + q') / 2, v)%float
    else Some (q, v).

(** [mf_array_dmedian_range]. *)
Definition mf_array_dmedian_range (v : list float) (start end_ : Z)
    : option (float * list float) :=
  mf_array_dquantile_range v start end_ 50%float.

(** [mf_array_diqr_range]; the left operand of the difference is taken
    first. *)
Definition mf_array_diqr_range (v : list float) (start end_ : Z)
    : option (float * list float) :=
  '(q75, v) ← mf_array_dquantile_range v start end_ 75%float;
  '(q25, v) ← mf_array_dquantile_range v start end_ 25%float;
  Some (q75 - q25, v)%float.

(** A summary that leaves the array alone. *)
Definition pure_summary (v : list float) (r : option float) : option (float * list float) :=
  x ← r; Some (x, v).

Section Dispatch.

(** [atof] of the C library. *)
Variable atof : string → float.

(** [mf_switch_fun]. *)
Definition mf_switch_fun (fname : string) (v : list float) (start end_ : Z)
    : option (float * list float) :=
  if String.eqb fname "sum" then pure_summary v (mf_array_dsum_range v start end_)
  else if String.eqb fname "mean" then pure_summary v (mf_array_dmean_range v start end_)
  else if String.eqb fname "sd" then pure_summary v (mf_array_dsd_range v start end_)
  else if String.eqb fname "max" then pure_summary v (mf_array_dmax_range v start end_)
  else if String.eqb fname "min" then pure_summary v (mf_array_dmin_range v start end_)
  else if String.eqb fname "median" then mf_array_dmedian_range v start end_
  else if String.eqb fname "iqr" then mf_array_diqr_range v start end_
  else
    let q := atof fname in
    if (0 <? q)%float then mf_array_dquantile_range v start end_ q else Some (0%float, v).


End Dispatch.


(** ** src/plugin/common/quicksortComparators.c *)

(** [BaseCompareNum(a, b)], that is [( (a) > (b) ) - ( (a) < (b) )], on
    doubles and on 64-bit integers. *)
Definition BaseCompareNum (a b : float) : Z :=
  Z.b2z (b <? a)%float - Z.b2z (a <? b)%float.

Definition BaseCompareNum64 (a b : Z) : Z :=
  Z.b2z (bool_decide (a > b)) - Z.b2z (bool_decide (a < b)).

(** [MultiCompareNum2] and [MultiCompareNum2Invert]: a row is an array of
    doubles and the key is its entry [kstart]. *)
Definition MultiCompareNum2 (a b : list float) (kstart : Z) : option Z :=
  aa ← aget a kstart; bb ← aget b kstart; Some (BaseCompareNum aa bb).

Definition MultiCompareNum2Invert (a b : list float) (kstart : Z) : option Z :=
  aa ← aget a kstart; bb ← aget b kstart; Some (BaseCompareNum bb aa).

Section Rows.

(** The comparators of mixed rows read their key [kstart] bytes into the
    row.  How a row lies in memory is not modelled: the two loads are what
    [*(ST_double * )(a + kstart)] and [*(uint64_t * )(a + kstart)] read,
    [None] outside the row. *)
Variable row : Type.
Variable load_double : row → Z → option float.
Variable load_uint64 : row → Z → option Z.

(** [AltCompareNum] and [AltCompareNumInvert]. *)
Definition AltCompareNum (a b : row) (kstart : Z) : option Z :=
  aa ← load_double a kstart; bb ← load_double b kstart; Some (BaseCompareNum aa bb).

Definition AltCompareNumInvert (a b : row) (kstart : Z) : option Z :=
  aa ← load_double a kstart; bb ← load_double b kstart; Some (BaseCompareNum bb aa).

(** [CompareSpooky]. *)
Definition CompareSpooky (a b : row) (kstart : Z) : option Z :=
  aa ← load_uint64 a kstart; bb ← load_uint64 b kstart; Some (BaseCompareNum64 aa bb).

End Rows.

(** ** src/plugin/tools/gtools_math.c, the comparator *)

(** [(int) f]: the value of [f] with its fraction dropped; [None] when
    [f] is not a number or the value has no [int], where the conversion is
    undefined. *)
Definition c_int_of_double (f : float) : option Z :=
  match Prim2SF f with
  | S754_zero _ => Some 0
  | S754_finite s m e =>
      let mag := if decide (0 ≤ e) then Z.pos m * 2 ^ e else Z.pos m / 2 ^ (- e) in
      let z := if s then - mag else mag in
      if decide (- 2 ^ 31 ≤ z < 2 ^ 31) then Some z else None
  | _ => None
  end.

(** An [int] as a [double]; every [int] is a [double]. *)
Definition double_of_int (z : Z) : float :=
  if decide (0 ≤ z) then PrimFloat.of_uint63 (Uint63.of_Z z)
  else (- PrimFloat.of_uint63 (Uint63.of_Z (- z)))%float.

(** [mf_qsort_compare]: [return ( (int) *(double* )a - *(double* )b );].
    The cast applies to the first operand only; the difference is a
    [double], which the [return] turns into the [int] of the result. *)
Definition mf_qsort_compare (a b : float) : option Z :=
  ia ← c_int_of_double a;
  c_int_of_double (double_of_int ia - b)%float.

(** ** The reference order *)

Section reference.
Context {A : Type} (key : A → Z).

(** The elements of [l] whose key is [d], in the order of [l]. *)
Definition bucket (d : Z) (l : list A) : list A := filter (λ a, key a = d) l.

(** How many elements of [l] have key [d], and how many a key below [d]. *)
Definition cnt (d : Z) (l : list A) : Z := Z.of_nat (length (bucket d l)).
Definition cnt_lt (d : Z) (l : list A) : Z :=
  Z.of_nat (length (filter (λ a, key a < d) l)).

(** The buckets [0 .. size) of [l] one after the other: the stable
    arrangement of [l] by [key]. *)
Definition bucket_sort (size : Z) (l : list A) : list A :=
  concat ((λ d, bucket d l) <$> seqZ 0 size).

(** [l] is in non-decreasing order of [key]. *)
Definition sorted_by (l : list A) : Prop :=
  StronglySorted (λ a b, key a ≤ key b) l.
End reference.

(** The rows of a pair of arrays. *)
Definition rows (hash index : list Z) : list (Z * Z) := zip hash index.

(** The key of a row under a key function on hashes. *)
Definition on_hash (f : Z → Z) (a : Z * Z) : Z := f a.1.

(** The stable arrangement by the digit of [n] bits at [bits]. *)
Abbreviation pass_sort bits n :=
  (bucket_sort (on_hash (digit bits (Z.ones n))) (Z.ones n + 1)).

(** The least significant digit first arrangement that a radix sort of
    [passes] digits of [bits] bits each produces. *)
Fixpoint lsd_sort (bits : Z) (passes : nat) (l : list (Z * Z)) : list (Z * Z) :=
  match passes with
  | O => l
  | S p =>
      bucket_sort (on_hash (digit (bits * Z.of_nat p) (Z.ones bits))) (2 ^ bits)
        (lsd_sort bits p l)
  end.

(** The key of a row in a counting sort from [min], and the key moved up
    by one that the code files the row under while it counts. *)
Definition offset_key (min : Z) (a : Z * Z) : Z := a.1 - min.
Definition biased_key (min : Z) (a : Z * Z) : Z := a.1 + 1 - min.

(** The arrangement a counting sort of keys in [min .. max] produces. *)
Definition counting_order (min max : Z) (l : list (Z * Z)) : list (Z * Z) :=
  bucket_sort (offset_key min) (max - min + 1) l.

(** The digit that one pass of [mf_radix_sort_index] looks at. *)
Definition pass_key (exp shift : Z) (a : Z * Z) : Z := (a.1 / exp) mod shift.

(** [out] is [src] put in non-decreasing order of the key, the rows of
    equal key in the order they have in [src]. *)
Definition stable_sort_of (src out : list (Z * Z)) : Prop :=
  sorted_by fst out ∧
  ∀ v, filter (λ a, a.1 = v) out = filter (λ a, a.1 = v) src.

(** The same, told on the arrays: [perm !! k = Some p] says that the
    output position [k] holds the input row [p].  Two input rows of equal
    key come out in the order they went in. *)
Definition stable_arrays (H I H' I' : list Z) : Prop :=
  ∃ perm : list nat,
    perm ≡ₚ seq 0 (length H) ∧
    H' = (λ p, H !!! p) <$> perm ∧
    I' = (λ p, I !!! p) <$> perm ∧
    ∀ p q, (p < q < length H)%nat → H !!! p = H !!! q →
      ∃ i j, (i < j)%nat ∧ perm !! i = Some p ∧ perm !! j = Some q.



(** ** Invariants of the sorting loops *)

(** The first [size] entries of the array [c] are the values of [f]. *)
Definition tab (c : list Z) (size : Z) (f : Z → Z) : Prop :=
  size ≤ Z.of_nat (length c) ∧ ∀ d, 0 ≤ d < size → aget c d = Some (f d).

(** Counter arithmetic that is exact up to [N]. *)
Definition ct_ok (ct : ctype) (N : Z) : Prop := ∀ z, 0 ≤ z ≤ N → ct z = Some z.

(** Where element number [m] of bucket [d] of [src] goes. *)
Definition slot {A} (key : A → Z) (src : list A) (d : Z) (m : nat) : Z :=
  cnt_lt key d src + Z.of_nat m.

(** The rows of [src] that [S] selects are at their slots in [oh], [oi]. *)
Definition placed (key : Z * Z → Z) (src : list (Z * Z)) (S : Z → nat → Prop)
    (oh oi : list Z) : Prop :=
  ∀ d m a, bucket key d src !! m = Some a → S d m →
    aget oh (slot key src d m) = Some a.1 ∧ aget oi (slot key src d m) = Some a.2.

(** The running-offset loop of the [gf_] radix sorts after [i] turns, for
    one table: the entries below [i] are offsets, the others still counts. *)
Definition offsets_inv (key : Z * Z → Z) (size : Z) (src : list (Z * Z))
    (i : Z) (st : list Z * Z) : Prop :=
  st.2 = cnt_lt key i src ∧
  tab st.1 size (λ d, if decide (d < i) then cnt_lt key d src else cnt key d src).

(** A forward redistribution after [k] rows: the arrays keep their
    length, the counter of a bucket is the slot of its next row, and the
    rows met so far are in place. *)
Definition scatter_up_inv (key : Z * Z → Z) (size : Z) (src : list (Z * Z))
    (k : Z) (st : list Z * list Z * list Z) : Prop :=
  let '(dst, dsti, c) := st in
  length dst = length src ∧ length dsti = length src ∧
  tab c size (λ d, cnt_lt key d src + cnt key d (take (Z.to_nat k) src)) ∧
  placed key src (λ d m, Z.of_nat m < cnt key d (take (Z.to_nat k) src)) dst dsti.

(** A backward redistribution with [k] rows left: the counter of a bucket
    is one past the slot of its next row, and the rows from [k] on are in
    place. *)
Definition scatter_down_inv (key : Z * Z → Z) (size : Z) (src : list (Z * Z))
    (k : Z) (st : list Z * list Z * list Z) : Prop :=
  let '(dst, dsti, c) := st in
  length dst = length src ∧ length dsti = length src ∧
  tab c size (λ d, cnt_lt key d src + cnt key d (take (Z.to_nat k) src)) ∧
  placed key src (λ d m, cnt key d (take (Z.to_nat k) src) ≤ Z.of_nat m) dst dsti.

(** The first [k] entries of [arr] are the images under [f] of the first
    [k] rows of [src]. *)
Definition copied {A} (f : A → Z) (src : list A) (k : Z) (arr : list Z) : Prop :=
  length arr = length src ∧
  ∀ j a, 0 ≤ j < k → aget src j = Some a → aget arr j = Some (f a).

(** The histogram of the digit at [bits] over the first [k] rows. *)
Definition hist_tab (src : list (Z * Z)) (bits mask : Z) (k : Z) (c : list Z) : Prop :=
  tab c (mask + 1) (λ d, cnt (on_hash (digit bits mask)) d (take (Z.to_nat k) src)).

(** The offsets of the digit at [bits]. *)
Definition offs_tab (src : list (Z * Z)) (bits mask : Z) (c : list Z) : Prop :=
  tab c (mask + 1) (λ d, cnt_lt (on_hash (digit bits mask)) d src).

(** ** What the callers of the sorts rely on *)

(** A sort that was given the index 0, 1, ..., N - 1: the keys come out
    in non-decreasing order, the index is a rearrangement of 0 .. N - 1,
    row [k] of the output is row [I'[k]] of the input, and rows of equal
    key come out by increasing input position. *)
Definition sorted_by_index (H H' I' : list Z) : Prop :=
  StronglySorted Z.le H' ∧
  I' ≡ₚ seqZ 0 (Z.of_nat (length H)) ∧
  (∀ (k : nat) i, I' !! k = Some i → H' !! k = H !! Z.to_nat i) ∧
  (∀ (k1 k2 : nat) i1 i2, (k1 < k2)%nat →
     I' !! k1 = Some i1 → I' !! k2 = Some i2 → H' !! k1 = H' !! k2 → i1 < i2).

(** ** What the callers of the panel builders rely on *)

(** [info] cuts the [N] rows of [h1] into [J] groups: it has [J + 1]
    entries from 0 to [N]; group [g] is the rows from [info[g]] up to
    [info[g + 1]], it is not empty, its rows have the key of its first
    row, and the row after it, if there is one, has another key. *)
Definition panel_of (h1 info : list Z) (J : Z) : Prop :=
  Z.of_nat (length info) = J + 1 ∧
  aget info 0 = Some 0 ∧
  aget info J = Some (Z.of_nat (length h1)) ∧
  ∀ g a b, 0 ≤ g < J → aget info g = Some a → aget info (g + 1) = Some b →
    0 ≤ a < b ∧ b ≤ Z.of_nat (length h1) ∧
    (∀ i, a ≤ i < b → aget h1 i = aget h1 a) ∧
    (b < Z.of_nat (length h1) → aget h1 b ≠ aget h1 a).

(** The scan of a panel builder before row [k], with [l] groups opened:
    the last one starts at [info_largest[l - 1]] and its rows so far have
    the key [el]; the groups before it are closed, each followed by a row
    with another key. *)
Definition panel_inv (h1 : list Z) (k : Z) (st : list Z * Z * Z) : Prop :=
  let '(il, l, el) := st in
  Z.of_nat (length il) = Z.of_nat (length h1) + 1 ∧
  1 ≤ l ≤ k ∧
  aget il 0 = Some 0 ∧
  (∃ s, aget il (l - 1) = Some s ∧ 0 ≤ s < k ∧ ∀ i, s ≤ i < k → aget h1 i = Some el) ∧
  ∀ g a b, 0 ≤ g < l - 1 → aget il g = Some a → aget il (g + 1) = Some b →
    0 ≤ a < b ∧ b < k ∧ (∀ i, a ≤ i < b → aget h1 i = aget h1 a) ∧ aget h1 b ≠ aget h1 a.

(** The entries [a .. b) of an array. *)
Definition slice {A} (l : list A) (a b : Z) : list A :=
  take (Z.to_nat (b - a)) (drop (Z.to_nat a) l).

(** The block [a .. b) of the index after [mf_panelsetup128] has gone
    over it: it holds the entries the block had in [index], in the stable
    order of the second halves [h2[a .. b)] of the hashes. *)
Definition block_refined (h2 index index' : list Z) (a b : Z) : Prop :=
  ∃ H' σ, sorted_by_index (slice h2 a b) H' σ ∧
    ∀ (j : nat) p, σ !! j = Some p → aget index' (a + Z.of_nat j) = aget index (a + p).

(** The scan of [mf_panelsetup128] before row [k]: the scan of
    [mf_panelsetup], the boundaries increasing, the blocks of the closed
    groups refined, and the index from the start of the open group on as
    it was. *)
Definition panel128_inv (h1 h2 index0 : list Z) (k : Z) (st : panel128_state) : Prop :=
  panel_inv h1 k (p_info st, p_l st, p_el st) ∧
  length (p_index st) = length index0 ∧
  0 ≤ p_collision64 st ≤ p_l st - 1 ∧
  (∀ s, aget (p_info st) (p_l st - 1) = Some s →
     ∀ i, s ≤ i → aget (p_index st) i = aget index0 i) ∧
  (∀ g g' a b, 0 ≤ g < g' → g' ≤ p_l st - 1 →
     aget (p_info st) g = Some a → aget (p_info st) g' = Some b → a < b) ∧
  ∀ g a b, 0 ≤ g < p_l st - 1 →
    aget (p_info st) g = Some a → aget (p_info st) (g + 1) = Some b →
    block_refined h2 index0 (p_index st) a b.

(** What [mf_panelsetup128] returns: the panel of the first halves; in
    every group but the last the index in the stable order of the second
    halves; the last group as it was; a count of collisions that is at
    most the number of groups it looked at. *)
Definition panel128_of (h1 h2 index index' info : list Z) (J collisions : Z) : Prop :=
  panel_of h1 info J ∧
  length index' = length index ∧
  0 ≤ collisions ≤ J - 1 ∧
  (∀ g a b, 0 ≤ g < J - 1 → aget info g = Some a → aget info (g + 1) = Some b →
     block_refined h2 index index' a b) ∧
  (∀ s, aget info (J - 1) = Some s → ∀ i, s ≤ i → aget index' i = aget index i).

(** The sort [f] returns on [H], [I] with status 0, the keys in
    non-decreasing order, and keys and index rearranged. *)
Definition sorts_keys (f : list Z → list Z → option sort_result) (H I : list Z) : Prop :=
  ∃ H' I', f H I = Some (0, H', I') ∧ StronglySorted Z.le H' ∧ H' ≡ₚ H ∧ I' ≡ₚ I.

(** Every whole sort of the two files puts the keys in order: the two
    counting sorts for keys in [min .. max] (for [mf_counting_sort_index]
    the range is one that its [int] counter reaches) and the radix sorts
    of 8 and 16 bits, the one with parallel counts included. *)
Definition all_sorts_sort (ok : allocator) (H I : list Z) : Prop :=
  let N := Z.of_nat (length H) in
  (N < 2 ^ 64 →
   ∀ min max, 0 ≤ min → min ≤ max → max < 2 ^ 64 → max - min + 2 < 2 ^ 64 →
     (∀ h, h ∈ H → min ≤ h ≤ max) →
     sorts_keys (λ H I, gf_counting_sort ok H I N min max) H I) ∧
  (N < 2 ^ 31 →
   ∀ min max, 0 ≤ min → min ≤ max → max < 2 ^ 64 → max - min + 2 < 2 ^ 31 →
     (∀ h, h ∈ H → min ≤ h ≤ max) →
     sorts_keys (λ H I, mf_counting_sort_index ok H I N min max) H I) ∧
  (N < 2 ^ 32 →
   sorts_keys (λ H I, gf_radix_sort8 ok H I N) H I ∧
   sorts_keys (λ H I, gf_radix_sort16 ok H I N) H I ∧
   sorts_keys (λ H I, gf_radix_psort16 ok H I N) H I).

(** ** The reductions in the words of section 4.F

    The contract is [reduce(code, V, start, end, [p])]; the definitions
    below take the slice [sl = V[start .. end)], whose length is [N]. *)




(** min and max: a single linear pass that starts from [V[start]]. *)
Definition reduce_min (sl : list float) : option float :=
  match sl with
  | [] => None
  | x :: sl' => Some (foldl (λ m y, if (y <? m)%float then y else m) x sl')
  end.

Definition reduce_max (sl : list float) : option float :=
  match sl with
  | [] => None
  | x :: sl' => Some (foldl (λ m y, if (m <? y)%float then y else m) x sl')
  end.

(** The [k]th order statistic of the slice, counted from 0. *)
Definition order_statistic (sl : list float) (k : Z) : option float :=
  aget (fsort sl) k.

(** quantile(p): [N = 1] returns [V[start]]; [N = 2] returns max if
    [p > 50], min if [p < 50], the average if [p = 50]; otherwise, with
    [q = floor(p * N / 100)], [q = 0] returns min, [q = N - 1] returns
    max, and any other [q] returns the [q]th order statistic, averaged
    with the [(q - 1)]th when [p * N / 100] is an integer. *)
Definition reduce_quantile (p : float) (sl : list float) : option float :=
  match sl with
  | [] => None
  | [a] => Some a
  | [a; b] =>
      Some (if (50 <? p)%float then MAX a b
            else if (p <? 50)%float then MIN a b
            else (a + b) / 2)%float
  | _ =>
      let N := Z.of_nat (length sl) in
      let r := (p * double_of_size N / 100)%float in
      q ← size_of_floor r;
      if decide (q = 0) then reduce_min sl
      else if decide (q = N - 1) then reduce_max sl
      else
        x ← order_statistic sl q;
        if (double_of_size q =? r)%float then
          y ← order_statistic sl (q - 1); Some ((x + y) / 2)%float
        else Some x
  end.


(** A slice without not-a-number values. *)
Definition numbers (sl : list float) : Prop := ∀ x, x ∈ sl → (x =? x)%float = true.

(** In non-decreasing order. *)
Definition ascending (l : list float) : Prop :=
  Sorted (λ a b, (a <=? b)%float = true) l.

(** * Properties *)

(** ** Arrays and loops *)

(** Going past a step of the [option] monad that has returned. *)
Lemma bind_Some {A B} (f : A → option B) (x : A) : Some x ≫= f = f x.
Proof. reflexivity. Qed.

Lemma ofmap_Some {A B} (f : A → B) (x : A) : f <$> Some x = Some (f x).
Proof. reflexivity. Qed.

Ltac obind := rewrite ?ofmap_Some, ?bind_Some; cbv beta iota zeta.

Section arrays.
Context {A : Type}.
Implicit Types (a : list A) (i j : Z) (v : A).

Lemma aget_Some a i v : aget a i = Some v ↔ 0 ≤ i ∧ a !! Z.to_nat i = Some v.
Proof.
  unfold aget. destruct (decide (0 ≤ i)) as [Hi|Hi].
  - split; [by intros ?|by intros [_ ?]].
  - split; [done|by intros [? _]].
Qed.

Lemma aget_bound a i v : aget a i = Some v → 0 ≤ i < Z.of_nat (length a).
Proof.
  intros [? H%lookup_lt_Some]%aget_Some. lia.
Qed.

Lemma aget_is_Some a i : 0 ≤ i < Z.of_nat (length a) → is_Some (aget a i).
Proof.
  intros ?. unfold aget. rewrite decide_True by lia.
  apply lookup_lt_is_Some. lia.
Qed.

Lemma aget_nat a (n : nat) : aget a (Z.of_nat n) = a !! n.
Proof. unfold aget. rewrite decide_True by lia. by rewrite Nat2Z.id. Qed.

Lemma aget_None a i : ¬ (0 ≤ i < Z.of_nat (length a)) → aget a i = None.
Proof.
  intros ?. unfold aget. case_decide; [|done].
  apply lookup_ge_None. lia.
Qed.

Lemma aset_Some a i v :
  0 ≤ i < Z.of_nat (length a) → aset a i v = Some (<[Z.to_nat i := v]> a).
Proof. intros ?. unfold aset. by rewrite decide_True. Qed.

Lemma aset_inv a i v a' :
  aset a i v = Some a' → 0 ≤ i < Z.of_nat (length a) ∧ a' = <[Z.to_nat i := v]> a.
Proof.
  unfold aset. destruct (decide (0 ≤ i < Z.of_nat (length a))) as [Hi|Hi]; [|done].
  intros [= <-]. done.
Qed.

Lemma aset_None a i v : ¬ (0 ≤ i < Z.of_nat (length a)) → aset a i v = None.
Proof. intros ?. unfold aset. by rewrite decide_False. Qed.

Lemma aget_insert_eq a i v :
  0 ≤ i < Z.of_nat (length a) → aget (<[Z.to_nat i := v]> a) i = Some v.
Proof.
  intros ?. unfold aget. rewrite decide_True by lia.
  apply list_lookup_insert_eq. lia.
Qed.

Lemma aget_insert_ne a i j v :
  0 ≤ i → i ≠ j → aget (<[Z.to_nat i := v]> a) j = aget a j.
Proof.
  intros ??. unfold aget. case_decide; [|done].
  apply list_lookup_insert_ne. lia.
Qed.
End arrays.

Lemma aget_fmap {A B} (f : A → B) (a : list A) i : aget (f <$> a) i = f <$> aget a i.
Proof. unfold aget. case_decide; [apply list_lookup_fmap|done]. Qed.

Section loops.
Context {St : Type}.
Implicit Types (body : Z → St → option St) (Inv : Z → St → Prop).

(** The invariant rule for a counting loop whose body never fails. *)
Lemma loop_up_inv Inv body n i s :
  Inv i s →
  (∀ k s, i ≤ k < i + Z.of_nat n → Inv k s → ∃ s', body k s = Some s' ∧ Inv (k + 1) s') →
  ∃ s', loop_up n i body s = Some s' ∧ Inv (i + Z.of_nat n) s'.
Proof.
  revert i s. induction n as [|n IH]; intros i s Hi Hstep.
  - exists s. split; [done|]. by replace (i + Z.of_nat 0) with i by lia.
  - destruct (Hstep i s) as (s1 & Hb & H1); [lia|done|].
    destruct (IH (i + 1) s1) as (s' & Hl & H'); [done| |].
    { intros k s2 ??. apply Hstep; [lia|done]. }
    exists s'. simpl. rewrite Hb. simpl. split; [done|].
    by replace (i + Z.of_nat (S n)) with (i + 1 + Z.of_nat n) by lia.
Qed.

Lemma for_up_inv Inv body lo hi s :
  lo ≤ hi → Inv lo s →
  (∀ k s, lo ≤ k < hi → Inv k s → ∃ s', body k s = Some s' ∧ Inv (k + 1) s') →
  ∃ s', for_up lo hi body s = Some s' ∧ Inv hi s'.
Proof.
  intros Hle H0 Hstep. unfold for_up.
  destruct (loop_up_inv Inv body (Z.to_nat (hi - lo)) lo s) as (s' & ? & H'); [done| |].
  { intros k s1 ??. apply Hstep; [lia|done]. }
  exists s'. split; [done|]. by replace hi with (lo + Z.of_nat (Z.to_nat (hi - lo))) by lia.
Qed.

(** The rule for runs that return: nothing is asked of runs that fail. *)
Lemma loop_up_post Inv body n i s s' :
  loop_up n i body s = Some s' →
  Inv i s →
  (∀ k s s', i ≤ k < i + Z.of_nat n → Inv k s → body k s = Some s' → Inv (k + 1) s') →
  Inv (i + Z.of_nat n) s'.
Proof.
  revert i s. induction n as [|n IH]; intros i s Hl Hi Hstep; simpl in Hl.
  - replace (i + Z.of_nat 0) with i by lia. by simplify_eq.
  - destruct (body i s) as [s1|] eqn:Hb; simpl in Hl; [|done].
    replace (i + Z.of_nat (S n)) with (i + 1 + Z.of_nat n) by lia.
    eapply IH; [done| |].
    + eapply Hstep; [lia|done..].
    + intros k s2 s3 ???. eapply Hstep; [lia|done..].
Qed.

Lemma for_up_post Inv body lo hi s s' :
  for_up lo hi body s = Some s' →
  lo ≤ hi → Inv lo s →
  (∀ k s s', lo ≤ k < hi → Inv k s → body k s = Some s' → Inv (k + 1) s') →
  Inv hi s'.
Proof.
  intros Hl Hle H0 Hstep.
  replace hi with (lo + Z.of_nat (Z.to_nat (hi - lo))) by lia.
  eapply loop_up_post; [done..|].
  intros k s1 s2 ???. eapply Hstep; [lia|done..].
Qed.

(** An [int] counter that stays below [2^31] counts like an unbounded
    one. *)
Lemma loop_up_int_eq body n i s :
  - 2 ^ 31 ≤ i → i + Z.of_nat n < 2 ^ 31 →
  loop_up_int n i body s = loop_up n i body s.
Proof.
  revert i s. induction n as [|n IH]; intros i s Hlo Hhi; [done|].
  simpl. destruct (body i s) as [s1|]; [|done]. simpl.
  unfold c_int at 1. rewrite decide_True by lia. simpl. apply IH; lia.
Qed.

Lemma for_up_int_eq body lo hi s :
  - 2 ^ 31 ≤ lo → hi < 2 ^ 31 → for_up_int lo hi body s = for_up lo hi body s.
Proof.
  intros Hlo Hhi. unfold for_up_int, for_up.
  destruct (decide (lo ≤ hi)) as [Hle|Hgt].
  - apply loop_up_int_eq; lia.
  - by replace (Z.to_nat (hi - lo)) with 0%nat by lia.
Qed.

(** A bound of [2^31] or more is never reached: the counter overflows. *)
Lemma loop_up_int_overflow body n i s :
  i < 2 ^ 31 → 2 ^ 31 ≤ i + Z.of_nat n → loop_up_int n i body s = None.
Proof.
  revert i s. induction n as [|n IH]; intros i s Hlo Hhi; [lia|].
  simpl. destruct (body i s) as [s1|]; [|done]. simpl.
  unfold c_int at 1. case_decide as Hc; [|done]. simpl. apply IH; lia.
Qed.

Lemma for_up_int_overflow body lo hi s :
  lo < 2 ^ 31 → 2 ^ 31 ≤ hi → for_up_int lo hi body s = None.
Proof. intros Hlo Hhi. unfold for_up_int. apply loop_up_int_overflow; lia. Qed.

(** A loop without turns. *)
Lemma for_up_empty body lo hi s : hi ≤ lo → for_up lo hi body s = Some s.
Proof. intros ?. unfold for_up. by replace (Z.to_nat (hi - lo)) with 0%nat by lia. Qed.

Lemma for_down_inv Inv body n s :
  Inv (Z.of_nat n) s →
  (∀ k s, 0 ≤ k < Z.of_nat n → Inv (k + 1) s → ∃ s', body k s = Some s' ∧ Inv k s') →
  ∃ s', for_down n body s = Some s' ∧ Inv 0 s'.
Proof.
  revert s. induction n as [|n IH]; intros s Hn Hstep.
  - by exists s.
  - destruct (Hstep (Z.of_nat n) s) as (s1 & Hb & H1); [lia| |].
    { by replace (Z.of_nat n + 1) with (Z.of_nat (S n)) by lia. }
    destruct (IH s1) as (s' & Hl & H'); [done| |].
    { intros k s2 ??. apply Hstep; [lia|done]. }
    exists s'. simpl. rewrite Hb. by simpl.
Qed.
End loops.

(** ** Counting keys *)

Section filters.
Context {A : Type}.
Implicit Types (l : list A) (a : A).

Lemma filter_all (P : A → Prop) `{!∀ x, Decision (P x)} l :
  (∀ a, a ∈ l → P a) → filter P l = l.
Proof.
  induction l as [|x l IH]; intros Hall; [done|].
  rewrite filter_cons_True by (apply Hall; left).
  f_equal. apply IH. intros a ?. apply Hall. by right.
Qed.

Lemma filter_none (P : A → Prop) `{!∀ x, Decision (P x)} l :
  (∀ a, a ∈ l → ¬ P a) → filter P l = [].
Proof.
  induction l as [|x l IH]; intros Hall; [done|].
  rewrite filter_cons_False by (apply Hall; left).
  apply IH. intros a ?. apply Hall. by right.
Qed.

Lemma filter_filter_sub (P Q : A → Prop) `{!∀ x, Decision (P x)} `{!∀ x, Decision (Q x)} l :
  (∀ a, P a → Q a) → filter P (filter Q l) = filter P l.
Proof.
  intros HPQ. induction l as [|x l IH]; [done|].
  rewrite !filter_cons.
  destruct (decide (Q x)) as [HQ|HQ].
  - rewrite filter_cons. destruct (decide (P x)); by rewrite IH.
  - rewrite IH. destruct (decide (P x)) as [HP|]; [|done]. by destruct HQ; apply HPQ.
Qed.

Lemma filter_filter_disj (P Q : A → Prop) `{!∀ x, Decision (P x)} `{!∀ x, Decision (Q x)} l :
  (∀ a, P a → ¬ Q a) → filter P (filter Q l) = [].
Proof.
  intros HPQ. apply filter_none. intros a [HQ _]%list_elem_of_filter HP. by apply (HPQ a).
Qed.

Lemma filter_split_perm (P Q R : A → Prop)
    `{!∀ x, Decision (P x)} `{!∀ x, Decision (Q x)} `{!∀ x, Decision (R x)} l :
  (∀ a, P a ↔ Q a ∨ R a) → (∀ a, Q a → ¬ R a) →
  filter P l ≡ₚ filter Q l ++ filter R l.
Proof.
  intros HP Hd. induction l as [|x l IH]; [done|].
  rewrite !filter_cons.
  destruct (decide (Q x)) as [HQ|HQ], (decide (R x)) as [HR|HR].
  - by destruct (Hd x).
  - rewrite decide_True by (apply HP; auto). simpl. by rewrite IH.
  - rewrite decide_True by (apply HP; auto).
    rewrite IH. apply Permutation_middle.
  - rewrite decide_False by (rewrite HP; tauto). done.
Qed.

End filters.

Section counting.
Context {A : Type} (key : A → Z).
Implicit Types (l : list A) (d : Z) (a : A).

Lemma cnt_nonneg d l : 0 ≤ cnt key d l.
Proof. unfold cnt. lia. Qed.

Lemma cnt_lt_nonneg d l : 0 ≤ cnt_lt key d l.
Proof. unfold cnt_lt. lia. Qed.

Lemma cnt_app d l1 l2 : cnt key d (l1 ++ l2) = cnt key d l1 + cnt key d l2.
Proof. unfold cnt, bucket. rewrite filter_app, length_app. lia. Qed.

Lemma cnt_cons d a l :
  cnt key d (a :: l) = (if decide (key a = d) then 1 else 0) + cnt key d l.
Proof.
  unfold cnt, bucket. rewrite filter_cons.
  case_decide; simpl length; lia.
Qed.

Lemma bucket_middle d l k a :
  l !! k = Some a →
  bucket key d l =
    bucket key d (take k l) ++
    (if decide (key a = d) then [a] else []) ++ bucket key d (drop (S k) l).
Proof.
  intros H. rewrite <-(take_drop_middle l k a H) at 1.
  unfold bucket. rewrite filter_app, filter_cons. by case_decide.
Qed.

Lemma cnt_take_S d l k a :
  l !! k = Some a →
  cnt key d (take (S k) l) = cnt key d (take k l) + (if decide (key a = d) then 1 else 0).
Proof.
  intros H. rewrite (take_S_r _ _ _ H), cnt_app, cnt_cons.
  unfold cnt, bucket. rewrite filter_nil. simpl. case_decide; lia.
Qed.

Lemma cnt_take_le d l k : cnt key d (take k l) ≤ cnt key d l.
Proof.
  rewrite <-(take_drop k l) at 2. rewrite cnt_app.
  pose proof (cnt_nonneg d (drop k l)). lia.
Qed.

Lemma cnt_take_lt l k a :
  l !! k = Some a → cnt key (key a) (take k l) < cnt key (key a) l.
Proof.
  intros H. rewrite <-(take_drop_middle l k a H) at 2.
  rewrite cnt_app, cnt_cons, decide_True by done.
  pose proof (cnt_nonneg (key a) (drop (S k) l)). lia.
Qed.

Lemma cnt_take_all d l k : (length l ≤ k)%nat → cnt key d (take k l) = cnt key d l.
Proof. intros ?. by rewrite take_ge. Qed.

(** The element at [k] is its bucket's element number
    [cnt (key a) (take k l)]. *)
Lemma bucket_lookup_take l k a :
  l !! k = Some a →
  bucket key (key a) l !! Z.to_nat (cnt key (key a) (take k l)) = Some a.
Proof.
  intros H. rewrite (bucket_middle _ _ _ _ H), decide_True by done.
  unfold cnt. rewrite Nat2Z.id, lookup_app_r by done.
  by rewrite Nat.sub_diag.
Qed.

Lemma bucket_key d l m a : bucket key d l !! m = Some a → key a = d ∧ a ∈ l.
Proof.
  intros H%list_elem_of_lookup_2. by apply list_elem_of_filter in H.
Qed.

Lemma bucket_lookup_lt d l m a : bucket key d l !! m = Some a → Z.of_nat m < cnt key d l.
Proof. intros H%lookup_lt_Some. unfold cnt. lia. Qed.

Lemma cnt_lt_succ d l : cnt_lt key (d + 1) l = cnt_lt key d l + cnt key d l.
Proof.
  unfold cnt_lt, cnt, bucket. rewrite <-Nat2Z.inj_add, <-length_app. f_equal.
  apply Permutation_length, filter_split_perm; intros; lia.
Qed.

Lemma cnt_lt_mono d d' l : d ≤ d' → cnt_lt key d l ≤ cnt_lt key d' l.
Proof.
  intros Hd. unfold cnt_lt.
  rewrite <-(filter_filter_sub (λ a, key a < d) (λ a, key a < d')) by (intros; lia).
  pose proof (length_filter (λ a, key a < d) (filter (λ a, key a < d') l)). lia.
Qed.

Lemma cnt_lt_step d d' l : d < d' → cnt_lt key d l + cnt key d l ≤ cnt_lt key d' l.
Proof. intros ?. rewrite <-cnt_lt_succ. apply cnt_lt_mono. lia. Qed.

Lemma cnt_lt_le_length d l : cnt_lt key d l ≤ Z.of_nat (length l).
Proof. unfold cnt_lt. pose proof (length_filter (λ a, key a < d) l). lia. Qed.

Lemma cnt_slot_le_length d l : cnt_lt key d l + cnt key d l ≤ Z.of_nat (length l).
Proof. rewrite <-cnt_lt_succ. apply cnt_lt_le_length. Qed.

Lemma cnt_le_length d l : cnt key d l ≤ Z.of_nat (length l).
Proof. pose proof (cnt_slot_le_length d l). pose proof (cnt_lt_nonneg d l). lia. Qed.

Lemma cnt_lt_low d l : (∀ a, a ∈ l → d ≤ key a) → cnt_lt key d l = 0.
Proof.
  intros H. unfold cnt_lt. rewrite filter_none; [done|].
  intros a Ha%H. lia.
Qed.

Lemma cnt_lt_high d l : (∀ a, a ∈ l → key a < d) → cnt_lt key d l = Z.of_nat (length l).
Proof. intros H. unfold cnt_lt. by rewrite filter_all. Qed.

Lemma cnt_out d l : (∀ a, a ∈ l → key a ≠ d) → cnt key d l = 0.
Proof. intros H. unfold cnt, bucket. by rewrite filter_none. Qed.
End counting.

(** ** The reference order: structure *)

Lemma StronglySorted_filter {A} (R : A → A → Prop) (P : A → Prop)
    `{!∀ x, Decision (P x)} (l : list A) :
  StronglySorted R l → StronglySorted R (filter P l).
Proof.
  induction 1 as [|x l Hs IH Hx]; [constructor|].
  rewrite filter_cons. case_decide; [|done].
  constructor; [done|].
  rewrite Forall_forall in Hx |- *.
  intros y [_ Hy]%list_elem_of_filter. by apply Hx.
Qed.

Lemma filter_fmap_comm {A B} (g : B → A) (P : A → Prop) `{!∀ x, Decision (P x)}
    (l : list B) :
  filter P (g <$> l) = g <$> filter (λ b, P (g b)) l.
Proof.
  induction l as [|b l IH]; [done|].
  rewrite fmap_cons, !filter_cons. case_decide; by rewrite IH.
Qed.

Section bucket_sort.
Context {A : Type} (key : A → Z).
Implicit Types (l : list A) (d : Z) (a : A).

Lemma bucket_sort_S (n : nat) l :
  bucket_sort key (Z.of_nat (S n)) l =
    bucket_sort key (Z.of_nat n) l ++ bucket key (Z.of_nat n) l.
Proof.
  unfold bucket_sort. rewrite seqZ_S, fmap_app, concat_app. simpl.
  by rewrite app_nil_r.
Qed.

Lemma bucket_sort_empty size l : size ≤ 0 → bucket_sort key size l = [].
Proof.
  intros ?. unfold bucket_sort.
  assert (seqZ 0 size = []) as ->; [|done].
  apply length_zero_iff_nil. rewrite length_seqZ. lia.
Qed.

Lemma bucket_sort_length_nat (n : nat) l :
  (∀ a, a ∈ l → 0 ≤ key a) →
  Z.of_nat (length (bucket_sort key (Z.of_nat n) l)) = cnt_lt key (Z.of_nat n) l.
Proof.
  intros Hk. induction n as [|n IH].
  - rewrite bucket_sort_empty by done. simpl. symmetry. by apply cnt_lt_low.
  - rewrite bucket_sort_S, length_app, Nat2Z.inj_add, IH.
    replace (Z.of_nat (S n)) with (Z.of_nat n + 1) by lia.
    by rewrite cnt_lt_succ.
Qed.

Lemma bucket_sort_length size l :
  (∀ a, a ∈ l → 0 ≤ key a < size) →
  length (bucket_sort key size l) = length l.
Proof.
  intros Hk. destruct (decide (0 ≤ size)); last first.
  { destruct l as [|a0 l0]; [by rewrite bucket_sort_empty by lia|].
    destruct (Hk a0); [left|lia]. }
  apply Nat2Z.inj. rewrite <-(Z2Nat.id size) by done.
  rewrite bucket_sort_length_nat by (intros a ?%Hk; lia).
  apply cnt_lt_high. intros a ?%Hk. lia.
Qed.

(** Where the elements of a bucket sit in the arrangement. *)
Lemma bucket_sort_lookup size l d m a :
  (∀ a, a ∈ l → 0 ≤ key a) → 0 ≤ d < size →
  bucket key d l !! m = Some a →
  bucket_sort key size l !! (Z.to_nat (cnt_lt key d l) + m)%nat = Some a.
Proof.
  intros Hk Hd Hm. rewrite <-(Z2Nat.id size) by lia.
  assert (d < Z.of_nat (Z.to_nat size)) as Hn by lia.
  induction (Z.to_nat size) as [|n IH]; [lia|].
  rewrite bucket_sort_S. destruct (decide (d = Z.of_nat n)) as [->|].
  - rewrite lookup_app_r.
    + rewrite <-bucket_sort_length_nat, Nat2Z.id by done.
      by replace (_ + m - _)%nat with m by lia.
    + rewrite <-bucket_sort_length_nat, Nat2Z.id by done. lia.
  - apply lookup_app_l_Some, IH. lia.
Qed.

(** Every position of the arrangement is one of those. *)
Lemma bucket_sort_lookup_inv size l p a :
  (∀ a, a ∈ l → 0 ≤ key a) →
  bucket_sort key size l !! p = Some a →
  ∃ d m, 0 ≤ d < size ∧ bucket key d l !! m = Some a ∧
         p = (Z.to_nat (cnt_lt key d l) + m)%nat.
Proof.
  intros Hk. destruct (decide (0 ≤ size)) as [Hs|Hs];
    [|rewrite bucket_sort_empty by lia; done].
  rewrite <-(Z2Nat.id size) by lia. clear Hs.
  induction (Z.to_nat size) as [|n IH].
  { rewrite bucket_sort_empty; done. }
  rewrite bucket_sort_S. intros [Hp|[Hlen Hp]]%lookup_app_Some.
  - destruct (IH Hp) as (d & m & ? & ? & ?). exists d, m. split_and!; [lia|lia|done..].
  - exists (Z.of_nat n), (p - length (bucket_sort key (Z.of_nat n) l))%nat.
    split_and!; [lia|lia|done|].
    rewrite <-bucket_sort_length_nat, Nat2Z.id by done. lia.
Qed.

Lemma bucket_sort_perm_nat (n : nat) l :
  (∀ a, a ∈ l → 0 ≤ key a) →
  bucket_sort key (Z.of_nat n) l ≡ₚ filter (λ a, key a < Z.of_nat n) l.
Proof.
  intros Hk. induction n as [|n IH].
  - rewrite bucket_sort_empty by done. rewrite filter_none; [done|].
    intros a ?%Hk. lia.
  - rewrite bucket_sort_S, IH. symmetry.
    apply (filter_split_perm (λ a, key a < Z.of_nat (S n))
             (λ a, key a < Z.of_nat n) (λ a, key a = Z.of_nat n)); intros; lia.
Qed.

(** The arrangement keeps every element, once. *)
Lemma bucket_sort_perm size l :
  (∀ a, a ∈ l → 0 ≤ key a < size) → bucket_sort key size l ≡ₚ l.
Proof.
  intros Hk. destruct (decide (0 ≤ size)); last first.
  { destruct l as [|a0 l0]; [by rewrite bucket_sort_empty by lia|].
    destruct (Hk a0); [left|lia]. }
  rewrite <-(Z2Nat.id size) by done.
  rewrite bucket_sort_perm_nat by (intros a ?%Hk; lia).
  rewrite filter_all; [done|]. intros a ?%Hk. lia.
Qed.

Lemma bucket_sort_elem size l a :
  (∀ a, a ∈ l → 0 ≤ key a < size) → a ∈ bucket_sort key size l ↔ a ∈ l.
Proof. intros Hk. by rewrite bucket_sort_perm. Qed.

(** Stability: the elements picked out by a condition that fixes the
    key stay in the order they had. *)
Lemma bucket_sort_filter (P : A → Prop) `{!∀ x, Decision (P x)} size l c :
  0 ≤ c < size → (∀ a, P a → key a = c) →
  filter P (bucket_sort key size l) = filter P l.
Proof.
  intros Hc HP. rewrite <-(Z2Nat.id size) by lia.
  assert (c < Z.of_nat (Z.to_nat size)) as Hn by lia.
  assert (∀ n : nat, Z.of_nat n ≤ c → filter P (bucket_sort key (Z.of_nat n) l) = []) as Hlow.
  { intros n. induction n as [|n IH]; intros ?.
    - by rewrite bucket_sort_empty.
    - rewrite bucket_sort_S, filter_app, IH by lia. simpl.
      apply filter_filter_disj. intros a ?%HP. lia. }
  induction (Z.to_nat size) as [|n IH]; [lia|].
  rewrite bucket_sort_S, filter_app.
  destruct (decide (c = Z.of_nat n)) as [->|].
  - rewrite Hlow by lia. simpl. apply filter_filter_sub. intros a ?%HP. done.
  - rewrite IH by lia. unfold bucket. rewrite filter_filter_disj, app_nil_r; [done|].
    intros a ?%HP. lia.
Qed.

(** The arrangement is in order for any relation that the key decides
    across buckets and the input order decides inside a bucket. *)
Lemma bucket_sort_sorted (R : A → A → Prop) size l :
  (∀ d, StronglySorted R (bucket key d l)) →
  (∀ a b, a ∈ l → b ∈ l → key a < key b → R a b) →
  StronglySorted R (bucket_sort key size l).
Proof.
  intros Hin Hacross. destruct (decide (0 ≤ size)) as [Hs|Hs];
    [|rewrite bucket_sort_empty by lia; constructor].
  rewrite <-(Z2Nat.id size) by lia. clear Hs.
  assert (∀ n : nat, ∀ a, a ∈ bucket_sort key (Z.of_nat n) l →
            a ∈ l ∧ key a < Z.of_nat n) as Hmem.
  { intros n. induction n as [|n IH]; intros a.
    - rewrite bucket_sort_empty by done. by intros ?%elem_of_nil.
    - rewrite bucket_sort_S. intros [Ha|Ha]%elem_of_app.
      + destruct (IH _ Ha). split; [done|lia].
      + apply list_elem_of_filter in Ha as [? ?]. split; [done|lia]. }
  induction (Z.to_nat size) as [|n IH].
  { rewrite bucket_sort_empty by done. constructor. }
  rewrite bucket_sort_S. apply StronglySorted_app_2; [|done|apply Hin].
  intros a b Ha%Hmem [Hb ?]%list_elem_of_filter.
  apply Hacross; [tauto|done|lia].
Qed.


Lemma bucket_sort_ext (key' : A → Z) size l :
  (∀ a, a ∈ l → key a = key' a) → bucket_sort key size l = bucket_sort key' size l.
Proof.
  intros Hk. unfold bucket_sort. f_equal. apply list_fmap_ext. intros _ d _.
  unfold bucket. clear -Hk. induction l as [|a l IH]; [done|].
  rewrite !filter_cons, IH by (intros; apply Hk; by right).
  rewrite <-(Hk a) by left. done.
Qed.
End bucket_sort.

(** Rows that all have the same key stay as they are. *)
Lemma bucket_sort_const {A} (key : A → Z) size (l : list A) c :
  0 ≤ c < size → (∀ a, a ∈ l → key a = c) → bucket_sort key size l = l.
Proof.
  intros Hc Hk. rewrite <-(Z2Nat.id size) by lia.
  assert (c < Z.of_nat (Z.to_nat size)) as Hn by lia.
  assert (∀ n : nat, Z.of_nat n ≤ c → bucket_sort key (Z.of_nat n) l = []) as Hlow.
  { intros n. induction n as [|n IH]; intros ?.
    - by rewrite bucket_sort_empty.
    - rewrite bucket_sort_S, IH by lia. simpl.
      apply filter_none. intros a ?%Hk. lia. }
  induction (Z.to_nat size) as [|n IH]; [lia|].
  rewrite bucket_sort_S. destruct (decide (c = Z.of_nat n)) as [->|].
  - rewrite Hlow by lia. simpl. by apply filter_all.
  - rewrite IH by lia. unfold bucket. rewrite filter_none, app_nil_r; [done|].
    intros a ?%Hk. lia.
Qed.

(** ** Tables of counters *)

Lemma ct_ok_uint32 N : N < 2 ^ 32 → ct_ok c_uint32 N.
Proof. intros ? z ?. unfold c_uint32, wrap32. by rewrite Z.mod_small by lia. Qed.

Lemma ct_ok_uint64 N : N < 2 ^ 64 → ct_ok c_uint64 N.
Proof. intros ? z ?. unfold c_uint64, wrap64. by rewrite Z.mod_small by lia. Qed.

Lemma ct_ok_int N : N < 2 ^ 31 → ct_ok c_int N.
Proof. intros ? z ?. unfold c_int. by rewrite decide_True by lia. Qed.

Lemma tab_get c size f d : tab c size f → 0 ≤ d < size → aget c d = Some (f d).
Proof. intros [_ H] ?. by apply H. Qed.

Lemma tab_ext c size f g : tab c size f → (∀ d, 0 ≤ d < size → f d = g d) → tab c size g.
Proof. intros [? H] Hfg. split; [done|]. intros d ?. rewrite H, Hfg; done. Qed.

Lemma tab_set c size f d v :
  tab c size f → 0 ≤ d < size →
  ∃ c', aset c d v = Some c' ∧ length c' = length c ∧
        tab c' size (λ d', if decide (d' = d) then v else f d').
Proof.
  intros [Hlen H] ?. exists (<[Z.to_nat d := v]> c).
  split; [apply aset_Some; lia|]. split; [apply length_insert|].
  split; [by rewrite length_insert|]. intros d' ?. case_decide as Hd.
  - subst. apply aget_insert_eq. lia.
  - rewrite aget_insert_ne by lia. by apply H.
Qed.

Lemma tab_bump ct c size f d :
  tab c size f → 0 ≤ d < size → ct (f d + 1) = Some (f d + 1) →
  ∃ c', bump ct c d = Some c' ∧ length c' = length c ∧
        tab c' size (λ d', if decide (d' = d) then f d + 1 else f d').
Proof.
  intros Ht ? Hct. unfold bump. rewrite (tab_get _ _ _ _ Ht) by done. simpl.
  rewrite Hct. simpl. by apply tab_set.
Qed.

Lemma tab_zero n : 0 ≤ n → tab (replicate (Z.to_nat n) 0) n (λ _, 0).
Proof.
  intros ?. split; [rewrite length_replicate; lia|].
  intros d ?. unfold aget. rewrite decide_True by lia.
  apply lookup_replicate_2. lia.
Qed.

(** Zeroing an array of zeros. *)
Lemma zero_loop n m : n ≤ Z.of_nat m → for_up 0 n zero_body (replicate m 0) = Some (replicate m 0).
Proof.
  intros ?. destruct (decide (0 ≤ n)); [|by apply for_up_empty; lia].
  destruct (for_up_inv (λ _ c, c = replicate m 0) zero_body 0 n (replicate m 0))
    as (c & -> & ->); [done..| |done].
  intros k c ? ->. eexists. split; [|done].
  unfold zero_body. rewrite aset_Some by (rewrite length_replicate; lia).
  f_equal. apply list_insert_id, lookup_replicate_2. lia.
Qed.

(** ** Counting the keys of the rows *)

Section histogram.
Context (key : Z * Z → Z) (size : Z) (src : list (Z * Z)) (ct : ctype).
Hypothesis Hkey : ∀ a, a ∈ src → 0 ≤ key a < size.
Hypothesis Hct : ct_ok ct (Z.of_nat (length src)).

(** One more row counted. *)
Lemma hist_bump c (k : nat) a :
  tab c size (λ d, cnt key d (take k src)) → src !! k = Some a →
  ∃ c', bump ct c (key a) = Some c' ∧ length c' = length c ∧
        tab c' size (λ d, cnt key d (take (S k) src)).
Proof.
  intros Ht Ha.
  destruct (tab_bump ct c size _ (key a) Ht) as (c' & Hb & Hl & Ht').
  { apply Hkey. by eapply list_elem_of_lookup_2. }
  { apply Hct. pose proof (cnt_nonneg key (key a) (take k src)).
    pose proof (cnt_take_lt key _ _ _ Ha). pose proof (cnt_le_length key (key a) src). lia. }
  exists c'. split_and!; [done..|].
  eapply tab_ext; [done|]. intros d ?. simpl.
  rewrite (cnt_take_S key d _ _ _ Ha). repeat case_decide; subst; lia.
Qed.
End histogram.

(** ** From counts to offsets *)

Section offsets.
Context (key : Z * Z → Z) (size : Z) (src : list (Z * Z)).
Hypothesis Hkey : ∀ a, a ∈ src → 0 ≤ key a < size.

Lemma offsets_init c :
  tab c size (λ d, cnt key d src) → offsets_inv key size src 0 (c, 0).
Proof.
  intros Ht. split; simpl.
  - symmetry. apply cnt_lt_low. intros a ?%Hkey. lia.
  - eapply tab_ext; [done|]. intros d ?. simpl. by rewrite decide_False by lia.
Qed.

Lemma offsets_step i st :
  Z.of_nat (length src) < 2 ^ 32 → 0 ≤ i < size → offsets_inv key size src i st →
  ∃ st', offset_step i st = Some st' ∧ offsets_inv key size src (i + 1) st'.
Proof.
  intros HN ? [Ho Ht]. destruct st as [c off]. simpl in *. subst off.
  unfold offset_step. rewrite (tab_get _ _ _ _ Ht) by done. simpl.
  rewrite decide_False by lia.
  destruct (tab_set c size _ i (cnt_lt key i src) Ht) as (c' & -> & _ & Ht'); [done|].
  simpl. eexists. split; [done|]. split; simpl.
  - unfold wrap32. rewrite <-cnt_lt_succ.
    pose proof (cnt_lt_nonneg key (i + 1) src).
    pose proof (cnt_lt_le_length key (i + 1) src).
    apply Z.mod_small. lia.
  - eapply tab_ext; [done|]. intros d ?. simpl. repeat case_decide; try lia. by subst.
Qed.

Lemma offsets_final st : offsets_inv key size src size st → tab st.1 size (λ d, cnt_lt key d src).
Proof.
  intros [_ Ht]. eapply tab_ext; [done|]. intros d ?. simpl. by rewrite decide_True by lia.
Qed.

Lemma offsets_loop c :
  Z.of_nat (length src) < 2 ^ 32 → 0 ≤ size →
  tab c size (λ d, cnt key d src) →
  ∃ st, for_up 0 size offset_step (c, 0) = Some st ∧ tab st.1 size (λ d, cnt_lt key d src).
Proof.
  intros HN ? Ht.
  destruct (for_up_inv (offsets_inv key size src) offset_step 0 size (c, 0)) as (st & Hl & Hi);
    [done|by apply offsets_init| |].
  - intros k st ??. by apply offsets_step.
  - exists st. split; [done|]. by apply offsets_final.
Qed.

(** The in-place running sum [count[i] += count[i - 1]], for a table
    [f0] whose sums are [F]. *)
Lemma cumul_loop ct c n (f0 F : Z → Z) N :
  ct_ok ct N → 1 ≤ n →
  (∀ d, 0 ≤ d < n → 0 ≤ F d ≤ N) →
  F 0 = f0 0 → (∀ d, 1 ≤ d < n → F d = f0 d + F (d - 1)) →
  tab c n f0 →
  ∃ c', for_up 1 n (cumul_body ct) c = Some c' ∧ length c' = length c ∧ tab c' n F.
Proof.
  intros Hct ? HF HF0 HFS Ht.
  destruct (for_up_inv
    (λ i c', length c' = length c ∧ tab c' n (λ d, if decide (d < i) then F d else f0 d))
    (cumul_body ct) 1 n c) as (c' & Hl & Hlen & Hi); [done| | |].
  - split; [done|]. eapply tab_ext; [done|]. intros d ?. simpl.
    case_decide; [|done]. assert (d = 0) as -> by lia. done.
  - intros k c1 ? [Hlen Ht1]. unfold cumul_body.
    rewrite (tab_get _ _ _ k Ht1), (tab_get _ _ _ (k - 1) Ht1) by lia. simpl.
    rewrite decide_False, decide_True by lia.
    rewrite <-HFS, Hct by (try apply HF; lia). simpl.
    destruct (tab_set c1 n _ k (F k) Ht1) as (c2 & -> & Hlen2 & Ht2); [lia|].
    eexists. split; [done|]. split; [congruence|].
    eapply tab_ext; [done|]. intros d ?. simpl. repeat case_decide; try lia. by subst.
  - exists c'. split_and!; [done..|].
    eapply tab_ext; [done|]. intros d ?. simpl. by rewrite decide_True by lia.
Qed.
End offsets.

(** ** Putting the rows in place *)

Section placement.
Context (key : Z * Z → Z) (size : Z) (src : list (Z * Z)).
Hypothesis Hkey : ∀ a, a ∈ src → 0 ≤ key a < size.

Lemma slot_bound d m a :
  bucket key d src !! m = Some a → 0 ≤ slot key src d m < Z.of_nat (length src).
Proof.
  intros H%bucket_lookup_lt. unfold slot.
  pose proof (cnt_lt_nonneg key d src). pose proof (cnt_slot_le_length key d src). lia.
Qed.

(** Different elements have different slots. *)
Lemma slot_inj d m a d' m' a' :
  bucket key d src !! m = Some a → bucket key d' src !! m' = Some a' →
  slot key src d m = slot key src d' m' → d = d' ∧ m = m'.
Proof.
  intros H%bucket_lookup_lt H'%bucket_lookup_lt. unfold slot. intros Heq.
  destruct (Z.lt_trichotomy d d') as [Hlt|[->|Hlt]].
  - pose proof (cnt_lt_step key _ _ src Hlt). lia.
  - split; [done|lia].
  - pose proof (cnt_lt_step key _ _ src Hlt). lia.
Qed.

(** Writing one more row at its slot. *)
Lemma placed_step (S S' : Z → nat → Prop) oh oi d0 m0 a0 :
  placed key src S oh oi →
  length oh = length src → length oi = length src →
  bucket key d0 src !! m0 = Some a0 →
  (∀ d m, S' d m → S d m ∨ (d = d0 ∧ m = m0)) →
  placed key src S'
    (<[Z.to_nat (slot key src d0 m0) := a0.1]> oh)
    (<[Z.to_nat (slot key src d0 m0) := a0.2]> oi).
Proof.
  intros Hp Hlh Hli H0 HS d m a Ha HS'.
  pose proof (slot_bound _ _ _ H0).
  destruct (decide (slot key src d m = slot key src d0 m0)) as [Heq|Hne].
  - destruct (slot_inj _ _ _ _ _ _ Ha H0 Heq) as [-> ->].
    assert (a = a0) as -> by congruence.
    rewrite !aget_insert_eq by lia. done.
  - rewrite !aget_insert_ne by lia.
    destruct (HS _ _ HS') as [?|[-> ->]]; [by apply Hp|done].
Qed.

(** When every row is in place, the arrays hold the reference order. *)
Lemma placed_all oh oi :
  placed key src (λ _ _, True) oh oi →
  length oh = length src → length oi = length src →
  oh = (bucket_sort key size src).*1 ∧ oi = (bucket_sort key size src).*2.
Proof.
  intros Hp Hlh Hli.
  assert (∀ a, a ∈ src → 0 ≤ key a) as Hk0 by (intros a ?%Hkey; lia).
  pose proof (bucket_sort_length key size src Hkey) as Hlen.
  split; apply list_eq; intros p; rewrite list_lookup_fmap;
    (destruct (bucket_sort key size src !! p) as [a|] eqn:Hb; simpl;
     [ destruct (bucket_sort_lookup_inv key _ _ _ _ Hk0 Hb) as (d & m & ? & Hm & ->);
       destruct (Hp d m a Hm I) as [H1 H2]; unfold slot in H1, H2;
       rewrite <-aget_nat, Nat2Z.inj_add, Z2Nat.id by apply cnt_lt_nonneg; done
     | apply lookup_ge_None in Hb; apply lookup_ge_None; lia ]).
Qed.
End placement.

Lemma fst_rows hash index : length hash = length index → (rows hash index).*1 = hash.
Proof. intros ?. apply fst_zip. lia. Qed.

Lemma snd_rows hash index : length hash = length index → (rows hash index).*2 = index.
Proof. intros ?. apply snd_zip. lia. Qed.

Lemma rows_fst_snd (l : list (Z * Z)) : rows (l.*1) (l.*2) = l.
Proof. apply zip_fst_snd. Qed.

Lemma length_rows hash index : length hash = length index → length (rows hash index) = length hash.
Proof. intros ?. unfold rows. rewrite length_zip_with. lia. Qed.

(** ** The redistribution loops *)

Section scatter.
Context (key : Z * Z → Z) (size : Z) (src : list (Z * Z)).
Hypothesis Hkey : ∀ a, a ∈ src → 0 ≤ key a < size.

(** The state of a forward redistribution after [k] rows. *)
Lemma scatter_up_init dst dsti c :
  length dst = length src → length dsti = length src →
  tab c size (λ d, cnt_lt key d src) →
  scatter_up_inv key size src 0 (dst, dsti, c).
Proof.
  intros ?? Ht. split_and!; [done..| |].
  - eapply tab_ext; [done|]. intros d ?. simpl. unfold cnt, bucket. simpl. lia.
  - intros d m a _ Hm. unfold cnt, bucket in Hm. simpl in Hm. lia.
Qed.

(** What one turn does to the invariant, whatever the code that reads
    the row: the counter of its bucket is the slot, and goes up. *)
Lemma scatter_up_step ct (k : nat) a dst dsti c :
  ct_ok ct (Z.of_nat (length src)) →
  scatter_up_inv key size src (Z.of_nat k) (dst, dsti, c) →
  src !! k = Some a →
  ∃ p dst' dsti' c',
    aget c (key a) = Some p ∧
    aset dst p a.1 = Some dst' ∧ aset dsti p a.2 = Some dsti' ∧
    bump ct c (key a) = Some c' ∧
    scatter_up_inv key size src (Z.of_nat k + 1) (dst', dsti', c').
Proof.
  intros Hct (Hl1 & Hl2 & Ht & Hp) Ha. simpl in *.
  pose proof (list_elem_of_lookup_2 _ _ _ Ha) as Hin.
  pose proof (Hkey _ Hin) as Hka.
  pose proof (bucket_lookup_take key _ _ _ Ha) as Hb.
  pose proof (slot_bound key src _ _ _ Hb) as Hsb.
  pose proof (cnt_nonneg key (key a) (take k src)).
  assert (slot key src (key a) (Z.to_nat (cnt key (key a) (take k src)))
          = cnt_lt key (key a) src + cnt key (key a) (take (Z.to_nat (Z.of_nat k)) src)) as Hs.
  { unfold slot. rewrite Nat2Z.id. lia. }
  exists (slot key src (key a) (Z.to_nat (cnt key (key a) (take k src)))).
  destruct (tab_bump ct c size _ (key a) Ht) as (c' & Hbump & _ & Ht'); [done| |].
  { apply Hct. rewrite <-Hs. lia. }
  do 3 eexists. refine (conj _ (conj _ (conj _ (conj _ _)))).
  - rewrite Hs. by apply (tab_get _ _ _ _ Ht).
  - apply aset_Some. lia.
  - apply aset_Some. lia.
  - done.
  - refine (conj _ (conj _ (conj _ _))); simpl; [by rewrite length_insert..| |].
    + eapply tab_ext; [done|]. intros d ?. simpl.
      replace (Z.to_nat (Z.of_nat k + 1)) with (S k) by lia.
      rewrite Nat2Z.id, (cnt_take_S key d _ _ _ Ha). repeat case_decide; subst; lia.
    + eapply placed_step; [done..|].
      intros d m Hm. replace (Z.to_nat (Z.of_nat k + 1)) with (S k) in Hm by lia.
      rewrite (cnt_take_S key d _ _ _ Ha) in Hm. rewrite Nat2Z.id.
      case_decide; [|left; lia]. subst d.
      destruct (decide (Z.of_nat m < cnt key (key a) (take k src))); [by left|right].
      split; [done|lia].
Qed.

Lemma scatter_up_final dst dsti c :
  scatter_up_inv key size src (Z.of_nat (length src)) (dst, dsti, c) →
  dst = (bucket_sort key size src).*1 ∧ dsti = (bucket_sort key size src).*2.
Proof.
  intros (Hl1 & Hl2 & _ & Hp). simpl in *.
  apply placed_all; [done| |done..].
  intros d m a Hm _. apply Hp; [done|].
  rewrite Nat2Z.id, take_ge by done. by eapply bucket_lookup_lt.
Qed.
End scatter.

Lemma tab_drop1 ct c size f d :
  tab c size f → 0 ≤ d < size → ct (f d - 1) = Some (f d - 1) →
  ∃ c', drop1 ct c d = Some c' ∧ length c' = length c ∧
        tab c' size (λ d', if decide (d' = d) then f d - 1 else f d').
Proof.
  intros Ht ? Hct. unfold drop1. rewrite (tab_get _ _ _ _ Ht) by done. simpl.
  rewrite Hct. simpl. by apply tab_set.
Qed.

Section scatter_down.
Context (key : Z * Z → Z) (size : Z) (src : list (Z * Z)).
Hypothesis Hkey : ∀ a, a ∈ src → 0 ≤ key a < size.

Lemma scatter_down_init dst dsti c :
  length dst = length src → length dsti = length src →
  tab c size (λ d, cnt_lt key (d + 1) src) →
  scatter_down_inv key size src (Z.of_nat (length src)) (dst, dsti, c).
Proof.
  intros ?? Ht. refine (conj _ (conj _ (conj _ _))); [done..| |].
  - eapply tab_ext; [done|]. intros d ?. simpl.
    rewrite Nat2Z.id, take_ge by done. apply cnt_lt_succ.
  - intros d m a Hm%bucket_lookup_lt Hle.
    rewrite Nat2Z.id, take_ge in Hle by done. lia.
Qed.

Lemma scatter_down_step ct (k : nat) a dst dsti c :
  ct_ok ct (Z.of_nat (length src)) →
  scatter_down_inv key size src (Z.of_nat k + 1) (dst, dsti, c) →
  src !! k = Some a →
  ∃ v dst' dsti' c',
    aget c (key a) = Some v ∧
    drop1 ct c (key a) = Some c' ∧
    ct (v - 1) = Some (v - 1) ∧
    aset dst (v - 1) a.1 = Some dst' ∧ aset dsti (v - 1) a.2 = Some dsti' ∧
    scatter_down_inv key size src (Z.of_nat k) (dst', dsti', c').
Proof.
  intros Hct (Hl1 & Hl2 & Ht & Hp) Ha. simpl in *.
  replace (Z.to_nat (Z.of_nat k + 1)) with (S k) in * by lia.
  pose proof (list_elem_of_lookup_2 _ _ _ Ha) as Hin.
  pose proof (Hkey _ Hin) as Hka.
  pose proof (bucket_lookup_take key _ _ _ Ha) as Hb.
  pose proof (slot_bound key src _ _ _ Hb) as Hsb.
  pose proof (cnt_nonneg key (key a) (take k src)).
  pose proof (cnt_take_S key (key a) _ _ _ Ha) as HS. rewrite decide_True in HS by done.
  assert (slot key src (key a) (Z.to_nat (cnt key (key a) (take k src)))
          = cnt_lt key (key a) src + cnt key (key a) (take (S k) src) - 1) as Hs.
  { unfold slot. lia. }
  exists (cnt_lt key (key a) src + cnt key (key a) (take (S k) src)).
  destruct (tab_drop1 ct c size _ (key a) Ht) as (c' & Hdrop & _ & Ht'); [done| |].
  { apply Hct. rewrite <-Hs. lia. }
  do 3 eexists. refine (conj _ (conj _ (conj _ (conj _ (conj _ _))))).
  - by apply (tab_get _ _ _ _ Ht).
  - done.
  - apply Hct. rewrite <-Hs. lia.
  - apply aset_Some. rewrite <-Hs. lia.
  - apply aset_Some. rewrite <-Hs. lia.
  - rewrite <-Hs.
    refine (conj _ (conj _ (conj _ _))); simpl; [by rewrite length_insert..| |].
    + eapply tab_ext; [done|]. intros d ?. simpl.
      rewrite Nat2Z.id. pose proof (cnt_take_S key d _ _ _ Ha).
      repeat case_decide; subst; lia.
    + eapply placed_step; [done..|].
      intros d m Hm. rewrite Nat2Z.id in Hm.
      pose proof (cnt_take_S key d _ _ _ Ha) as HSd.
      destruct (decide (key a = d)) as [<-|]; [|left; lia].
      destruct (decide (Z.of_nat m = cnt key (key a) (take k src))); [right|left; lia].
      split; [done|lia].
Qed.

Lemma scatter_down_final dst dsti c :
  scatter_down_inv key size src 0 (dst, dsti, c) →
  dst = (bucket_sort key size src).*1 ∧ dsti = (bucket_sort key size src).*2.
Proof.
  intros (Hl1 & Hl2 & _ & Hp). simpl in *.
  apply placed_all; [done| |done..].
  intros d m a Hm _. apply Hp; [done|].
  unfold cnt, bucket. simpl. lia.
Qed.
End scatter_down.

(** ** Copying loops *)

Section copying.
Context {A : Type} (f : A → Z) (src : list A).

Lemma copied_init arr : length arr = length src → copied f src 0 arr.
Proof. intros ?. split; [done|]. intros; lia. Qed.

Lemma copied_step k arr a :
  copied f src k arr → aget src k = Some a →
  ∃ arr', aset arr k (f a) = Some arr' ∧ copied f src (k + 1) arr'.
Proof.
  intros [Hlen Hc] Ha. pose proof (aget_bound _ _ _ Ha).
  eexists. split; [apply aset_Some; lia|].
  split; [by rewrite length_insert|].
  intros j b ? Hb. destruct (decide (j = k)) as [->|].
  - rewrite aget_insert_eq by lia. congruence.
  - rewrite aget_insert_ne by lia. apply Hc; [lia|done].
Qed.

Lemma copied_final arr : copied f src (Z.of_nat (length src)) arr → arr = f <$> src.
Proof.
  intros [Hlen Hc]. apply list_eq. intros j. rewrite list_lookup_fmap.
  destruct (src !! j) as [a|] eqn:Ha; simpl.
  - rewrite <-aget_nat. apply Hc; [|by rewrite aget_nat].
    apply lookup_lt_Some in Ha. lia.
  - apply lookup_ge_None in Ha. apply lookup_ge_None. lia.
Qed.
End copying.

Lemma aget_row {A} (src : list A) k :
  0 ≤ k < Z.of_nat (length src) → ∃ a, aget src k = Some a ∧ src !! Z.to_nat k = Some a.
Proof.
  intros ?. destruct (aget_is_Some src k) as [a Ha]; [done|].
  exists a. split; [done|]. by apply aget_Some in Ha as [_ ?].
Qed.

(** One redistribution loop of the [gf_] radix sorts arranges the rows
    by the digit it looks at, stably. *)
Lemma radix_pass_spec bits mask (src : list (Z * Z)) dst dsti c :
  (∀ a, a ∈ src → 0 ≤ on_hash (digit bits mask) a < mask + 1) →
  Z.of_nat (length src) < 2 ^ 32 →
  length dst = length src → length dsti = length src →
  tab c (mask + 1) (λ d, cnt_lt (on_hash (digit bits mask)) d src) →
  radix_pass bits mask (Z.of_nat (length src)) (src.*1) (src.*2) dst dsti c =
    Some ((bucket_sort (on_hash (digit bits mask)) (mask + 1) src).*1,
          (bucket_sort (on_hash (digit bits mask)) (mask + 1) src).*2).
Proof.
  intros Hkey HN Hl1 Hl2 Ht. unfold radix_pass.
  set (key := on_hash (digit bits mask)) in *.
  destruct (for_up_inv (scatter_up_inv key (mask + 1) src) (radix_body bits mask (src.*1) (src.*2))
              0 (Z.of_nat (length src)) (dst, dsti, c)) as ([[d1 d2] c'] & -> & Hinv).
  - lia.
  - by apply scatter_up_init.
  - intros k [[d1 d2] c1] Hk Hinv.
    destruct (aget_row src k) as (a & Ha & Hak); [lia|].
    rewrite <-(Z2Nat.id k) in Hinv by lia.
    destruct (scatter_up_step key _ src Hkey c_uint32 _ a _ _ _ (ct_ok_uint32 _ HN) Hinv Hak)
      as (p & dst' & dsti' & c2 & Hg & Hs1 & Hs2 & Hb & Hinv').
    rewrite Z2Nat.id in Hinv' by lia.
    exists (dst', dsti', c2). split; [|done].
    unfold radix_body. rewrite !aget_fmap, Ha. simpl.
    change (digit bits mask a.1) with (key a). rewrite Hg. simpl.
    rewrite Hs1. simpl. rewrite Hs2. simpl. by rewrite Hb.
  - simpl. by destruct (scatter_up_final key _ src Hkey _ _ _ Hinv) as [-> ->].
Qed.

(** ** The histogram loops *)

(** A digit cut out with a mask of ones. *)
Lemma digit_range bits n h : 0 ≤ n → 0 ≤ digit bits (Z.ones n) h < Z.ones n + 1.
Proof.
  intros ?. unfold digit. rewrite Z.land_ones by done.
  rewrite Z.ones_equiv. pose proof (Z.mod_pos_bound (h ≫ bits) (2 ^ n)). lia.
Qed.

Lemma digit_in bits n (a : Z * Z) :
  0 ≤ n → 0 ≤ on_hash (digit bits (Z.ones n)) a < Z.ones n + 1.
Proof. intros ?. by apply digit_range. Qed.

Section histograms.
Context (src : list (Z * Z)).
Hypothesis HN : Z.of_nat (length src) < 2 ^ 32.

Lemma hist_init k0 size (key : Z * Z → Z) :
  0 ≤ size → k0 = 0%nat →
  tab (replicate (Z.to_nat size) 0) size (λ d, cnt key d (take k0 src)).
Proof.
  intros ? ->. eapply tab_ext; [by apply tab_zero|]. done.
Qed.

(** The loop of one worker, and of every single table. *)
Lemma hist_loop bits n c :
  0 ≤ n →
  tab c (Z.ones n + 1) (λ _, 0) →
  ∃ c', for_up 0 (Z.of_nat (length src))
          (λ i c, h ← aget (src.*1) i; bump c_uint32 c (digit bits (Z.ones n) h)) c = Some c' ∧
        length c' = length c ∧
        tab c' (Z.ones n + 1) (λ d, cnt (on_hash (digit bits (Z.ones n))) d src).
Proof.
  intros Hn Ht. set (key := on_hash (digit bits (Z.ones n))).
  destruct (for_up_inv
    (λ k c', length c' = length c ∧ tab c' (Z.ones n + 1) (λ d, cnt key d (take (Z.to_nat k) src)))
    (λ i c, h ← aget (src.*1) i; bump c_uint32 c (digit bits (Z.ones n) h))
    0 (Z.of_nat (length src)) c) as (c' & Hl & Hlen & Hi); [lia|done| |].
  - intros k c1 ? [Hlen Ht1].
    destruct (aget_row src k) as (a & Ha & Hak); [lia|].
    destruct (hist_bump key (Z.ones n + 1) src c_uint32) with (c := c1) (k := Z.to_nat k) (a := a)
      as (c2 & Hb & Hlen2 & Ht2); [|by apply ct_ok_uint32|done..|].
    { intros ??. by apply digit_range. }
    exists c2. rewrite aget_fmap, Ha. simpl. split; [done|]. split; [congruence|].
    by replace (Z.to_nat (k + 1)) with (S (Z.to_nat k)) by lia.
  - exists c'. split_and!; [done..|]. by rewrite Nat2Z.id, take_ge in Hi.
Qed.
End histograms.

Section tables.
Context (src : list (Z * Z)).
Hypothesis HN : Z.of_nat (length src) < 2 ^ 32.

Lemma hist_tab_zero bits mask size : size = mask + 1 → 0 ≤ size →
  hist_tab src bits mask 0 (replicate (Z.to_nat size) 0).
Proof. intros -> ?. eapply tab_ext; [by apply tab_zero|]. done. Qed.

Lemma hist_tab_step bits n k c a :
  0 ≤ n → hist_tab src bits (Z.ones n) k c → aget src k = Some a →
  ∃ c', bump c_uint32 c (digit bits (Z.ones n) a.1) = Some c' ∧
        hist_tab src bits (Z.ones n) (k + 1) c'.
Proof.
  intros Hn Ht Ha. pose proof (aget_bound _ _ _ Ha).
  apply aget_Some in Ha as [_ Ha].
  destruct (hist_bump (on_hash (digit bits (Z.ones n))) (Z.ones n + 1) src c_uint32)
    with (c := c) (k := Z.to_nat k) (a := a) as (c2 & Hb & _ & Ht2);
    [|by apply ct_ok_uint32|done..|].
  { intros ??. by apply digit_in. }
  exists c2. split; [done|]. unfold hist_tab.
  by replace (Z.to_nat (k + 1)) with (S (Z.to_nat k)) by lia.
Qed.

Lemma hist_tab_full bits mask c :
  hist_tab src bits mask (Z.of_nat (length src)) c →
  tab c (mask + 1) (λ d, cnt (on_hash (digit bits mask)) d src).
Proof. unfold hist_tab. by rewrite Nat2Z.id, take_ge. Qed.

Lemma offs_step bits n i st :
  0 ≤ n → 0 ≤ i < Z.ones n + 1 →
  offsets_inv (on_hash (digit bits (Z.ones n))) (Z.ones n + 1) src i st →
  ∃ st', offset_step i st = Some st' ∧
         offsets_inv (on_hash (digit bits (Z.ones n))) (Z.ones n + 1) src (i + 1) st'.
Proof.
  intros ???. by apply offsets_step.
Qed.

Lemma offs_init bits n c :
  0 ≤ n → hist_tab src bits (Z.ones n) (Z.of_nat (length src)) c →
  offsets_inv (on_hash (digit bits (Z.ones n))) (Z.ones n + 1) src 0 (c, 0).
Proof.
  intros ? Ht%hist_tab_full. apply offsets_init; [|done]. intros ??. by apply digit_in.
Qed.

Lemma offs_final bits mask st :
  offsets_inv (on_hash (digit bits mask)) (mask + 1) src (mask + 1) st →
  offs_tab src bits mask st.1.
Proof. apply offsets_final. Qed.

(** The four histograms of [gf_radix_sort16]. *)
Lemma count16_loop :
  ∀ z, z = replicate (Z.to_nat 65536) 0 →
  ∃ c4 c3 c2 c1,
    for_up 0 (Z.of_nat (length src)) (count16_body (src.*1)) (z, z, z, z)
      = Some (c4, c3, c2, c1) ∧
    hist_tab src 0 65535 (Z.of_nat (length src)) c4 ∧
    hist_tab src 16 65535 (Z.of_nat (length src)) c3 ∧
    hist_tab src 32 65535 (Z.of_nat (length src)) c2 ∧
    hist_tab src 48 65535 (Z.of_nat (length src)) c1.
Proof.
  intros z Hz.
  assert (∀ bits, hist_tab src bits 65535 0 z) as Hzero.
  { intros bits. subst z. by apply (hist_tab_zero _ 65535 65536). }
  clear Hz.
  destruct (for_up_inv
    (λ k '(c4, c3, c2, c1),
       hist_tab src 0 65535 k c4 ∧ hist_tab src 16 65535 k c3 ∧
       hist_tab src 32 65535 k c2 ∧ hist_tab src 48 65535 k c1)
    (count16_body (src.*1)) 0 (Z.of_nat (length src)) (z, z, z, z))
    as ([[[c4 c3] c2] c1] & Hl & Hi); [lia| | |].
  - split_and!; apply Hzero.
  - intros k [[[c4 c3] c2] c1] ? (H4 & H3 & H2 & H1).
    destruct (aget_row src k) as (a & Ha & _); [lia|].
    change 65535 with (Z.ones 16) in *.
    destruct (hist_tab_step _ 16 _ _ _ ltac:(lia) H4 Ha) as (c4' & E4 & H4').
    destruct (hist_tab_step _ 16 _ _ _ ltac:(lia) H3 Ha) as (c3' & E3 & H3').
    destruct (hist_tab_step _ 16 _ _ _ ltac:(lia) H2 Ha) as (c2' & E2 & H2').
    destruct (hist_tab_step _ 16 _ _ _ ltac:(lia) H1 Ha) as (c1' & E1 & H1').
    exists (c4', c3', c2', c1'). split; [|done].
    unfold count16_body. rewrite aget_fmap, Ha. obind.
    change 65535 with (Z.ones 16).
    rewrite E4. obind. rewrite E3. obind. rewrite E2. obind. by rewrite E1.
  - by exists c4, c3, c2, c1.
Qed.

(** Their conversion into offsets. *)
Lemma offsets16_loop c4 c3 c2 c1 :
  hist_tab src 0 65535 (Z.of_nat (length src)) c4 →
  hist_tab src 16 65535 (Z.of_nat (length src)) c3 →
  hist_tab src 32 65535 (Z.of_nat (length src)) c2 →
  hist_tab src 48 65535 (Z.of_nat (length src)) c1 →
  ∃ s4 s3 s2 s1,
    for_up 0 65536 offsets16_body ((c4, 0), (c3, 0), (c2, 0), (c1, 0))
      = Some (s4, s3, s2, s1) ∧
    offs_tab src 0 65535 s4.1 ∧ offs_tab src 16 65535 s3.1 ∧
    offs_tab src 32 65535 s2.1 ∧ offs_tab src 48 65535 s1.1.
Proof.
  intros H4 H3 H2 H1.
  destruct (for_up_inv
    (λ i '(s4, s3, s2, s1),
       offsets_inv (on_hash (digit 0 65535)) 65536 src i s4 ∧
       offsets_inv (on_hash (digit 16 65535)) 65536 src i s3 ∧
       offsets_inv (on_hash (digit 32 65535)) 65536 src i s2 ∧
       offsets_inv (on_hash (digit 48 65535)) 65536 src i s1)
    offsets16_body 0 65536 ((c4, 0), (c3, 0), (c2, 0), (c1, 0)))
    as ([[[s4 s3] s2] s1] & Hl & Hi); [lia| | |].
  - change 65535 with (Z.ones 16) in *. split_and!; by apply (offs_init _ 16).
  - intros i [[[s4 s3] s2] s1] ? (I4 & I3 & I2 & I1).
    change 65535 with (Z.ones 16) in *. change 65536 with (Z.ones 16 + 1) in *.
    destruct (offs_step _ 16 _ _ ltac:(lia) ltac:(done) I4) as (s4' & E4 & I4').
    destruct (offs_step _ 16 _ _ ltac:(lia) ltac:(done) I3) as (s3' & E3 & I3').
    destruct (offs_step _ 16 _ _ ltac:(lia) ltac:(done) I2) as (s2' & E2 & I2').
    destruct (offs_step _ 16 _ _ ltac:(lia) ltac:(done) I1) as (s1' & E1 & I1').
    exists (s4', s3', s2', s1'). split; [|done].
    unfold offsets16_body. rewrite E4. obind. rewrite E3. obind. rewrite E2. obind.
    by rewrite E1.
  - destruct Hi as (I4 & I3 & I2 & I1).
    exists s4, s3, s2, s1. split; [done|].
    split_and!; by apply (offs_final _ 65535).
Qed.
End tables.

Lemma cnt_lt_perm {A} (key : A → Z) d (l l' : list A) :
  l ≡ₚ l' → cnt_lt key d l = cnt_lt key d l'.
Proof. intros H. unfold cnt_lt. by rewrite H. Qed.

Lemma cnt_perm {A} (key : A → Z) d (l l' : list A) :
  l ≡ₚ l' → cnt key d l = cnt key d l'.
Proof. intros H. unfold cnt, bucket. by rewrite H. Qed.

Lemma offs_tab_perm src src' bits mask c :
  src ≡ₚ src' → offs_tab src bits mask c → offs_tab src' bits mask c.
Proof.
  intros Hp Ht. eapply tab_ext; [done|]. intros d _. by apply cnt_lt_perm.
Qed.

(** One pass of a radix sort on rows that are a rearrangement of the
    rows the offsets were computed from. *)
Lemma radix_pass_lsd bits n N (src0 src : list (Z * Z)) dst dsti c :
  0 ≤ n → src ≡ₚ src0 → N = Z.of_nat (length src0) → N < 2 ^ 32 →
  length dst = length src0 → length dsti = length src0 →
  offs_tab src0 bits (Z.ones n) c →
  radix_pass bits (Z.ones n) N (src.*1) (src.*2) dst dsti c =
    Some ((bucket_sort (on_hash (digit bits (Z.ones n))) (Z.ones n + 1) src).*1,
          (bucket_sort (on_hash (digit bits (Z.ones n))) (Z.ones n + 1) src).*2).
Proof.
  intros Hn Hp -> HN Hl1 Hl2 Ht.
  pose proof (Permutation_length Hp) as Hlen. rewrite <-Hlen in *.
  apply radix_pass_spec; [|done..|].
  - intros ??. by apply digit_range.
  - by eapply offs_tab_perm.
Qed.

Lemma lsd_sort_perm bits passes l : 0 ≤ bits → lsd_sort bits passes l ≡ₚ l.
Proof.
  intros ?. induction passes as [|p IH]; [done|]. simpl.
  rewrite bucket_sort_perm; [done|].
  intros a _. rewrite Z.ones_equiv. pose proof (digit_range (bits * Z.of_nat p) bits a.1).
  unfold on_hash. rewrite Z.ones_equiv in *. lia.
Qed.

Lemma lsd_sort_length bits passes l : 0 ≤ bits → length (lsd_sort bits passes l) = length l.
Proof. intros ?. by rewrite lsd_sort_perm. Qed.

Lemma pass_perm bits n (l : list (Z * Z)) : 0 ≤ n → pass_sort bits n l ≡ₚ l.
Proof. intros ?. apply bucket_sort_perm. intros ??. by apply digit_in. Qed.

Lemma lsd_sort_S bits n p l :
  n = Z.ones bits → 0 ≤ bits →
  bucket_sort (on_hash (digit (bits * Z.of_nat p) n)) (n + 1) (lsd_sort bits p l)
    = lsd_sort bits (S p) l.
Proof.
  intros -> ?. simpl. f_equal. rewrite Z.ones_equiv. lia.
Qed.

Lemma lsd_sort_16 l :
  lsd_sort 16 4 l = pass_sort 48 16 (pass_sort 32 16 (pass_sort 16 16 (pass_sort 0 16 l))).
Proof.
  unfold lsd_sort.
  replace (2 ^ 16) with (Z.ones 16 + 1) by (by vm_compute).
  replace (16 * Z.of_nat 3) with 48 by (by vm_compute).
  replace (16 * Z.of_nat 2) with 32 by (by vm_compute).
  replace (16 * Z.of_nat 1) with 16 by (by vm_compute).
  replace (16 * Z.of_nat 0) with 0 by (by vm_compute).
  reflexivity.
Qed.

(** Zeroing the four histograms of [gf_radix_sort16]. *)
Lemma zero16_loop (z : list Z) n :
  z = replicate (Z.to_nat n) 0 →
  for_up 0 n zero16_body (z, z, z, z) = Some (z, z, z, z).
Proof.
  intros Hz. destruct (decide (0 ≤ n)); [|by apply for_up_empty; lia].
  destruct (for_up_inv (λ _ st, st = (z, z, z, z)) zero16_body 0 n (z, z, z, z))
    as (c & Hl & ->); [done..| |exact Hl].
  intros k c ? ->. eexists. split; [|done].
  assert (aset z k 0 = Some z) as Hset.
  { subst z. rewrite aset_Some by (rewrite length_replicate; lia).
    f_equal. apply list_insert_id, lookup_replicate_2. lia. }
  unfold zero16_body. rewrite Hset. by obind.
Qed.

(** [gf_radix_sort16] on the rows [src], when every allocation succeeds
    and there are fewer than [2^32] rows: four stable passes, on the
    digits from the lowest to the highest. *)
Lemma gf_radix_sort16_rows ok (src : list (Z * Z)) :
  (∀ s, ok s = true) → Z.of_nat (length src) < 2 ^ 32 →
  gf_radix_sort16 ok (src.*1) (src.*2) (Z.of_nat (length src)) =
    Some (0, (lsd_sort 16 4 src).*1, (lsd_sort 16 4 src).*2).
Proof.
  intros Hok HN. unfold gf_radix_sort16, calloc. rewrite !Hok. obind.
  rewrite (zero16_loop (replicate (Z.to_nat 65536) 0) 65536 eq_refl). obind.
  destruct (count16_loop src HN _ eq_refl) as (c4 & c3 & c2 & c1 & -> & H4 & H3 & H2 & H1).
  obind.
  destruct (offsets16_loop src HN _ _ _ _ H4 H3 H2 H1)
    as (s4 & s3 & s2 & s1 & -> & T4 & T3 & T2 & T1).
  obind. change 65535 with (Z.ones 16) in *.
  pose proof (pass_perm 0 16 src ltac:(lia)) as P1.
  pose proof (transitivity (pass_perm 16 16 _ ltac:(lia)) P1) as P2.
  pose proof (transitivity (pass_perm 32 16 _ ltac:(lia)) P2) as P3.
  rewrite (radix_pass_lsd 0 16 _ src src) by
    (try done; try lia; by rewrite ?length_replicate, ?Nat2Z.id).
  obind.
  rewrite (radix_pass_lsd 16 16 _ src (pass_sort 0 16 src)) by
    (try done; try lia; by rewrite ?length_fmap).
  obind.
  rewrite (radix_pass_lsd 32 16 _ src (pass_sort 16 16 (pass_sort 0 16 src))) by
    (try done; try lia; by rewrite ?length_fmap, ?P1).
  obind.
  rewrite (radix_pass_lsd 48 16 _ src (pass_sort 32 16 (pass_sort 16 16 (pass_sort 0 16 src)))) by
    (try done; try lia; by rewrite ?length_fmap, ?P2).
  obind. rewrite lsd_sort_16. reflexivity.
Qed.

Lemma loop_up_ext {St} (body body' : Z → St → option St) n i s :
  (∀ k s, body k s = body' k s) → loop_up n i body s = loop_up n i body' s.
Proof.
  intros Hb. revert i s. induction n as [|n IH]; intros i s; [done|].
  cbn [loop_up]. rewrite Hb. destruct (body' i s); [|done]. obind. apply IH.
Qed.

Lemma for_up_ext {St} (body body' : Z → St → option St) lo hi s :
  (∀ k s, body k s = body' k s) → for_up lo hi body s = for_up lo hi body' s.
Proof. apply loop_up_ext. Qed.

(** One worker of [gf_radix_psort16] leaves the offsets of its digit. *)
Lemma gf_radix_counts16_spec (src : list (Z * Z)) thread :
  Z.of_nat (length src) < 2 ^ 32 → thread ∈ [0; 1; 2; 3] →
  ∃ c, gf_radix_counts16 (src.*1) (replicate (Z.to_nat 65536) 0) 65536
         (Z.of_nat (length src)) thread = Some c ∧
       offs_tab src (16 * thread) 65535 c.
Proof.
  intros HN Ht. unfold gf_radix_counts16.
  rewrite zero_loop by lia. obind.
  assert (∃ c, (if decide (wrap32 (16 * thread) = 0)
      then for_up 0 (Z.of_nat (length src))
             (λ i c, h ← aget (src.*1) i; bump c_uint32 c (Z.land h 65535))
             (replicate (Z.to_nat 65536) 0)
      else for_up 0 (Z.of_nat (length src))
             (λ i c, h ← aget (src.*1) i; bump c_uint32 c (digit (wrap32 (16 * thread)) 65535 h))
             (replicate (Z.to_nat 65536) 0)) = Some c ∧
      tab c 65536 (λ d, cnt (on_hash (digit (16 * thread) 65535)) d src)) as (c & -> & Hc).
  { assert (wrap32 (16 * thread) = 16 * thread) as ->.
    { unfold wrap32. apply Z.mod_small.
      repeat (apply elem_of_cons in Ht as [->|Ht]; [lia|]). by apply elem_of_nil in Ht. }
    destruct (hist_loop src HN (16 * thread) 16 (replicate (Z.to_nat 65536) 0))
      as (c & Hl & _ & Hc); [lia|by apply (tab_zero 65536)|].
    exists c. split; [|exact Hc].
    case_decide as Hz; [|exact Hl].
    rewrite <-Hl, Hz. apply for_up_ext. intros k s.
    destruct (aget (src.*1) k) as [h|]; [|done]. obind.
    unfold digit. by rewrite Z.shiftr_0_r. }
  obind.
  destruct (offsets_loop (on_hash (digit (16 * thread) 65535)) 65536 src) with (c := c)
    as ([c' off] & Hl & Ho); [|done|lia|exact Hc|].
  { intros a _. apply (digit_in _ 16). lia. }
  change (for_up 0 65536 offset_step (c, 0)) with (for_up 0 65536 offset_step (c, 0)).
  rewrite Hl. obind. by exists c'.
Qed.

(** [gf_radix_psort16] computes what [gf_radix_sort16] computes. *)
Lemma gf_radix_psort16_rows ok (src : list (Z * Z)) :
  (∀ s, ok s = true) → Z.of_nat (length src) < 2 ^ 32 →
  gf_radix_psort16 ok (src.*1) (src.*2) (Z.of_nat (length src)) =
    Some (0, (lsd_sort 16 4 src).*1, (lsd_sort 16 4 src).*2).
Proof.
  intros Hok HN. unfold gf_radix_psort16, calloc. rewrite !Hok. obind.
  destruct (gf_radix_counts16_spec src 0 HN) as (p4 & -> & T4); [repeat constructor|].
  destruct (gf_radix_counts16_spec src 1 HN) as (p3 & -> & T3); [repeat constructor|].
  destruct (gf_radix_counts16_spec src 2 HN) as (p2 & -> & T2); [repeat constructor|].
  destruct (gf_radix_counts16_spec src 3 HN) as (p1 & -> & T1); [repeat constructor|].
  obind.
  change (16 * 0) with 0 in T4. change (16 * 1) with 16 in T3.
  change (16 * 2) with 32 in T2. change (16 * 3) with 48 in T1.
  change 65535 with (Z.ones 16) in *.
  pose proof (pass_perm 0 16 src ltac:(lia)) as P1.
  pose proof (transitivity (pass_perm 16 16 _ ltac:(lia)) P1) as P2.
  pose proof (transitivity (pass_perm 32 16 _ ltac:(lia)) P2) as P3.
  rewrite (radix_pass_lsd 0 16 _ src src) by
    (try done; try lia; by rewrite ?length_replicate, ?Nat2Z.id).
  obind.
  rewrite (radix_pass_lsd 16 16 _ src (pass_sort 0 16 src)) by
    (try done; try lia; by rewrite ?length_fmap).
  obind.
  rewrite (radix_pass_lsd 32 16 _ src (pass_sort 16 16 (pass_sort 0 16 src))) by
    (try done; try lia; by rewrite ?length_fmap, ?P1).
  obind.
  rewrite (radix_pass_lsd 48 16 _ src (pass_sort 32 16 (pass_sort 16 16 (pass_sort 0 16 src)))) by
    (try done; try lia; by rewrite ?length_fmap, ?P2).
  obind. rewrite lsd_sort_16. reflexivity.
Qed.

Section tables8.
Context (src : list (Z * Z)).
Hypothesis HN : Z.of_nat (length src) < 2 ^ 32.

(** The eight histograms of [gf_radix_sort8]. *)
Lemma count8_loop :
  ∀ z, z = replicate 256 0 →
  ∃ c8 c7 c6 c5 c4 c3 c2 c1,
    for_up 0 (Z.of_nat (length src)) (count8_body (src.*1)) (z, z, z, z, z, z, z, z)
      = Some (c8, c7, c6, c5, c4, c3, c2, c1) ∧
    (hist_tab src 0 255 (Z.of_nat (length src)) c8 ∧
     hist_tab src 8 255 (Z.of_nat (length src)) c7 ∧
     hist_tab src 16 255 (Z.of_nat (length src)) c6 ∧
     hist_tab src 24 255 (Z.of_nat (length src)) c5) ∧
    (hist_tab src 32 255 (Z.of_nat (length src)) c4 ∧
     hist_tab src 40 255 (Z.of_nat (length src)) c3 ∧
     hist_tab src 48 255 (Z.of_nat (length src)) c2 ∧
     hist_tab src 56 255 (Z.of_nat (length src)) c1).
Proof.
  intros z Hz.
  assert (∀ bits, hist_tab src bits 255 0 z) as Hzero.
  { intros bits. subst z. by apply (hist_tab_zero _ _ 255 256). }
  clear Hz.
  destruct (for_up_inv
    (λ k '(c8, c7, c6, c5, c4, c3, c2, c1),
       (hist_tab src 0 255 k c8 ∧ hist_tab src 8 255 k c7 ∧
        hist_tab src 16 255 k c6 ∧ hist_tab src 24 255 k c5) ∧
       (hist_tab src 32 255 k c4 ∧ hist_tab src 40 255 k c3 ∧
        hist_tab src 48 255 k c2 ∧ hist_tab src 56 255 k c1))
    (count8_body (src.*1)) 0 (Z.of_nat (length src)) (z, z, z, z, z, z, z, z))
    as ([[[[[[[c8 c7] c6] c5] c4] c3] c2] c1] & Hl & Hi); [lia| | |].
  - split; split_and!; apply Hzero.
  - intros k [[[[[[[c8 c7] c6] c5] c4] c3] c2] c1] ? ((H8 & H7 & H6 & H5) & (H4 & H3 & H2 & H1)).
    destruct (aget_row src k) as (a & Ha & _); [lia|].
    change 255 with (Z.ones 8) in *.
    destruct (hist_tab_step src HN _ 8 _ _ _ ltac:(lia) H8 Ha) as (c8' & E8 & H8').
    destruct (hist_tab_step src HN _ 8 _ _ _ ltac:(lia) H7 Ha) as (c7' & E7 & H7').
    destruct (hist_tab_step src HN _ 8 _ _ _ ltac:(lia) H6 Ha) as (c6' & E6 & H6').
    destruct (hist_tab_step src HN _ 8 _ _ _ ltac:(lia) H5 Ha) as (c5' & E5 & H5').
    destruct (hist_tab_step src HN _ 8 _ _ _ ltac:(lia) H4 Ha) as (c4' & E4 & H4').
    destruct (hist_tab_step src HN _ 8 _ _ _ ltac:(lia) H3 Ha) as (c3' & E3 & H3').
    destruct (hist_tab_step src HN _ 8 _ _ _ ltac:(lia) H2 Ha) as (c2' & E2 & H2').
    destruct (hist_tab_step src HN _ 8 _ _ _ ltac:(lia) H1 Ha) as (c1' & E1 & H1').
    exists (c8', c7', c6', c5', c4', c3', c2', c1'). split; [|done].
    unfold count8_body. rewrite aget_fmap, Ha. obind.
    change 255 with (Z.ones 8).
    rewrite E8. obind. rewrite E7. obind. rewrite E6. obind. rewrite E5. obind.
    rewrite E4. obind. rewrite E3. obind. rewrite E2. obind. by rewrite E1.
  - by exists c8, c7, c6, c5, c4, c3, c2, c1.
Qed.

(** Their conversion into offsets. *)
Lemma offsets8_loop c8 c7 c6 c5 c4 c3 c2 c1 :
  (hist_tab src 0 255 (Z.of_nat (length src)) c8 ∧
   hist_tab src 8 255 (Z.of_nat (length src)) c7 ∧
   hist_tab src 16 255 (Z.of_nat (length src)) c6 ∧
   hist_tab src 24 255 (Z.of_nat (length src)) c5) →
  (hist_tab src 32 255 (Z.of_nat (length src)) c4 ∧
   hist_tab src 40 255 (Z.of_nat (length src)) c3 ∧
   hist_tab src 48 255 (Z.of_nat (length src)) c2 ∧
   hist_tab src 56 255 (Z.of_nat (length src)) c1) →
  ∃ s8 s7 s6 s5 s4 s3 s2 s1,
    for_up 0 256 offsets8_body
      ((c8, 0), (c7, 0), (c6, 0), (c5, 0), (c4, 0), (c3, 0), (c2, 0), (c1, 0))
      = Some (s8, s7, s6, s5, s4, s3, s2, s1) ∧
    (offs_tab src 0 255 s8.1 ∧ offs_tab src 8 255 s7.1 ∧
     offs_tab src 16 255 s6.1 ∧ offs_tab src 24 255 s5.1) ∧
    (offs_tab src 32 255 s4.1 ∧ offs_tab src 40 255 s3.1 ∧
     offs_tab src 48 255 s2.1 ∧ offs_tab src 56 255 s1.1).
Proof.
  intros (H8 & H7 & H6 & H5) (H4 & H3 & H2 & H1).
  destruct (for_up_inv
    (λ i '(s8, s7, s6, s5, s4, s3, s2, s1),
       (offsets_inv (on_hash (digit 0 255)) 256 src i s8 ∧
        offsets_inv (on_hash (digit 8 255)) 256 src i s7 ∧
        offsets_inv (on_hash (digit 16 255)) 256 src i s6 ∧
        offsets_inv (on_hash (digit 24 255)) 256 src i s5) ∧
       (offsets_inv (on_hash (digit 32 255)) 256 src i s4 ∧
        offsets_inv (on_hash (digit 40 255)) 256 src i s3 ∧
        offsets_inv (on_hash (digit 48 255)) 256 src i s2 ∧
        offsets_inv (on_hash (digit 56 255)) 256 src i s1))
    offsets8_body 0 256
    ((c8, 0), (c7, 0), (c6, 0), (c5, 0), (c4, 0), (c3, 0), (c2, 0), (c1, 0)))
    as ([[[[[[[s8 s7] s6] s5] s4] s3] s2] s1] & Hl & Hi); [lia| | |].
  - change 255 with (Z.ones 8) in *. split; split_and!; by apply (offs_init src _ 8).
  - intros i [[[[[[[s8 s7] s6] s5] s4] s3] s2] s1] ? ((I8 & I7 & I6 & I5) & (I4 & I3 & I2 & I1)).
    change 255 with (Z.ones 8) in *. change 256 with (Z.ones 8 + 1) in *.
    destruct (offs_step src HN _ 8 _ _ ltac:(lia) ltac:(done) I8) as (s8' & E8 & I8').
    destruct (offs_step src HN _ 8 _ _ ltac:(lia) ltac:(done) I7) as (s7' & E7 & I7').
    destruct (offs_step src HN _ 8 _ _ ltac:(lia) ltac:(done) I6) as (s6' & E6 & I6').
    destruct (offs_step src HN _ 8 _ _ ltac:(lia) ltac:(done) I5) as (s5' & E5 & I5').
    destruct (offs_step src HN _ 8 _ _ ltac:(lia) ltac:(done) I4) as (s4' & E4 & I4').
    destruct (offs_step src HN _ 8 _ _ ltac:(lia) ltac:(done) I3) as (s3' & E3 & I3').
    destruct (offs_step src HN _ 8 _ _ ltac:(lia) ltac:(done) I2) as (s2' & E2 & I2').
    destruct (offs_step src HN _ 8 _ _ ltac:(lia) ltac:(done) I1) as (s1' & E1 & I1').
    exists (s8', s7', s6', s5', s4', s3', s2', s1'). split; [|done].
    unfold offsets8_body.
    rewrite E8. obind. rewrite E7. obind. rewrite E6. obind. rewrite E5. obind.
    rewrite E4. obind. rewrite E3. obind. rewrite E2. obind. by rewrite E1.
  - destruct Hi as ((I8 & I7 & I6 & I5) & (I4 & I3 & I2 & I1)).
    exists s8, s7, s6, s5, s4, s3, s2, s1. split; [done|].
    split; split_and!; by apply (offs_final src _ 255).
Qed.
End tables8.

Lemma lsd_sort_8 l :
  lsd_sort 8 8 l =
    pass_sort 56 8 (pass_sort 48 8 (pass_sort 40 8 (pass_sort 32 8
      (pass_sort 24 8 (pass_sort 16 8 (pass_sort 8 8 (pass_sort 0 8 l))))))).
Proof.
  unfold lsd_sort.
  replace (2 ^ 8) with (Z.ones 8 + 1) by (by vm_compute).
  replace (8 * Z.of_nat 7) with 56 by (by vm_compute).
  replace (8 * Z.of_nat 6) with 48 by (by vm_compute).
  replace (8 * Z.of_nat 5) with 40 by (by vm_compute).
  replace (8 * Z.of_nat 4) with 32 by (by vm_compute).
  replace (8 * Z.of_nat 3) with 24 by (by vm_compute).
  replace (8 * Z.of_nat 2) with 16 by (by vm_compute).
  replace (8 * Z.of_nat 1) with 8 by (by vm_compute).
  replace (8 * Z.of_nat 0) with 0 by (by vm_compute).
  reflexivity.
Qed.

(** [gf_radix_sort8]: eight stable passes on the bytes, lowest first. *)
Lemma gf_radix_sort8_rows ok (src : list (Z * Z)) :
  (∀ s, ok s = true) → Z.of_nat (length src) < 2 ^ 32 →
  gf_radix_sort8 ok (src.*1) (src.*2) (Z.of_nat (length src)) =
    Some (0, (lsd_sort 8 8 src).*1, (lsd_sort 8 8 src).*2).
Proof.
  intros Hok HN. unfold gf_radix_sort8, calloc. rewrite !Hok. obind.
  destruct (count8_loop src HN _ eq_refl)
    as (c8 & c7 & c6 & c5 & c4 & c3 & c2 & c1 & -> & Ha & Hb).
  obind.
  destruct (offsets8_loop src HN _ _ _ _ _ _ _ _ Ha Hb)
    as (s8 & s7 & s6 & s5 & s4 & s3 & s2 & s1 & -> & (T8 & T7 & T6 & T5) & (T4 & T3 & T2 & T1)).
  obind. change 255 with (Z.ones 8) in *.
  pose proof (pass_perm 0 8 src ltac:(lia)) as P1.
  pose proof (transitivity (pass_perm 8 8 _ ltac:(lia)) P1) as P2.
  pose proof (transitivity (pass_perm 16 8 _ ltac:(lia)) P2) as P3.
  pose proof (transitivity (pass_perm 24 8 _ ltac:(lia)) P3) as P4.
  pose proof (transitivity (pass_perm 32 8 _ ltac:(lia)) P4) as P5.
  pose proof (transitivity (pass_perm 40 8 _ ltac:(lia)) P5) as P6.
  pose proof (transitivity (pass_perm 48 8 _ ltac:(lia)) P6) as P7.
  rewrite (radix_pass_lsd 0 8 _ src src) by
    (try done; try lia; by rewrite ?length_replicate, ?Nat2Z.id).
  obind.
  rewrite (radix_pass_lsd 8 8 _ src _ _ _ _ ltac:(lia) P1) by
    (try done; try lia; by rewrite ?length_fmap).
  obind.
  rewrite (radix_pass_lsd 16 8 _ src _ _ _ _ ltac:(lia) P2) by
    (try done; try lia; by rewrite ?length_fmap, ?P1).
  obind.
  rewrite (radix_pass_lsd 24 8 _ src _ _ _ _ ltac:(lia) P3) by
    (try done; try lia; by rewrite ?length_fmap, ?P2).
  obind.
  rewrite (radix_pass_lsd 32 8 _ src _ _ _ _ ltac:(lia) P4) by
    (try done; try lia; by rewrite ?length_fmap, ?P3).
  obind.
  rewrite (radix_pass_lsd 40 8 _ src _ _ _ _ ltac:(lia) P5) by
    (try done; try lia; by rewrite ?length_fmap, ?P4).
  obind.
  rewrite (radix_pass_lsd 48 8 _ src _ _ _ _ ltac:(lia) P6) by
    (try done; try lia; by rewrite ?length_fmap, ?P5).
  obind.
  rewrite (radix_pass_lsd 56 8 _ src _ _ _ _ ltac:(lia) P7) by
    (try done; try lia; by rewrite ?length_fmap, ?P6).
  obind. rewrite lsd_sort_8. reflexivity.
Qed.

(** ** The counting sort *)

Lemma tab_weaken c n m f : tab c n f → m ≤ n → tab c m f.
Proof. intros [? H] ?. split; [lia|]. intros d ?. apply H. lia. Qed.

Lemma cnt_shift {A} (key key' : A → Z) d (l : list A) :
  (∀ a, key' a = key a + 1) → cnt key' d l = cnt key (d - 1) l.
Proof.
  intros Hk. unfold cnt, bucket. do 2 f_equal.
  induction l as [|a l IH]; [done|].
  rewrite !filter_cons, IH, Hk.
  destruct (decide (key a + 1 = d)), (decide (key a = d - 1)); done || lia.
Qed.

Section counting_sort.
Context (ct : ctype) (src : list (Z * Z)) (min max : Z).
Hypothesis Hct : ct_ok ct (Z.of_nat (length src)).
Hypothesis Hmin : 0 ≤ min ∧ min ≤ max ∧ max < 2 ^ 64.
Hypothesis Hmax : max - min + 2 < 2 ^ 64.
Hypothesis Hkeys : ∀ a, a ∈ src → min ≤ a.1 ≤ max.

Let range := max - min + 1.
Let N := Z.of_nat (length src).

Lemma offset_key_range a : a ∈ src → 0 ≤ offset_key min a < range.
Proof. intros ?%Hkeys. unfold offset_key, range. lia. Qed.

Lemma biased_key_range a : a ∈ src → 0 ≤ biased_key min a < range + 1.
Proof. intros ?%Hkeys. unfold biased_key, range. lia. Qed.

Lemma cs_count_loop xcopy icopy count :
  length xcopy = length src → length icopy = length src →
  tab count (range + 1) (λ _, 0) →
  ∃ count',
    for_up 0 N (cs_count_body ct (src.*1) (src.*2) min) (xcopy, icopy, count)
      = Some (biased_key min <$> src, src.*2, count') ∧
    tab count' (range + 1) (λ d, cnt (biased_key min) d src).
Proof.
  intros Hl1 Hl2 Ht.
  destruct (for_up_inv
    (λ k '(xc, ic, c),
       copied (biased_key min) src k xc ∧ copied snd src k ic ∧
       tab c (range + 1) (λ d, cnt (biased_key min) d (take (Z.to_nat k) src)))
    (cs_count_body ct (src.*1) (src.*2) min) 0 N (xcopy, icopy, count))
    as ([[xc ic] c] & Hl & Hx & Hi & Hc); [unfold N; lia| | |].
  - split_and!; [by apply copied_init..|]. eapply tab_ext; [done|]. done.
  - intros k [[xc ic] c] ? (Hx & Hi & Hc).
    destruct (aget_row src k) as (a & Ha & Hak); [unfold N in *; lia|].
    pose proof (list_elem_of_lookup_2 _ _ _ Hak) as Hin.
    pose proof (Hkeys _ Hin).
    destruct (copied_step _ _ _ _ _ Hx Ha) as (xc' & Ex & Hx').
    destruct (copied_step _ _ _ _ _ Hi Ha) as (ic' & Ei & Hi').
    destruct (hist_bump (biased_key min) (range + 1) src ct biased_key_range Hct
                _ _ _ Hc Hak) as (c' & Ec & _ & Hc').
    exists (xc', ic', c'). split.
    + unfold cs_count_body. rewrite !aget_fmap, Ha. obind.
      assert (wrap64 (a.1 + 1 - min) = biased_key min a) as ->.
      { unfold wrap64, biased_key. rewrite Z.mod_small; lia. }
      rewrite Ex. obind. rewrite Ec. obind. by rewrite Ei.
    + split_and!; [done..|].
      by replace (Z.to_nat (k + 1)) with (S (Z.to_nat k)) by lia.
  - exists c. unfold N in *.
    rewrite (copied_final _ _ _ Hx), (copied_final _ _ _ Hi) in Hl.
    split; [done|]. by rewrite Nat2Z.id, take_ge in Hc.
Qed.

Lemma cs_cumul_loop count :
  tab count (range + 1) (λ d, cnt (biased_key min) d src) →
  ∃ count', for_up 1 range (cumul_body ct) count = Some count' ∧
            tab count' range (λ d, cnt_lt (offset_key min) d src).
Proof.
  intros Ht.
  destruct (cumul_loop ct count range (λ d, cnt (biased_key min) d src)
              (λ d, cnt_lt (offset_key min) d src) N Hct) as (c' & Hl & _ & Hc').
  - unfold range. lia.
  - intros d _. split; [apply cnt_lt_nonneg|apply cnt_lt_le_length].
  - rewrite (cnt_lt_low (offset_key min) 0) by (intros a ?%offset_key_range; lia).
    symmetry. apply cnt_out. intros a ?%Hkeys. unfold biased_key. lia.
  - intros d ?. rewrite (cnt_shift (offset_key min) (biased_key min)) by
      (intros; unfold biased_key, offset_key; lia).
    replace d with (d - 1 + 1) at 1 by lia. rewrite cnt_lt_succ. lia.
  - eapply tab_weaken; [done|lia].
  - by exists c'.
Qed.

Lemma cs_place_loop x index count :
  length x = length src → length index = length src →
  tab count range (λ d, cnt_lt (offset_key min) d src) →
  ∃ count',
    for_up 0 N (cs_place_body ct (biased_key min <$> src) (src.*2) min) (x, index, count)
      = Some ((counting_order min max src).*1, (counting_order min max src).*2, count').
Proof.
  intros Hl1 Hl2 Ht.
  destruct (for_up_inv (scatter_up_inv (offset_key min) range src)
    (cs_place_body ct (biased_key min <$> src) (src.*2) min) 0 N (x, index, count))
    as ([[x' i'] c'] & Hl & Hinv); [unfold N; lia| | |].
  - by apply scatter_up_init.
  - intros k [[x1 i1] c1] Hk Hinv.
    destruct (aget_row src k) as (a & Ha & Hak); [unfold N in *; lia|].
    pose proof (list_elem_of_lookup_2 _ _ _ Hak) as Hin.
    pose proof (Hkeys _ Hin).
    rewrite <-(Z2Nat.id k) in Hinv by lia.
    destruct (scatter_up_step (offset_key min) range src offset_key_range ct _ a _ _ _
                Hct Hinv Hak) as (p & x2 & i2 & c2 & Hg & Hs1 & Hs2 & Hb & Hinv').
    rewrite Z2Nat.id in Hinv' by lia.
    exists (x2, i2, c2). split; [|done].
    unfold cs_place_body. rewrite !aget_fmap, Ha. obind.
    assert (wrap64 (biased_key min a - 1) = offset_key min a) as ->.
    { unfold wrap64, biased_key, offset_key. rewrite Z.mod_small; lia. }
    assert (wrap64 (biased_key min a - 1 + min) = a.1) as ->.
    { unfold wrap64, biased_key. rewrite Z.mod_small; lia. }
    rewrite Hg. obind. rewrite Hb. obind. rewrite Hs2. obind. by rewrite Hs1.
  - exists c'. rewrite Hl. unfold N in *.
    by destruct (scatter_up_final (offset_key min) range src offset_key_range _ _ _ Hinv)
      as [-> ->].
Qed.

(** The four loops of the counting sort, run on the rows [src], leave
    the rows in [counting_order]. *)
Lemma counting_loops_rows :
  counting_loops ct (src.*1) (src.*2) N min range
    (replicate (Z.to_nat N) 0) (replicate (Z.to_nat N) 0)
    (replicate (Z.to_nat (wrap64 (range + 1))) 0) =
  Some ((counting_order min max src).*1, (counting_order min max src).*2).
Proof.
  unfold counting_loops.
  assert (wrap64 (range + 1) = range + 1) as ->.
  { unfold wrap64, range. apply Z.mod_small. lia. }
  rewrite zero_loop by lia. obind.
  destruct (cs_count_loop (replicate (Z.to_nat N) 0) (replicate (Z.to_nat N) 0)
              (replicate (Z.to_nat (range + 1)) 0)) as (c1 & -> & H1).
  { rewrite length_replicate. unfold N. lia. }
  { rewrite length_replicate. unfold N. lia. }
  { apply tab_zero. unfold range. lia. }
  obind. destruct (cs_cumul_loop c1 H1) as (c2 & -> & H2). obind.
  destruct (cs_place_loop (src.*1) (src.*2) c2) as (c3 & ->);
    [by rewrite length_fmap..|done|].
  by obind.
Qed.
End counting_sort.

(** [gf_counting_sort] on the rows [src] whose keys lie in [min .. max]. *)
Lemma gf_counting_sort_rows ok (src : list (Z * Z)) min max :
  (∀ s, ok s = true) → Z.of_nat (length src) < 2 ^ 64 →
  0 ≤ min ∧ min ≤ max ∧ max < 2 ^ 64 → max - min + 2 < 2 ^ 64 →
  (∀ a, a ∈ src → min ≤ a.1 ≤ max) →
  gf_counting_sort ok (src.*1) (src.*2) (Z.of_nat (length src)) min max =
    Some (0, (counting_order min max src).*1, (counting_order min max src).*2).
Proof.
  intros Hok HN Hmin Hmax Hkeys. unfold gf_counting_sort, calloc. rewrite !Hok.
  assert (wrap64 (max - min + 1) = max - min + 1) as ->.
  { unfold wrap64. apply Z.mod_small. lia. }
  cbv beta iota zeta.
  rewrite (counting_loops_rows c_uint64 src min max (ct_ok_uint64 _ HN) Hmin Hmax Hkeys).
  by obind.
Qed.

(** While its [int] counter stays in range, [mf_counting_sort_index] runs
    the loops of the counting sort with [int] counts. *)
Lemma mf_counting_loops_eq x index N min range xcopy icopy count :
  N < 2 ^ 31 → range < 2 ^ 31 → wrap64 (range + 1) < 2 ^ 31 →
  mf_counting_loops x index N min range xcopy icopy count
  = counting_loops c_int x index N min range xcopy icopy count.
Proof.
  intros HN Hr Hr1. unfold mf_counting_loops, counting_loops.
  rewrite for_up_int_eq by lia.
  destruct (for_up 0 _ zero_body count) as [c1|]; [|done]. obind.
  rewrite for_up_int_eq by lia.
  destruct (for_up 0 N _ _) as [[[xc ic] c2]|]; [|done]. obind.
  rewrite for_up_int_eq by lia.
  destruct (for_up 1 range _ c2) as [c3|]; [|done]. obind.
  by rewrite for_up_int_eq by lia.
Qed.

(** [mf_counting_sort_index], whose counters are [int]s. *)
Lemma mf_counting_sort_index_rows ok (src : list (Z * Z)) min max :
  (∀ s, ok s = true) → Z.of_nat (length src) < 2 ^ 31 →
  0 ≤ min ∧ min ≤ max ∧ max < 2 ^ 64 → max - min + 2 < 2 ^ 31 →
  (∀ a, a ∈ src → min ≤ a.1 ≤ max) →
  mf_counting_sort_index ok (src.*1) (src.*2) (Z.of_nat (length src)) min max =
    Some (0, (counting_order min max src).*1, (counting_order min max src).*2).
Proof.
  intros Hok HN Hmin Hmax31 Hkeys. unfold mf_counting_sort_index, calloc. rewrite !Hok.
  assert (max - min + 2 < 2 ^ 64) as Hmax by lia.
  assert (wrap64 (max - min + 1) = max - min + 1) as ->.
  { unfold wrap64. apply Z.mod_small. lia. }
  cbv beta iota zeta.
  rewrite mf_counting_loops_eq;
    [|done|lia|unfold wrap64; rewrite Z.mod_small; lia].
  rewrite (counting_loops_rows c_int src min max (ct_ok_int _ HN) Hmin Hmax Hkeys).
  by obind.
Qed.

(** ** One pass of [mf_radix_sort_index] *)

Section mf_pass.
Context (src : list (Z * Z)) (exp shift : Z).
Hypothesis HN : Z.of_nat (length src) < 2 ^ 31.
Hypothesis Hexp : 0 < exp.
Hypothesis Hshift : 0 < shift.
Hypothesis Hshift31 : shift < 2 ^ 31.

Let N := Z.of_nat (length src).
Let key := pass_key exp shift.

Lemma pass_key_range a : 0 ≤ pass_key exp shift a < shift.
Proof. unfold pass_key. apply Z.mod_pos_bound. lia. Qed.

Lemma pass_count_loop xmod outx outi count :
  length xmod = length src → length outx = length src → length outi = length src →
  tab count shift (λ _, 0) →
  ∃ count',
    for_up 0 N (pass_count_body (src.*1) (src.*2) exp shift) (xmod, outx, outi, count)
      = Some (key <$> src, src.*1, src.*2, count') ∧
    tab count' shift (λ d, cnt key d src).
Proof.
  intros Hl1 Hl2 Hl3 Ht.
  destruct (for_up_inv
    (λ k '(xm, ox, oi, c),
       (copied key src k xm ∧ copied fst src k ox) ∧ copied snd src k oi ∧
       tab c shift (λ d, cnt key d (take (Z.to_nat k) src)))
    (pass_count_body (src.*1) (src.*2) exp shift) 0 N (xmod, outx, outi, count))
    as ([[[xm ox] oi] c] & Hl & [Hx Ho] & Hi & Hc); [unfold N; lia| | |].
  - split_and!; [by apply copied_init..|]. eapply tab_ext; [done|]. done.
  - intros k [[[xm ox] oi] c] ? ([Hx Ho] & Hi & Hc).
    destruct (aget_row src k) as (a & Ha & Hak); [unfold N in *; lia|].
    destruct (copied_step _ _ _ _ _ Hx Ha) as (xm' & Ex & Hx').
    destruct (copied_step _ _ _ _ _ Ho Ha) as (ox' & Eo & Ho').
    destruct (copied_step _ _ _ _ _ Hi Ha) as (oi' & Ei & Hi').
    destruct (hist_bump key shift src c_int) with (c := c) (k := Z.to_nat k) (a := a)
      as (c' & Ec & _ & Hc'); [intros ??; apply pass_key_range|by apply ct_ok_int|done..|].
    exists (xm', ox', oi', c'). split.
    + unfold pass_count_body. rewrite !aget_fmap, Ha. obind.
      rewrite Eo. obind. rewrite decide_False by lia.
      change ((a.1 / exp) mod shift) with (key a).
      rewrite Ex. obind. rewrite Ec. obind. by rewrite Ei.
    + split_and!; [done..|].
      by replace (Z.to_nat (k + 1)) with (S (Z.to_nat k)) by lia.
  - exists c. unfold N in *.
    rewrite (copied_final _ _ _ Hx), (copied_final _ _ _ Ho), (copied_final _ _ _ Hi) in Hl.
    split; [done|]. by rewrite Nat2Z.id, take_ge in Hc.
Qed.

Lemma pass_cumul_loop count :
  tab count shift (λ d, cnt key d src) →
  ∃ count', for_up 1 shift (cumul_body c_int) count = Some count' ∧
            tab count' shift (λ d, cnt_lt key (d + 1) src).
Proof.
  intros Ht.
  destruct (cumul_loop c_int count shift (λ d, cnt key d src)
              (λ d, cnt_lt key (d + 1) src) N (ct_ok_int _ HN)) as (c' & Hl & _ & Hc').
  - lia.
  - intros d _. split; [apply cnt_lt_nonneg|apply cnt_lt_le_length].
  - rewrite cnt_lt_succ, (cnt_lt_low key 0); [lia|].
    intros a _. apply pass_key_range.
  - intros d ?. rewrite cnt_lt_succ. replace (d - 1 + 1) with d by lia. lia.
  - done.
  - by exists c'.
Qed.

Lemma pass_place_loop x index count :
  length x = length src → length index = length src →
  tab count shift (λ d, cnt_lt key (d + 1) src) →
  ∃ count',
    for_down (Z.to_nat N) (pass_place_body (key <$> src) (src.*1) (src.*2)) (x, index, count)
      = Some ((bucket_sort key shift src).*1, (bucket_sort key shift src).*2, count').
Proof.
  intros Hl1 Hl2 Ht.
  assert (∀ a, a ∈ src → 0 ≤ key a < shift) as Hkey by (intros ??; apply pass_key_range).
  destruct (for_down_inv (scatter_down_inv key shift src)
    (pass_place_body (key <$> src) (src.*1) (src.*2)) (Z.to_nat N) (x, index, count))
    as ([[x' i'] c'] & Hl & Hinv).
  - unfold N. rewrite Nat2Z.id. by apply scatter_down_init.
  - intros k [[x1 i1] c1] Hk Hinv.
    destruct (aget_row src k) as (a & Ha & Hak); [unfold N in *; lia|].
    rewrite <-(Z2Nat.id k) in Hinv by lia.
    destruct (scatter_down_step key shift src Hkey c_int _ a _ _ _
                (ct_ok_int _ HN) Hinv Hak)
      as (v & x2 & i2 & c2 & Hg & Hd & Hv & Hs1 & Hs2 & Hinv').
    rewrite Z2Nat.id in Hinv' by lia.
    exists (x2, i2, c2). split; [|done].
    unfold pass_place_body. rewrite !aget_fmap, Ha. obind.
    rewrite Hg. obind. rewrite Hd. obind. rewrite Hv. obind.
    rewrite Hs2. obind. by rewrite Hs1.
  - exists c'. rewrite Hl.
    by destruct (scatter_down_final key shift src Hkey _ _ _ Hinv) as [-> ->].
Qed.

(** One pass arranges the rows by its digit, stably. *)
Lemma mf_radix_sort_index_pass_rows ok :
  (∀ s, ok s = true) →
  mf_radix_sort_index_pass ok (src.*1) (src.*2) N exp shift =
    Some (0, (bucket_sort (pass_key exp shift) shift src).*1,
             (bucket_sort (pass_key exp shift) shift src).*2).
Proof.
  intros Hok. unfold mf_radix_sort_index_pass, calloc. rewrite !Hok.
  cbv beta iota zeta.
  rewrite for_up_int_eq by lia. rewrite zero_loop by lia. obind.
  rewrite for_up_int_eq by (unfold N; lia).
  destruct (pass_count_loop (replicate (Z.to_nat N) 0) (replicate (Z.to_nat N) 0)
              (replicate (Z.to_nat N) 0) (replicate (Z.to_nat shift) 0))
    as (c1 & -> & H1).
  { rewrite length_replicate. unfold N. lia. }
  { rewrite length_replicate. unfold N. lia. }
  { rewrite length_replicate. unfold N. lia. }
  { apply tab_zero. lia. }
  obind. rewrite for_up_int_eq by lia.
  destruct (pass_cumul_loop c1 H1) as (c2 & -> & H2). obind.
  destruct (pass_place_loop (src.*1) (src.*2) c2) as (c3 & ->);
    [by rewrite length_fmap..|done|].
  by obind.
Qed.
End mf_pass.

(** ** Order and stability of the reference arrangements *)

Lemma StronglySorted_total {A} (R : A → A → Prop) (l : list A) :
  (∀ a b, R a b) → StronglySorted R l.
Proof.
  intros HR. induction l as [|a l IH]; constructor; [done|].
  apply Forall_forall. intros b _. apply HR.
Qed.

Lemma StronglySorted_impl {A} (R R' : A → A → Prop) (l : list A) :
  (∀ a b, a ∈ l → b ∈ l → R a b → R' a b) →
  StronglySorted R l → StronglySorted R' l.
Proof.
  intros HR Hs. induction Hs as [|a l Hs IH Ha]; constructor.
  - apply IH. intros b c ??. apply HR; by right.
  - rewrite Forall_forall in Ha |- *. intros b Hb.
    apply HR; [left|by right|by apply Ha].
Qed.

(** Arranging by one more digit a list that is in order of its lower
    part puts it in order of the longer lower part. *)
Lemma bucket_sort_digit (key low low' : Z * Z → Z) (M size : Z) (l : list (Z * Z)) :
  0 < M →
  (∀ a, 0 ≤ low a < M) → (∀ a, low' a = key a * M + low a) →
  StronglySorted (λ a b, low a ≤ low b) l →
  StronglySorted (λ a b, low' a ≤ low' b) (bucket_sort key size l).
Proof.
  intros HM Hlow Hlow' Hs. apply bucket_sort_sorted.
  - intros d. unfold bucket.
    eapply StronglySorted_impl; [|by apply StronglySorted_filter].
    intros a b [Ha _]%list_elem_of_filter [Hb _]%list_elem_of_filter ?.
    rewrite !Hlow', Ha, Hb. lia.
  - intros a b _ _ ?. rewrite !Hlow'.
    pose proof (Hlow a). pose proof (Hlow b). nia.
Qed.

Lemma digit_split bits n p h :
  0 ≤ bits → n = Z.ones bits →
  h mod 2 ^ (bits * Z.of_nat (S p)) =
    digit (bits * Z.of_nat p) n h * 2 ^ (bits * Z.of_nat p) + h mod 2 ^ (bits * Z.of_nat p).
Proof.
  intros Hb ->. unfold digit.
  rewrite Z.land_ones, Z.shiftr_div_pow2 by lia.
  replace (bits * Z.of_nat (S p)) with (bits * Z.of_nat p + bits) by lia.
  rewrite Z.pow_add_r by lia.
  rewrite Z.rem_mul_r by lia. lia.
Qed.

Lemma lsd_sort_low bits passes l :
  0 ≤ bits →
  StronglySorted (λ a b : Z * Z, a.1 mod 2 ^ (bits * Z.of_nat passes)
                               ≤ b.1 mod 2 ^ (bits * Z.of_nat passes))
    (lsd_sort bits passes l).
Proof.
  intros Hb. induction passes as [|p IH].
  - apply StronglySorted_total. intros a b.
    replace (bits * Z.of_nat 0) with 0 by lia. rewrite !Z.mod_1_r. done.
  - cbn [lsd_sort].
    apply (bucket_sort_digit _ (λ a, a.1 mod 2 ^ (bits * Z.of_nat p)) _
             (2 ^ (bits * Z.of_nat p))); [lia| | |done].
    + intros a. apply Z.mod_pos_bound. lia.
    + intros a. unfold on_hash. by apply digit_split.
Qed.

(** A radix sort of enough digits puts the rows in order of their keys. *)
Lemma lsd_sort_sorted bits passes l :
  0 ≤ bits → (∀ a, a ∈ l → 0 ≤ a.1 < 2 ^ (bits * Z.of_nat passes)) →
  sorted_by fst (lsd_sort bits passes l).
Proof.
  intros Hb Hk. eapply StronglySorted_impl; [|by apply lsd_sort_low].
  intros a b Ha Hb' H. rewrite lsd_sort_perm in Ha, Hb' by done. simpl in H.
  rewrite !Z.mod_small in H by by apply Hk. done.
Qed.

(** It keeps the rows of equal key in their order. *)
Lemma lsd_sort_filter bits passes l v :
  0 ≤ bits →
  filter (λ a : Z * Z, a.1 = v) (lsd_sort bits passes l) = filter (λ a, a.1 = v) l.
Proof.
  intros Hb. induction passes as [|p IH]; [done|]. cbn [lsd_sort].
  rewrite (bucket_sort_filter _ (λ a : Z * Z, a.1 = v) _ _
             (digit (bits * Z.of_nat p) (Z.ones bits) v)), IH; [done| |].
  - pose proof (digit_range (bits * Z.of_nat p) bits v Hb) as Hd.
    rewrite Z.ones_equiv in Hd at 3. lia.
  - intros a <-. done.
Qed.

Lemma lsd_sort_stable bits passes l :
  0 ≤ bits → (∀ a, a ∈ l → 0 ≤ a.1 < 2 ^ (bits * Z.of_nat passes)) →
  stable_sort_of l (lsd_sort bits passes l).
Proof.
  intros ??. split; [by apply lsd_sort_sorted|]. intros v. by apply lsd_sort_filter.
Qed.

(** The counting order is in order of the keys, and stable. *)
Lemma counting_order_stable min max l :
  (∀ a, a ∈ l → min ≤ a.1 ≤ max) → stable_sort_of l (counting_order min max l).
Proof.
  intros Hk.
  assert (∀ a, a ∈ l → 0 ≤ offset_key min a < max - min + 1) as Hk'.
  { intros a ?%Hk. unfold offset_key. lia. }
  split.
  - apply bucket_sort_sorted.
    + intros d. unfold bucket. apply StronglySorted_impl with (R := λ _ _, True).
      * intros a b [Ha _]%list_elem_of_filter [Hb _]%list_elem_of_filter _.
        unfold offset_key in *. simpl. lia.
      * by apply StronglySorted_total.
    + intros a b _ _. unfold offset_key. simpl. lia.
  - intros v. destruct (decide (min ≤ v ≤ max)).
    + apply (bucket_sort_filter _ _ _ _ (v - min)); [lia|].
      intros b Hb. unfold offset_key. lia.
    + rewrite !filter_none; [done|..].
      * intros a ?%Hk ?. lia.
      * intros a Ha ?. apply (bucket_sort_elem _ _ _ _ Hk') in Ha. apply Hk in Ha. lia.
Qed.

(** There is only one stable arrangement in order. *)
Lemma stable_sort_unique src l1 l2 :
  stable_sort_of src l1 → stable_sort_of src l2 → l1 = l2.
Proof.
  intros [S1 F1] [S2 F2].
  assert (∀ v, filter (λ a : Z * Z, a.1 = v) l1 = filter (λ a, a.1 = v) l2) as HF.
  { intros v. by rewrite F1, F2. }
  clear F1 F2 src. unfold sorted_by in *. revert l2 S2 HF.
  induction S1 as [|a l1 S1 IH Ha]; intros l2 S2 HF.
  - destruct l2 as [|b l2]; [done|]. specialize (HF b.1).
    rewrite filter_nil, filter_cons_True in HF by done. done.
  - destruct S2 as [|b l2 S2 Hb].
    { specialize (HF a.1). rewrite filter_nil, filter_cons_True in HF by done. done. }
    assert (a.1 = b.1) as Hab.
    { assert (a ∈ b :: l2) as Hin.
      { eapply list_elem_of_filter. rewrite <-(HF a.1), filter_cons_True by done. left. }
      assert (b ∈ a :: l1) as Hin'.
      { eapply list_elem_of_filter. rewrite (HF b.1), filter_cons_True by done. left. }
      rewrite Forall_forall in Ha, Hb.
      apply elem_of_cons in Hin as [->|Hin]; [done|].
      apply elem_of_cons in Hin' as [->|Hin']; [done|].
      apply Hb in Hin. apply Ha in Hin'. simpl in *. lia. }
    pose proof (HF a.1) as H0. rewrite !filter_cons_True in H0 by done.
    injection H0 as -> H0. f_equal. apply IH; [done|].
    intros v. specialize (HF v). rewrite !filter_cons in HF.
    destruct (decide (b.1 = v)); [by injection HF|done].
Qed.

Lemma stable_sort_perm src out : stable_sort_of src out → out ≡ₚ src.
Proof.
  intros [_ HF]. revert out HF.
  induction src as [|a src IH]; intros out HF.
  - destruct out as [|b out]; [done|]. specialize (HF b.1).
    rewrite filter_nil, filter_cons_True in HF by done. done.
  - assert (a ∈ out) as Hin.
    { eapply list_elem_of_filter. rewrite (HF a.1), filter_cons_True by done. left. }
    assert (∃ i, filter (λ b : Z * Z, b.1 = a.1) out !! 0%nat = Some a ∧ out !! i = Some a ∧
                 ∀ j b, (j < i)%nat → out !! j = Some b → b.1 ≠ a.1) as (i & _ & Hi & Hfirst).
    { specialize (HF a.1). rewrite filter_cons_True in HF by done.
      clear IH Hin. revert HF. generalize (filter (λ a0 : Z * Z, a0.1 = a.1) src). intros f.
      induction out as [|b out IHo]; intros HF; [done|].
      rewrite filter_cons in HF. destruct (decide (b.1 = a.1)) as [Hb|Hb].
      - injection HF as -> _. exists 0%nat. rewrite filter_cons_True by done.
        split_and!; [done..|]. intros; lia.
      - destruct (IHo HF) as (i & H0 & Hi & Hf). exists (S i).
        rewrite filter_cons_False by done. split_and!; [done..|].
        intros [|j] c ? Hc; simpl in Hc; [by simplify_eq|]. eapply Hf; [|done]. lia. }
    rewrite <-(take_drop_middle out i a Hi). rewrite <-Permutation_middle. f_equiv.
    apply IH. intros v. specialize (HF v).
    rewrite <-(take_drop_middle out i a Hi), filter_app, !filter_cons in HF.
    rewrite filter_app. destruct (decide (a.1 = v)) as [<-|]; [|done].
    rewrite filter_none in HF |- *; try by simplify_list_eq.
    all: intros b [j Hj]%list_elem_of_lookup_1;
      pose proof (lookup_lt_Some _ _ _ Hj) as Hlt; rewrite length_take in Hlt;
      rewrite lookup_take_lt in Hj by lia; eapply Hfirst; [|done]; lia.
Qed.

(** ** Stability, told on the arrays *)

Lemma filter_order {A} (P : A → Prop) `{!∀ x, Decision (P x)} (l : list A) i' j' p q :
  (i' < j')%nat → filter P l !! i' = Some p → filter P l !! j' = Some q →
  ∃ i j, (i < j)%nat ∧ l !! i = Some p ∧ l !! j = Some q.
Proof.
  revert i' j'. induction l as [|x l IH]; intros i' j' Hlt Hp Hq; [done|].
  rewrite filter_cons in Hp, Hq. destruct (decide (P x)).
  - destruct i' as [|i'], j' as [|j']; try lia; simpl in *.
    + simplify_eq. apply list_elem_of_lookup_2, list_elem_of_filter in Hq as [_ Hq].
      apply list_elem_of_lookup_1 in Hq as [j Hj]. exists 0%nat, (S j). split_and!; [lia|done..].
    + destruct (IH i' j') as (i & j & ? & ? & ?); [lia|done..|].
      exists (S i), (S j). split_and!; [lia|done..].
  - destruct (IH i' j') as (i & j & ? & ? & ?); [lia|done..|].
    exists (S i), (S j). split_and!; [lia|done..].
Qed.

Lemma filter_order_inv {A} (P : A → Prop) `{!∀ x, Decision (P x)} (l : list A) i j p q :
  (i < j)%nat → l !! i = Some p → l !! j = Some q → P p → P q →
  ∃ i' j', (i' < j')%nat ∧ filter P l !! i' = Some p ∧ filter P l !! j' = Some q.
Proof.
  revert i j. induction l as [|x l IH]; intros i j Hlt Hp Hq HPp HPq; [done|].
  rewrite filter_cons. destruct i as [|i], j as [|j]; try lia; simpl in *.
  - simplify_eq. rewrite decide_True by done.
    assert (q ∈ filter P l) as [j' Hj']%list_elem_of_lookup_1.
    { apply list_elem_of_filter. split; [done|]. by eapply list_elem_of_lookup_2. }
    exists 0%nat, (S j'). split_and!; [lia|done..].
  - destruct (IH i j) as (i' & j' & ? & ? & ?); [lia|done..|].
    destruct (decide (P x)); [|by exists i', j'].
    exists (S i'), (S j'). split_and!; [lia|done..].
Qed.

Lemma list_bounds (l : list Z) : ∃ m M, ∀ h, h ∈ l → m ≤ h ≤ M.
Proof.
  induction l as [|x l (m & M & IH)].
  - exists 0, 0. by intros h ?%elem_of_nil.
  - exists (Z.min m x), (Z.max M x). intros h [->|Hh%IH]%elem_of_cons; lia.
Qed.

Lemma stable_sort_of_fmap (f : Z * Z → Z * Z) src out :
  (∀ a, (f a).1 = a.1) → stable_sort_of src out → stable_sort_of (f <$> src) (f <$> out).
Proof.
  intros Hf [Hs HF]. split.
  - unfold sorted_by in *. eapply (StronglySorted_fmap f); [|exact Hs].
    intros a b. by rewrite !Hf.
  - intros v. rewrite !filter_fmap_comm.
    rewrite (list_filter_iff (λ b, (f b).1 = v) (λ b, b.1 = v) out) by (intros; by rewrite Hf).
    rewrite (list_filter_iff (λ b, (f b).1 = v) (λ b, b.1 = v) src) by (intros; by rewrite Hf).
    by rewrite HF.
Qed.

(** The rows of an array with their own positions. *)
Lemma rows_lookup H I (p : nat) h i :
  H !! p = Some h → I !! p = Some i → rows H I !! p = Some (h, i).
Proof. intros Hh Hi. unfold rows. by rewrite lookup_zip_with, Hh, Hi. Qed.

Lemma rows_fmap_seq H I :
  length H = length I →
  rows H I = (λ p, (H !!! p, I !!! p)) <$> seq 0 (length H).
Proof.
  intros Hlen. apply list_eq. intros p. rewrite list_lookup_fmap.
  destruct (decide (p < length H)%nat) as [Hp|Hp].
  - rewrite lookup_seq_lt by done. simpl.
    destruct (lookup_lt_is_Some_2 H p Hp) as [h Hh].
    destruct (lookup_lt_is_Some_2 I p) as [i Hi]; [lia|].
    rewrite (rows_lookup _ _ _ _ _ Hh Hi).
    by rewrite (list_lookup_total_correct _ _ _ Hh), (list_lookup_total_correct _ _ _ Hi).
  - rewrite lookup_seq_ge by lia. simpl. apply lookup_ge_None.
    unfold rows. rewrite length_zip_with. lia.
Qed.

(** A stable arrangement of the rows is a stable arrangement of the
    arrays. *)
Lemma stable_arrays_of_rows H I out :
  length H = length I → stable_sort_of (rows H I) out →
  stable_arrays H I (out.*1) (out.*2).
Proof.
  intros Hlen Hout.
  set (src0 := (λ p : nat, (H !!! p, Z.of_nat p)) <$> seq 0 (length H)).
  destruct (list_bounds H) as (m & M & Hb).
  assert (∀ a, a ∈ src0 → m ≤ a.1 ≤ M) as Hb0.
  { intros a (p & -> & Hp%elem_of_seq)%list_elem_of_fmap. simpl.
    apply Hb, list_elem_of_lookup_total_2. lia. }
  pose proof (counting_order_stable m M src0 Hb0) as Hst0.
  set (out0 := counting_order m M src0) in *.
  set (f := λ a : Z * Z, (a.1, I !!! Z.to_nat a.2)).
  assert (f <$> src0 = rows H I) as Hsrc.
  { rewrite rows_fmap_seq by done. unfold src0. rewrite <-list_fmap_compose.
    apply list_fmap_ext. intros _ p _. unfold f. simpl. by rewrite Nat2Z.id. }
  assert (out = f <$> out0) as ->.
  { apply (stable_sort_unique (rows H I)); [done|].
    rewrite <-Hsrc. by apply stable_sort_of_fmap. }
  pose proof (stable_sort_perm _ _ Hst0) as Hperm.
  assert (∀ a : Z * Z, a ∈ out0 → a.1 = H !!! Z.to_nat a.2) as Hrow.
  { intros a Ha. rewrite Hperm in Ha.
    apply list_elem_of_fmap in Ha as (p & -> & Hp%elem_of_seq). simpl.
    by rewrite Nat2Z.id. }
  exists (Z.to_nat <$> out0.*2). split_and!.
  - rewrite Hperm. unfold src0. rewrite <-!list_fmap_compose.
    rewrite (list_fmap_ext _ id (seq 0 (length H))), list_fmap_id; [done|].
    intros _ p _. simpl. apply Nat2Z.id.
  - rewrite <-!list_fmap_compose. apply list_fmap_ext.
    intros _ a Ha%list_elem_of_lookup_2. simpl. by apply Hrow.
  - rewrite <-!list_fmap_compose. by apply list_fmap_ext.
  - intros p q Hpq Heq. destruct Hst0 as [_ HF]. specialize (HF (H !!! p)).
    destruct (filter_order_inv (λ a : Z * Z, a.1 = H !!! p) src0 p q
                (H !!! p, Z.of_nat p) (H !!! q, Z.of_nat q))
      as (i' & j' & Hlt & Hi' & Hj'); [lia| | |done|done|].
    { unfold src0. rewrite list_lookup_fmap, lookup_seq_lt by lia. done. }
    { unfold src0. rewrite list_lookup_fmap, lookup_seq_lt by lia. done. }
    rewrite <-HF in Hi', Hj'.
    destruct (filter_order _ _ _ _ _ _ Hlt Hi' Hj') as (i & j & ? & Hi & Hj).
    exists i, j. split; [done|].
    rewrite !list_lookup_fmap, Hi, Hj. simpl. by rewrite !Nat2Z.id.
Qed.

Lemma StronglySorted_lookup {A} (R : A → A → Prop) (l : list A) (i j : nat) a b :
  StronglySorted R l → (i < j)%nat → l !! i = Some a → l !! j = Some b → R a b.
Proof.
  intros Hs. revert i j. induction Hs as [|x l Hs IH Hx]; intros i j Hij Ha Hb; [done|].
  destruct i as [|i], j as [|j]; try lia; simpl in *.
  - simplify_eq. rewrite Forall_forall in Hx. apply Hx. by eapply list_elem_of_lookup_2.
  - apply (IH i j); [lia|done..].
Qed.

(** An arrangement in order of the keys reads as such on the array. *)
Lemma sorted_by_fst_lookup (out : list (Z * Z)) (i j : nat) x y :
  sorted_by fst out → (i ≤ j)%nat → out.*1 !! i = Some x → out.*1 !! j = Some y → x ≤ y.
Proof.
  intros Hs Hij Hx Hy. rewrite list_lookup_fmap in Hx, Hy.
  destruct (out !! i) as [a|] eqn:Ha; [|done].
  destruct (out !! j) as [b|] eqn:Hb'; [|done]. simpl in *. simplify_eq.
  destruct (decide (i = j)) as [->|]; [by simplify_eq|].
  apply (StronglySorted_lookup _ _ i j a b Hs); [lia|done..].
Qed.


(** ** The entry points *)

(** The scans for the smallest and the largest key. *)
Lemma min_scan (x : list Z) :
  (0 < length x)%nat →
  ∃ m, GTOOLS_MIN x (Z.of_nat (length x)) = Some m ∧ m ∈ x ∧ ∀ h, h ∈ x → m ≤ h.
Proof.
  intros Hlen. unfold GTOOLS_MIN.
  destruct (aget_row x 0) as (x0 & -> & Hx0); [lia|]. obind.
  destruct (for_up_inv
    (λ k m, m ∈ x ∧ ∀ j h, (j < Z.to_nat k)%nat → x !! j = Some h → m ≤ h)
    (λ i m, xi ← aget x i; Some (if decide (m > xi) then xi else m))
    1 (Z.of_nat (length x)) x0) as (m & Hl & Hm & Hall); [lia| | |].
  - split; [by eapply list_elem_of_lookup_2|].
    intros [|j] h ? Hh; [|lia]. change (Z.to_nat 0) with 0%nat in Hx0. by simplify_eq.
  - intros k m ? [Hm Hall]. destruct (aget_row x k) as (xk & Hk & Hxk); [lia|].
    rewrite Hk. obind. eexists. split; [done|]. split.
    + case_decide; [by eapply list_elem_of_lookup_2|done].
    + intros j h ? Hh. destruct (decide (j = Z.to_nat k)) as [->|].
      * simplify_eq. case_decide; lia.
      * pose proof (Hall j h ltac:(lia) Hh). case_decide; lia.
  - exists m. split_and!; [done..|].
    intros h [j Hj]%list_elem_of_lookup_1. eapply Hall; [|done].
    apply lookup_lt_Some in Hj. lia.
Qed.

Lemma max_scan (x : list Z) :
  (0 < length x)%nat →
  ∃ m, GTOOLS_MAX x (Z.of_nat (length x)) = Some m ∧ m ∈ x ∧ ∀ h, h ∈ x → h ≤ m.
Proof.
  intros Hlen. unfold GTOOLS_MAX.
  destruct (aget_row x 0) as (x0 & -> & Hx0); [lia|]. obind.
  destruct (for_up_inv
    (λ k m, m ∈ x ∧ ∀ j h, (j < Z.to_nat k)%nat → x !! j = Some h → h ≤ m)
    (λ i m, xi ← aget x i; Some (if decide (m < xi) then xi else m))
    1 (Z.of_nat (length x)) x0) as (m & Hl & Hm & Hall); [lia| | |].
  - split; [by eapply list_elem_of_lookup_2|].
    intros [|j] h ? Hh; [|lia]. change (Z.to_nat 0) with 0%nat in Hx0. by simplify_eq.
  - intros k m ? [Hm Hall]. destruct (aget_row x k) as (xk & Hk & Hxk); [lia|].
    rewrite Hk. obind. eexists. split; [done|]. split.
    + case_decide; [by eapply list_elem_of_lookup_2|done].
    + intros j h ? Hh. destruct (decide (j = Z.to_nat k)) as [->|].
      * simplify_eq. case_decide; lia.
      * pose proof (Hall j h ltac:(lia) Hh). case_decide; lia.
  - exists m. split_and!; [done..|].
    intros h [j Hj]%list_elem_of_lookup_1. eapply Hall; [|done].
    apply lookup_lt_Some in Hj. lia.
Qed.

Lemma mf_min_scan (x : list Z) N : mf_min x N = GTOOLS_MIN x N.
Proof. reflexivity. Qed.

Lemma mf_max_scan (x : list Z) N : mf_max x N = GTOOLS_MAX x N.
Proof. reflexivity. Qed.

Lemma elem_of_rows_fst hash index a : a ∈ rows hash index → a.1 ∈ hash.
Proof.
  intros [i Hi]%list_elem_of_lookup_1. unfold rows in Hi.
  apply lookup_zip_with_Some in Hi as (h & j & -> & Hh & _).
  by eapply list_elem_of_lookup_2.
Qed.

(** The copy that [gf_sort_hash] makes before it sorts. *)
Lemma sort_hash_copy_loop (hash index : list Z) :
  length hash = length index →
  for_up 0 (Z.of_nat (length hash)) (sort_hash_copy_body hash index)
    (Some (replicate (length hash) 0), Some (replicate (length hash) 0))
  = Some (Some hash, Some index).
Proof.
  intros Hlen.
  destruct (for_up_inv
    (λ k st, ∃ ch ci, st = (Some ch, Some ci) ∧
                      copied id hash k ch ∧ copied id index k ci)
    (sort_hash_copy_body hash index) 0 (Z.of_nat (length hash))
    (Some (replicate (length hash) 0), Some (replicate (length hash) 0)))
    as (st & Hl & ch & ci & -> & Hh & Hi); [lia| | |].
  - do 2 eexists. split; [done|].
    split; apply copied_init; rewrite length_replicate; lia.
  - intros k st ? (ch & ci & -> & Hh & Hi).
    destruct (aget_row hash k) as (h & Hk & _); [lia|].
    destruct (aget_row index k) as (i & Hik & _); [lia|].
    destruct (copied_step _ _ _ _ _ Hh Hk) as (ch' & Eh & Hh').
    destruct (copied_step _ _ _ _ _ Hi Hik) as (ci' & Ei & Hi').
    exists (Some ch', Some ci'). split; [|by eauto].
    unfold id in Eh, Ei. unfold sort_hash_copy_body. obind. rewrite Hk. obind.
    rewrite Eh. obind. rewrite Hik. obind. by rewrite Ei.
  - rewrite Hl. rewrite Hlen in Hi at 1.
    apply copied_final in Hh, Hi. rewrite list_fmap_id in Hh, Hi. by subst.
Qed.

(** [gf_sort_hash] puts the rows in the stable order of their keys,
    unless the keys reach from 0 to [2^64 - 1], where the range wraps. *)
Lemma gf_sort_hash_rows ok (hash index : list Z) :
  (∀ s, ok s = true) →
  length hash = length index → (0 < length hash)%nat → Z.of_nat (length hash) < 2 ^ 32 →
  (∀ h, h ∈ hash → 0 ≤ h < 2 ^ 64) →
  ¬ (0 ∈ hash ∧ 2 ^ 64 - 1 ∈ hash) →
  ∃ out, gf_sort_hash ok hash index (Z.of_nat (length hash)) = Some (0, out.*1, out.*2) ∧
         stable_sort_of (rows hash index) out.
Proof.
  intros Hok Hlen Hpos HN Hkeys Hwrap.
  pose proof (fst_rows hash index Hlen) as Hfst.
  pose proof (snd_rows hash index Hlen) as Hsnd.
  pose proof (length_rows hash index Hlen) as Hrows.
  unfold gf_sort_hash.
  destruct (min_scan hash Hpos) as (min & -> & Hmin & Hminle).
  destruct (max_scan hash Hpos) as (max & -> & Hmax & Hmaxle).
  obind.
  pose proof (Hkeys _ Hmin). pose proof (Hkeys _ Hmax). pose proof (Hminle _ Hmax).
  assert (max - min + 1 < 2 ^ 64) as Hr.
  { destruct (decide (min = 0)) as [->|]; [|lia].
    destruct (decide (max = 2 ^ 64 - 1)) as [->|]; [|lia]. by destruct Hwrap. }
  assert (wrap64 (max - min + 1) = max - min + 1) as ->.
  { unfold wrap64. apply Z.mod_small. lia. }
  case_decide as Hrange.
  - exists (counting_order min max (rows hash index)). split.
    + pose proof (gf_counting_sort_rows ok (rows hash index) min max Hok) as Hc.
      rewrite Hfst, Hsnd, Hrows in Hc. apply Hc; [lia|lia|lia|].
      intros a Ha%elem_of_rows_fst. split; [by apply Hminle|by apply Hmaxle].
    + apply counting_order_stable.
      intros a Ha%elem_of_rows_fst. split; [by apply Hminle|by apply Hmaxle].
  - exists (lsd_sort 16 4 (rows hash index)). split.
    + unfold calloc. rewrite !Hok. rewrite Nat2Z.id.
      rewrite sort_hash_copy_loop by done. obind. cbn [default from_option].
      pose proof (gf_radix_psort16_rows ok (rows hash index) Hok) as Hp.
      pose proof (gf_radix_sort16_rows ok (rows hash index) Hok) as Hs.
      rewrite Hfst, Hsnd, Hrows in Hp, Hs.
      unfold id. rewrite Hp by lia. obind.
      rewrite decide_False by (intros ?; done).
      apply Hs. lia.
    + apply lsd_sort_stable; [lia|].
      intros a Ha%elem_of_rows_fst. apply Hkeys in Ha. simpl. lia.
Qed.

(** * The range summaries *)

(** ** Slices *)

Lemma length_slice {A} (l : list A) a b :
  0 ≤ a → a ≤ b → b ≤ Z.of_nat (length l) → Z.of_nat (length (slice l a b)) = b - a.
Proof. intros ???. unfold slice. rewrite length_take, length_drop. lia. Qed.

Lemma aget_slice {A} (l : list A) a b j :
  0 ≤ a → 0 ≤ j < b - a → aget (slice l a b) j = aget l (a + j).
Proof.
  intros ??. unfold slice, aget. rewrite !decide_True by lia.
  rewrite lookup_take_lt, lookup_drop by lia. f_equal. lia.
Qed.

Lemma elem_of_slice {A} (l : list A) a b x : x ∈ slice l a b → x ∈ l.
Proof.
  unfold slice. intros Hx%subseteq_take.
  apply list_elem_of_lookup_1 in Hx as [i Hi]. rewrite lookup_drop in Hi.
  by eapply list_elem_of_lookup_2.
Qed.

Lemma slice_cons {A} (l : list A) a b x :
  0 ≤ a → a < b → aget l a = Some x → slice l a b = x :: slice l (a + 1) b.
Proof.
  intros Ha Hab Hx. apply aget_Some in Hx as [_ Hx]. unfold slice.
  rewrite (drop_S l x (Z.to_nat a)) by done.
  replace (Z.to_nat (b - a)) with (S (Z.to_nat (b - (a + 1)))) by lia.
  replace (Z.to_nat (a + 1)) with (S (Z.to_nat a)) by lia. done.
Qed.

Lemma slice_empty {A} (l : list A) a b : b ≤ a → slice l a b = [].
Proof. intros ?. unfold slice. by replace (Z.to_nat (b - a)) with 0%nat by lia. Qed.

(** The slice that a selection leaves where it worked. *)
Lemma slice_middle {A} (l s : list A) a b :
  0 ≤ a → a ≤ b → b ≤ Z.of_nat (length l) → Z.of_nat (length s) = b - a →
  slice (take (Z.to_nat a) l ++ s ++ drop (Z.to_nat b) l) a b = s.
Proof.
  intros Ha Hab Hb Hs. unfold slice.
  rewrite drop_app_length' by (rewrite length_take; lia).
  rewrite take_app_length' by lia. done.
Qed.

(** A loop that folds [f] over the entries [v[start .. end)]. *)
Lemma fold_loop {St} (f : St → float → St) (v : list float) start end_ (a : St) :
  0 ≤ start → start ≤ end_ → end_ ≤ Z.of_nat (length v) →
  for_up start end_ (λ i acc, vi ← aget v i; Some (f acc vi)) a
  = Some (foldl f a (slice v start end_)).
Proof.
  intros Hs Hse He. unfold for_up.
  remember (Z.to_nat (end_ - start)) as n eqn:Hn.
  revert start a Hs Hse Hn. induction n as [|n IH]; intros start a Hs Hse Hn.
  - rewrite slice_empty by lia. done.
  - destruct (aget_row v start) as (x & Hx & _); [lia|].
    rewrite (slice_cons v start end_ x) by (done || lia).
    cbn [loop_up foldl]. rewrite Hx. obind. apply IH; lia.
Qed.

(** ** The order of the doubles that are numbers *)

Lemma SFcompare_swap (a b : spec_float) c :
  SFcompare a b = Some c → SFcompare b a = Some (CompOpp c).
Proof.
  unfold SFcompare.
  destruct a as [sa|sa| |sa ma ea], b as [sb|sb| |sb mb eb];
    try destruct sa; try destruct sb; intros [= <-]; try done.
  all: change (Pos.compare_cont Eq mb ma) with (Pos.compare mb ma).
  all: change (Pos.compare_cont Eq ma mb) with (Pos.compare ma mb).
  all: rewrite (Z.compare_antisym ea eb), (Pos.compare_antisym ma mb).
  all: by destruct (ea ?= eb), (ma ?= mb)%positive.
Qed.

Lemma SFcompare_numbers (a b : spec_float) :
  SFeqb a a = true → SFeqb b b = true → ∃ c, SFcompare a b = Some c.
Proof.
  unfold SFeqb, SFcompare.
  destruct a as [sa|sa| |sa ma ea], b as [sb|sb| |sb mb eb]; try done; eauto.
Qed.

(** Of two numbers, one is at most the other. *)
Lemma leb_total (x y : float) :
  (x =? x)%float = true → (y =? y)%float = true →
  (x <=? y)%float = false → (y <=? x)%float = true.
Proof.
  rewrite !FloatAxioms.eqb_spec, !FloatAxioms.leb_spec. intros Hx Hy.
  destruct (SFcompare_numbers _ _ Hx Hy) as [c Hc].
  unfold SFleb. rewrite (SFcompare_swap _ _ _ Hc), Hc. by destruct c.
Qed.

(** ** The order statistics *)

Lemma finsert_perm x l : finsert x l ≡ₚ x :: l.
Proof.
  induction l as [|y l IH]; [done|]. simpl. destruct (x <=? y)%float; [done|].
  rewrite IH. apply Permutation_swap.
Qed.

Lemma fsort_perm l : fsort l ≡ₚ l.
Proof.
  induction l as [|x l IH]; [done|]. unfold fsort in *. simpl.
  by rewrite finsert_perm, IH.
Qed.

Lemma fsort_length l : length (fsort l) = length l.
Proof. by rewrite fsort_perm. Qed.

Lemma numbers_fsort l : numbers l → numbers (fsort l).
Proof. intros Hl x Hx. apply Hl. by rewrite <-(fsort_perm l). Qed.

Lemma finsert_ascending x l :
  (x =? x)%float = true → numbers l → ascending l → ascending (finsert x l).
Proof.
  intros Hx Hl Hs. induction Hs as [|y l Hs IH Hd]; simpl.
  - by repeat constructor.
  - destruct (x <=? y)%float eqn:Hxy.
    + constructor; [by constructor|by constructor].
    + assert ((y <=? x)%float = true) as Hyx.
      { apply leb_total; [done| |done]. apply Hl. by left. }
      constructor.
      * apply IH. intros z Hz. apply Hl. by right.
      * destruct Hd as [|z l Hz]; simpl; [by constructor|].
        destruct (x <=? z)%float; by constructor.
Qed.

Lemma fsort_ascending l : numbers l → ascending (fsort l).
Proof.
  induction l as [|x l IH]; intros Hl; [constructor|].
  unfold fsort in *. simpl. apply finsert_ascending.
  - apply Hl. by left.
  - apply numbers_fsort. intros z Hz. apply Hl. by right.
  - apply IH. intros z Hz. apply Hl. by right.
Qed.

(** Sorting what is in order changes nothing. *)
Lemma fsort_of_ascending l : ascending l → fsort l = l.
Proof.
  intros Hs. induction Hs as [|x l Hs IH Hd]; [done|].
  unfold fsort in *. simpl. rewrite IH.
  destruct Hd as [|y l Hy]; [done|]. simpl. by rewrite Hy.
Qed.

Lemma fsort_idem l : numbers l → fsort (fsort l) = fsort l.
Proof. intros Hl. by apply fsort_of_ascending, fsort_ascending. Qed.

(** ** The reducers of gtools_math.c and the reductions of 4.F *)

Section reducers.
Context (v : list float) (start end_ : Z).
Hypothesis Hstart : 0 ≤ start.
Hypothesis Hend : end_ ≤ Z.of_nat (length v).
Hypothesis Hsize : Z.of_nat (length v) < 2 ^ 64.

Let sl := slice v start end_.


Lemma slice_size : start ≤ end_ → wrap64 (end_ - start) = Z.of_nat (length sl).
Proof.
  intros ?. unfold sl. rewrite length_slice by done.
  unfold wrap64. apply Z.mod_small. lia.
Qed.



Lemma mf_array_dmin_range_reduce :
  start < end_ → mf_array_dmin_range v start end_ = reduce_min sl.
Proof.
  intros ?. unfold mf_array_dmin_range, reduce_min.
  destruct (aget_row v start) as (x & Hx & _); [lia|]. rewrite Hx. obind.
  unfold sl. rewrite (slice_cons v start end_ x) by (done || lia).
  by rewrite (fold_loop (λ m y, if (y <? m)%float then y else m)) by lia.
Qed.

Lemma mf_array_dmax_range_reduce :
  start < end_ → mf_array_dmax_range v start end_ = reduce_max sl.
Proof.
  intros ?. unfold mf_array_dmax_range, reduce_max.
  destruct (aget_row v start) as (x & Hx & _); [lia|]. rewrite Hx. obind.
  unfold sl. rewrite (slice_cons v start end_ x) by (done || lia).
  by rewrite (fold_loop (λ m y, if (m <? y)%float then y else m)) by lia.
Qed.

(** The selection, in terms of the order statistics of the slice. *)
Lemma mf_qselect_range_order k :
  start ≤ end_ →
  mf_qselect_range v start end_ k
  = x ← order_statistic sl k;
    Some (x, take (Z.to_nat start) v ++ fsort sl ++ drop (Z.to_nat end_) v).
Proof. intros ?. unfold mf_qselect_range. by rewrite decide_True by lia. Qed.

End reducers.

(** ** The quantile *)

Lemma size_of_floor_range (f : float) q : size_of_floor f = Some q → 0 ≤ q < 2 ^ 64.
Proof.
  unfold size_of_floor. destruct (Prim2SF f) as [s|s| |s m e]; try done.
  - intros [= <-]. lia.
  - case_decide; [|done]. by intros [= <-].
Qed.


Lemma order_statistic_is_Some (sl : list float) k :
  0 ≤ k < Z.of_nat (length sl) → is_Some (order_statistic sl k).
Proof. intros ?. apply aget_is_Some. by rewrite fsort_length. Qed.

Section quantile.
Context (v : list float) (start end_ : Z) (p : float) (q : Z).
Hypothesis Hstart : 0 ≤ start.
Hypothesis Hlt : start < end_.
Hypothesis Hend : end_ ≤ Z.of_nat (length v).
Hypothesis Hsize : Z.of_nat (length v) < 2 ^ 64.

Let sl := slice v start end_.
Let N := Z.of_nat (length sl).
Let r := (p * double_of_size N / 100)%float.

Hypothesis Hq : size_of_floor r = Some q.

(** One or two values. *)
Lemma mf_array_dquantile_range_small :
  N ≤ 2 → fst <$> mf_array_dquantile_range v start end_ p = reduce_quantile p sl.
Proof.
  intros HN. unfold mf_array_dquantile_range.
  rewrite (slice_size v start end_) by lia. fold sl N r. rewrite Hq. obind.
  assert (N = end_ - start) as HNs by (unfold N, sl; rewrite length_slice; lia).
  assert (∀ j, 0 ≤ j < N → aget v (start + j) = aget sl j) as Hget.
  { intros j ?. unfold sl. rewrite aget_slice by lia. done. }
  pose proof (Hget 0) as H0. replace (start + 0) with start in H0 by lia.
  unfold N in *. destruct sl as [|a [|b [|c sl']]]; simpl in *; [lia| | |lia].
  - rewrite H0 by lia. done.
  - assert (wrap64 (end_ - 1) = start + 1) as ->.
    { unfold wrap64. rewrite Z.mod_small by lia. lia. }
    rewrite H0, (Hget 1) by lia. cbn. by repeat case_match.
Qed.

Hypothesis Hnum : numbers sl.

(** Three values or more: the rule as the code has it. *)
Lemma mf_array_dquantile_range_three :
  3 ≤ N → q ≤ N - 1 →
  fst <$> mf_array_dquantile_range v start end_ p =
    if decide (q = 0) then reduce_min sl
    else
      top ← (if decide (q = N - 1) then reduce_max sl else order_statistic sl q);
      if (double_of_size q =? r)%float then
        y ← order_statistic sl (q - 1); Some ((top + y) / 2)%float
      else Some top.
Proof.
  intros HN HqN. unfold mf_array_dquantile_range.
  rewrite (slice_size v start end_) by lia. fold sl N r. rewrite Hq. obind.
  pose proof (size_of_floor_range _ _ Hq) as Hq0.
  assert (N = end_ - start) as HNs by (unfold N, sl; rewrite length_slice; lia).
  rewrite !decide_False by lia.
  destruct (decide (q = 0)) as [->|Hq1].
  { rewrite (mf_array_dmin_range_reduce v start end_) by lia. fold sl.
    by destruct (reduce_min sl). }
  assert (wrap64 (N - 1) = N - 1) as -> by (unfold wrap64; apply Z.mod_small; lia).
  assert (wrap64 (q - 1) = q - 1) as -> by (unfold wrap64; apply Z.mod_small; lia).
  destruct (order_statistic_is_Some sl (q - 1)) as [y Hy]; [lia|].
  destruct (decide (q = N - 1)) as [HqN1|HqN1].
  - rewrite bool_decide_eq_true_2 by done.
    rewrite (mf_array_dmax_range_reduce v start end_) by lia. fold sl.
    destruct (reduce_max sl) as [m|]; [|done]. obind.
    destruct (double_of_size q =? r)%float; [|done].
    rewrite (mf_qselect_range_order v start end_) by lia. fold sl.
    rewrite Hy. by obind.
  - rewrite bool_decide_eq_false_2 by done.
    rewrite (mf_qselect_range_order v start end_) by lia. fold sl.
    destruct (order_statistic_is_Some sl q) as [x Hx]; [lia|]. rewrite Hx. obind.
    destruct (double_of_size q =? r)%float; [|done].
    set (v' := take (Z.to_nat start) v ++ fsort sl ++ drop (Z.to_nat end_) v).
    assert (Z.of_nat (length v') = Z.of_nat (length v)) as Hlen'.
    { unfold v'. rewrite !length_app, length_take, length_drop, fsort_length.
      fold N. lia. }
    rewrite (mf_qselect_range_order v' start end_) by lia.
    assert (slice v' start end_ = fsort sl) as ->.
    { apply slice_middle; [lia..|]. rewrite fsort_length. fold N. lia. }
    unfold order_statistic at 1. rewrite fsort_idem by done.
    change (aget (fsort sl) (q - 1)) with (order_statistic sl (q - 1)).
    rewrite Hy. by obind.
Qed.


(** At the last rank with [p * N / 100] whole, the code averages the
    maximum with the order statistic below it. *)
Lemma mf_array_dquantile_range_top :
  3 ≤ N → q = N - 1 → (double_of_size q =? r)%float = true →
  fst <$> mf_array_dquantile_range v start end_ p =
    m ← reduce_max sl; y ← order_statistic sl (q - 1); Some ((m + y) / 2)%float.
Proof.
  intros HN HqN Hwhole. rewrite mf_array_dquantile_range_three by lia.
  rewrite decide_False by lia. rewrite decide_True by done. by rewrite Hwhole.
Qed.

End quantile.

(** * The claims of the specification *)

(** ** Sorting *)

Lemma mf_radix_passes_S fuel ok x index N exp shift max nloops loops :
  mf_radix_passes (S fuel) ok x index N exp shift max nloops loops =
    '(rc, x, index) ← mf_radix_sort_index_pass ok x index N exp shift;
    if decide (rc ≠ 0) then Some (rc, x, index) else
    if bool_decide (max > wrap64 (exp * shift)) && bool_decide (nloops < loops)
    then mf_radix_passes fuel ok x index N (wrap64 (exp * shift)) shift max (nloops + 1) loops
    else Some (0, x, index).
Proof. reflexivity. Qed.

(** Neither of the two lowest 16-bit digits tells [2^32] from [0]. *)
Lemma low_passes_identity exp :
  exp = 1 ∨ exp = 65536 →
  bucket_sort (pass_key exp 65536) 65536 [(4294967296, 0); (0, 1)]
    = [(4294967296, 0); (0, 1)].
Proof.
  intros Hexp. apply (bucket_sort_const _ _ _ 0); [lia|].
  intros a Ha.
  repeat (apply elem_of_cons in Ha as [->|Ha]; [by destruct Hexp as [-> | ->]; vm_compute|]).
  by apply elem_of_nil in Ha.
Qed.

(** C1 (the keys come out in non-decreasing order): [mf_radix_sort_index]
    stops its passes as soon as [max > exp] fails, which it does when the
    largest key is exactly a power of the radix.  On the keys [2^32, 0],
    sorted 16 bits at a time and also 8 bits at a time, it returns status
    0 after the passes below bit 32 and leaves the larger key first. *)
Theorem mf_radix_sort_index_leaves_unsorted :
  mf_radix_sort_index all_ok 0 [4294967296; 0] [0; 1] 2 16 false
    = Some (0, [4294967296; 0], [0; 1]) ∧
  mf_radix_sort_index all_ok 0 [4294967296; 0] [0; 1] 2 8 false
    = Some (0, [4294967296; 0], [0; 1]).
Proof.
  split; [|by vm_compute].
  unfold mf_radix_sort_index.
  replace (mf_max [4294967296; 0] 2) with (Some 4294967296) by (by vm_compute).
  replace (mf_min [4294967296; 0] 2) with (Some 0) by (by vm_compute).
  obind. rewrite decide_True by lia. obind.
  replace (for_up_int 0 2 (λ i index, aset index i i) [0; 1]) with (Some [0; 1]) by (by vm_compute).
  obind. rewrite decide_False by (by vm_compute).
  replace (Z.to_nat (64 / 16 - 1 + 1)) with 4%nat by (by vm_compute).
  replace (64 / 16 - 1) with 3 by (by vm_compute).
  replace (2 ^ 16) with 65536 by (by vm_compute).
  change [4294967296; 0] with ([(4294967296, 0); (0, 1)].*1).
  change [0; 1] with ([(4294967296, 0); (0, 1)].*2).
  change 2 with (Z.of_nat (length [(4294967296, 0); (0, 1)])).
  rewrite mf_radix_passes_S.
  rewrite (mf_radix_sort_index_pass_rows [(4294967296, 0); (0, 1)] 1 65536) by (done || cbn; lia).
  obind. rewrite (low_passes_identity 1), decide_False by (by left || (intros ?; done)).
  replace (wrap64 (1 * 65536)) with 65536 by (by vm_compute).
  assert (bool_decide (4294967296 > 65536) && bool_decide (0 < 3) = true) as ->
    by (vm_compute; reflexivity).
  rewrite mf_radix_passes_S.
  rewrite (mf_radix_sort_index_pass_rows [(4294967296, 0); (0, 1)] 65536 65536) by (done || cbn; lia).
  obind. rewrite (low_passes_identity 65536), decide_False by (by right || (intros ?; done)).
  replace (wrap64 (65536 * 65536)) with 4294967296 by (by vm_compute).
  assert (bool_decide (4294967296 > 4294967296) && bool_decide (0 + 1 < 3) = false) as ->
    by (vm_compute; reflexivity).
  reflexivity.
Qed.

Lemma elem_of_concrete (P : Z → Prop) (l : list Z) :
  Forall P l → ∀ h, h ∈ l → P h.
Proof. intros H h. by apply Forall_forall. Qed.




(** A list that is in order is its own stable arrangement. *)
Lemma stable_sort_of_sorted (src : list (Z * Z)) :
  sorted_by fst src → stable_sort_of src src.
Proof. by split. Qed.

(** C7, as stated, fails: on the keys [0, 2^64 - 1] the range
    [max - min + 1] wraps to 0, the counting sort indexes past its one
    counter, and the radix sort returns the sorted arrays. *)
Lemma counting_and_radix_disagree :
  gf_counting_sort all_ok [0; 18446744073709551615] [0; 1] 2 0 18446744073709551615 = None ∧
  gf_radix_sort16 all_ok [0; 18446744073709551615] [0; 1] 2
    = Some (0, [0; 18446744073709551615], [0; 1]).
Proof.
  split; [vm_compute; reflexivity|].
  change [0; 18446744073709551615] with ([(0, 0); (18446744073709551615, 1)].*1).
  change [0; 1] with ([(0, 0); (18446744073709551615, 1)].*2).
  change 2 with (Z.of_nat (length [(0, 0); (18446744073709551615, 1)])).
  rewrite gf_radix_sort16_rows; [|reflexivity|cbn; lia].
  rewrite (stable_sort_unique [(0, 0); (18446744073709551615, 1)]
             (lsd_sort 16 4 [(0, 0); (18446744073709551615, 1)])
             [(0, 0); (18446744073709551615, 1)]); [done| |].
  - apply lsd_sort_stable; [lia|]. apply Forall_forall. repeat constructor; simpl; lia.
  - apply stable_sort_of_sorted. repeat constructor; simpl; lia.
Qed.

(** C7, amended: when the keys lie in [min .. max], neither [max - min + 1]
    nor the size [max - min + 2] of the counter array wraps, there are
    fewer than [2^32] rows and the allocations succeed, the counting sort,
    the 16-bit radix sort and the radix sort with parallel counts return
    the same keys and the same index, with status 0. *)
Theorem sorts_agree ok (H I : list Z) min max :
  (∀ s, ok s = true) → length H = length I → Z.of_nat (length H) < 2 ^ 32 →
  0 ≤ min → min ≤ max → max < 2 ^ 64 → max - min + 2 < 2 ^ 64 →
  (∀ h, h ∈ H → min ≤ h ≤ max) →
  ∃ H' I',
    gf_counting_sort ok H I (Z.of_nat (length H)) min max = Some (0, H', I') ∧
    gf_radix_sort16 ok H I (Z.of_nat (length H)) = Some (0, H', I') ∧
    gf_radix_psort16 ok H I (Z.of_nat (length H)) = Some (0, H', I').
Proof.
  intros Hok Hlen HN ???? Hb.
  pose proof (length_rows H I Hlen) as Hrows.
  assert (∀ a, a ∈ rows H I → min ≤ a.1 ≤ max) as Hb'.
  { intros a Ha%elem_of_rows_fst. by apply Hb. }
  pose proof (gf_counting_sort_rows ok (rows H I) min max Hok) as Hc.
  pose proof (gf_radix_sort16_rows ok (rows H I) Hok) as Hr.
  pose proof (gf_radix_psort16_rows ok (rows H I) Hok) as Hp.
  rewrite fst_rows, snd_rows, Hrows in Hc, Hr, Hp by done.
  assert (counting_order min max (rows H I) = lsd_sort 16 4 (rows H I)) as Heq.
  { apply (stable_sort_unique (rows H I)).
    - by apply counting_order_stable.
    - apply lsd_sort_stable; [lia|]. intros a Ha%Hb'. simpl. lia. }
  exists (lsd_sort 16 4 (rows H I)).*1, (lsd_sort 16 4 (rows H I)).*2.
  split_and!; [|by apply Hr|by apply Hp].
  rewrite <-Heq. apply Hc; [lia|done..].
Qed.

Lemma sorts_agree_witness :
  ∃ H' I',
    gf_counting_sort all_ok [3; 1; 4; 1; 5] [0; 1; 2; 3; 4] 5 1 5 = Some (0, H', I') ∧
    gf_radix_sort16 all_ok [3; 1; 4; 1; 5] [0; 1; 2; 3; 4] 5 = Some (0, H', I') ∧
    gf_radix_psort16 all_ok [3; 1; 4; 1; 5] [0; 1; 2; 3; 4] 5 = Some (0, H', I').
Proof.
  apply (sorts_agree all_ok [3; 1; 4; 1; 5] [0; 1; 2; 3; 4] 1 5).
  - reflexivity.
  - reflexivity.
  - cbn. lia.
  - lia.
  - lia.
  - lia.
  - lia.
  - apply elem_of_concrete. repeat constructor; lia.
Defined.

(** C8 (a failed allocation gives a non-zero status): [gf_radix_sort16]
    tests [hcopy] and [ixcopy] only.  When the allocation of [counts]
    fails, the routine stores through the NULL pointer instead of
    returning a status. *)
Theorem gf_radix_sort16_unchecked_allocation :
  gf_radix_sort16 (λ s, negb (String.eqb s "gf_radix_sort16.counts")) [2; 1] [0; 1] 2 = None ∧
  gf_radix_sort16 (λ s, negb (String.eqb s "gf_radix_sort16.counts->c4")) [2; 1] [0; 1] 2 = None.
Proof. split; reflexivity. Qed.

(** C9 (the radix path of [gf_sort_hash]): when the keys span [2^24]
    values or more and the allocations succeed, [gf_sort_hash] returns
    what [gf_radix_sort16] returns on the caller's arrays.  The sort with
    parallel counts runs on the two copies, and only its status is read. *)
Theorem gf_sort_hash_radix_path ok (hash index : list Z) min max :
  (∀ s, ok s = true) →
  length hash = length index → Z.of_nat (length hash) < 2 ^ 32 →
  GTOOLS_MIN hash (Z.of_nat (length hash)) = Some min →
  GTOOLS_MAX hash (Z.of_nat (length hash)) = Some max →
  2 ^ 24 ≤ wrap64 (max - min + 1) →
  gf_sort_hash ok hash index (Z.of_nat (length hash))
  = gf_radix_sort16 ok hash index (Z.of_nat (length hash)).
Proof.
  intros Hok Hlen HN Hmin Hmax Hrange.
  unfold gf_sort_hash. rewrite Hmin, Hmax. obind.
  rewrite decide_False by lia.
  unfold calloc at 1 2. rewrite !Hok. rewrite Nat2Z.id.
  rewrite sort_hash_copy_loop by done. obind. cbn [default from_option].
  pose proof (gf_radix_psort16_rows ok (rows hash index) Hok) as Hp.
  rewrite fst_rows, snd_rows, length_rows in Hp by done.
  unfold id. rewrite Hp by lia. obind.
  by rewrite decide_False by (intros ?; done).
Qed.

Lemma gf_sort_hash_radix_path_witness :
  gf_sort_hash all_ok [1099511627776; 0; 7] [0; 1; 2] (Z.of_nat (length [1099511627776; 0; 7]))
  = gf_radix_sort16 all_ok [1099511627776; 0; 7] [0; 1; 2] (Z.of_nat (length [1099511627776; 0; 7])).
Proof.
  apply (gf_sort_hash_radix_path all_ok [1099511627776; 0; 7] [0; 1; 2] 0 1099511627776).
  - reflexivity.
  - reflexivity.
  - vm_compute. reflexivity.
  - vm_compute. reflexivity.
  - vm_compute. reflexivity.
  - vm_compute. discriminate.
Defined.

(** [for (i = 0; i < N; i++) index[i] = i;] *)
Lemma index_init_loop (index : list Z) :
  for_up 0 (Z.of_nat (length index)) (λ i index, aset index i i) index
  = Some (seqZ 0 (Z.of_nat (length index))).
Proof.
  set (N := Z.of_nat (length index)).
  destruct (for_up_inv (λ k arr, copied id (seqZ 0 N) k arr)
    (λ i index, aset index i i) 0 N index) as (arr & -> & Harr); [lia| | |].
  - apply copied_init. rewrite length_seqZ. lia.
  - intros k arr ? Hc. apply (copied_step id (seqZ 0 N) k arr k Hc).
    apply aget_Some. split; [lia|]. apply lookup_seqZ. lia.
  - replace N with (Z.of_nat (length (seqZ 0 N))) in Harr at 2
      by (rewrite length_seqZ; lia).
    apply copied_final in Harr. by rewrite list_fmap_id in Harr; subst.
Qed.

(** The same loop as the code counts it, with [int i]. *)
Lemma index_init_loop_int (index : list Z) :
  Z.of_nat (length index) < 2 ^ 31 →
  for_up_int 0 (Z.of_nat (length index)) (λ i index, aset index i i) index
  = Some (seqZ 0 (Z.of_nat (length index))).
Proof. intros HN. rewrite for_up_int_eq by lia. apply index_init_loop. Qed.

(** C10 (the incoming index is not read): [mf_radix_sort_index] fills
    the index with 0, 1, ..., N - 1 before it sorts, so two runs on the
    same keys whose index arrays both have the N entries the routine
    writes return the same status, the same keys and the same index. *)
Theorem mf_radix_sort_index_ignores_index ok logq (x I1 I2 : list Z) N dshift raw :
  Z.of_nat (length I1) = N → Z.of_nat (length I2) = N →
  mf_radix_sort_index ok logq x I1 N dshift raw
  = mf_radix_sort_index ok logq x I2 N dshift raw.
Proof.
  intros H1 H2. unfold mf_radix_sort_index.
  destruct (decide (N < 2 ^ 31)) as [HN|HN].
  - assert (∀ I, Z.of_nat (length I) = N →
              for_up_int 0 N (λ i index, aset index i i) I = Some (seqZ 0 N)) as Hinit.
    { intros I HI. pose proof (index_init_loop_int I) as Hi.
      rewrite HI in Hi. apply Hi, HN. }
    by rewrite (Hinit I1 H1), (Hinit I2 H2).
  - by rewrite !(for_up_int_overflow _ 0 N) by lia.
Qed.

Lemma mf_radix_sort_index_ignores_index_witness :
  mf_radix_sort_index all_ok 0 [3; 1; 2] [9; 9; 9] 3 8 false
  = mf_radix_sort_index all_ok 0 [3; 1; 2] [5; 0; 7] 3 8 false.
Proof.
  apply (mf_radix_sort_index_ignores_index all_ok 0 [3; 1; 2] [9; 9; 9] [5; 0; 7] 3 8 false).
  - reflexivity.
  - reflexivity.
Defined.

(** ** The panel builders *)

(** C3 (collision refinement): the scan of [mf_panelsetup128] looks at
    the second halves of a block when the first half changes, so the block
    that ends the array is never looked at.  On [H1 = [7,7,7]],
    [H2 = [2,1,2]] it returns [info = [0,3]] and [J = 1], leaves the index
    [[0,1,2]] as it was and counts no collision, whatever the radix. *)
Theorem mf_panelsetup128_last_block_unrefined RADIX_SHIFT :
  mf_panelsetup128 all_ok RADIX_SHIFT [7; 7; 7] [2; 1; 2] [0; 1; 2] 3
  = Some (Some [0; 3], 1, [0; 1; 2], 0).
Proof. reflexivity. Qed.

(** C4 (no rows, one row): neither builder tests [N].  Both read
    [h1[0]] before anything else, and the [do ... while] reads [h1[1]] in
    its first turn, before [i < N] is looked at.  So on every array of
    fewer than two rows, the singleton [[42]] included, both builders
    read past the end of [h1] once [info_largest] is allocated; no [info]
    and no [J] comes back. *)
Theorem panel_builders_read_past_the_end ok RADIX_SHIFT (h1 h2 index : list Z) N :
  Z.of_nat (length h1) = N → N ≤ 1 →
  ok "mf_panelsetup.info_largest" = true →
  ok "mf_panelsetup128.info_largest" = true →
  mf_panelsetup ok h1 N = None ∧
  mf_panelsetup128 ok RADIX_SHIFT h1 h2 index N = None.
Proof.
  intros Hlen HN Hok Hok128.
  unfold mf_panelsetup, mf_panelsetup128, calloc. rewrite Hok, Hok128.
  destruct h1 as [|el [|b h1]]; [done| |simpl in Hlen; lia].
  simpl in Hlen. subst N. split; reflexivity.
Qed.

Lemma panel_builders_read_past_the_end_witness :
  mf_panelsetup all_ok [42] 1 = None ∧
  mf_panelsetup128 all_ok 16 [42] [7] [0] 1 = None.
Proof.
  apply (panel_builders_read_past_the_end all_ok 16 [42] [7] [0] 1); reflexivity.
Defined.

(** ** The summaries *)

(** The values 1, 2, 3, 4 are numbers. *)
Lemma numbers_one_to_four : numbers [1; 2; 3; 4]%float.
Proof.
  intros x Hx. repeat (apply elem_of_cons in Hx as [->|Hx]; [reflexivity|]).
  by apply elem_of_nil in Hx.
Qed.

(** C5, as stated, fails: for [V = [1,2,3,4]] the rank [25 * 4 / 100] is
    the whole number 1 and [75 * 4 / 100] is 3, so both quartiles are the
    mean of two neighbours, 1.5 and 3.5, not 1 and 3; and at the rank
    [q = N - 1 = 3] the result 3.5 is not the maximum, which is 4. *)
Lemma quartiles_are_averaged :
  fst <$> mf_array_dquantile_range [1; 2; 3; 4]%float 0 4 25 = Some 1.5%float ∧
  fst <$> mf_array_dquantile_range [1; 2; 3; 4]%float 0 4 75 = Some 3.5%float ∧
  size_of_floor (75 * double_of_size 4 / 100)%float = Some (4 - 1) ∧
  mf_array_dmax_range [1; 2; 3; 4]%float 0 4 = Some 4%float.
Proof. split_and!; vm_compute; reflexivity. Qed.

(** C5, amended.  For [V = [1,2,3,4]] over the full range
    [mf_array_dquantile_range] returns 2.5 at 50, 1.5 at 25 and 3.5 at 75,
    and [mf_array_diqr_range] returns 2.  In general, on a slice of [N]
    values that are numbers, with the rank [q = floor(p * N / 100)]: for
    [N ≤ 2] the result is that of section 4.F (the value itself; of two
    values the larger, the smaller or their mean as [p] is above, below or
    at 50); for [N ≥ 3], [q = 0] returns the minimum, and a rank
    [1 ≤ q ≤ N - 1] takes the [q]th order statistic, as the maximum when
    [q = N - 1], and averages it with the [(q - 1)]th order statistic
    exactly when [p * N / 100] is a whole number. *)
Theorem quantile_rule :
  (fst <$> mf_array_dquantile_range [1; 2; 3; 4]%float 0 4 50 = Some 2.5%float ∧
   fst <$> mf_array_dquantile_range [1; 2; 3; 4]%float 0 4 25 = Some 1.5%float ∧
   fst <$> mf_array_dquantile_range [1; 2; 3; 4]%float 0 4 75 = Some 3.5%float ∧
   fst <$> mf_array_diqr_range [1; 2; 3; 4]%float 0 4 = Some 2%float) ∧
  ∀ (v : list float) (start end_ : Z) (p : float) (q : Z),
    0 ≤ start → start < end_ → end_ ≤ Z.of_nat (length v) →
    Z.of_nat (length v) < 2 ^ 64 →
    let sl := slice v start end_ in
    let N := Z.of_nat (length sl) in
    let r := (p * double_of_size N / 100)%float in
    size_of_floor r = Some q → numbers sl →
    (N ≤ 2 → fst <$> mf_array_dquantile_range v start end_ p = reduce_quantile p sl) ∧
    (3 ≤ N → q = 0 → fst <$> mf_array_dquantile_range v start end_ p = reduce_min sl) ∧
    (3 ≤ N → 1 ≤ q ≤ N - 1 →
       fst <$> mf_array_dquantile_range v start end_ p =
         top ← (if decide (q = N - 1) then reduce_max sl else order_statistic sl q);
         if (double_of_size q =? r)%float then
           below ← order_statistic sl (q - 1); Some ((top + below) / 2)%float
         else Some top).
Proof.
  split; [split_and!; vm_compute; reflexivity|].
  intros v start end_ p q Hs Hlt He Hsize sl N r Hq Hnum. subst r N sl. split_and!.
  - intros HN. by apply (mf_array_dquantile_range_small v start end_ p q).
  - intros HN ->.
    rewrite (mf_array_dquantile_range_three v start end_ p 0 Hs Hlt He Hsize Hq Hnum HN)
      by lia.
    by rewrite decide_True by done.
  - intros HN Hq1.
    rewrite (mf_array_dquantile_range_three v start end_ p q Hs Hlt He Hsize Hq Hnum HN)
      by lia.
    by rewrite decide_False by lia.
Qed.

Lemma quantile_rule_witness :
  fst <$> mf_array_dquantile_range [1; 2; 3; 4]%float 0 4 75 =
    top ← (if decide (3 = Z.of_nat (length (slice [1; 2; 3; 4]%float 0 4)) - 1)
           then reduce_max (slice [1; 2; 3; 4]%float 0 4)
           else order_statistic (slice [1; 2; 3; 4]%float 0 4) 3);
    if (double_of_size 3 =?
        75 * double_of_size (Z.of_nat (length (slice [1; 2; 3; 4]%float 0 4))) / 100)%float
    then below ← order_statistic (slice [1; 2; 3; 4]%float 0 4) (3 - 1);
         Some ((top + below) / 2)%float
    else Some top.
Proof.
  apply (proj2 quantile_rule [1; 2; 3; 4]%float 0 4 75%float 3).
  - lia.
  - lia.
  - simpl. lia.
  - simpl. lia.
  - vm_compute. reflexivity.
  - apply numbers_one_to_four.
  - simpl. lia.
  - simpl. lia.
Defined.






(** * Further properties of the sorts *)

Lemma sorted_by_fst_keys (out : list (Z * Z)) :
  sorted_by fst out → StronglySorted Z.le (out.*1).
Proof. intros Hs. eapply (StronglySorted_fmap fst); [|exact Hs]. done. Qed.

Lemma seqZ_total (n p : nat) : (p < n)%nat → seqZ 0 (Z.of_nat n) !!! p = Z.of_nat p.
Proof.
  intros Hp. apply list_lookup_total_correct. apply lookup_seqZ. lia.
Qed.

(** The reading of a stable rearrangement of the identity index. *)
Lemma sorted_by_index_of_arrays (H H' I' : list Z) :
  StronglySorted Z.le H' →
  stable_arrays H (seqZ 0 (Z.of_nat (length H))) H' I' →
  sorted_by_index H H' I'.
Proof.
  intros Hs (perm & Hperm & -> & -> & Hst).
  assert (∀ p, p ∈ perm → (p < length H)%nat) as Hlt.
  { intros p Hp. rewrite Hperm in Hp. apply elem_of_seq in Hp. lia. }
  assert (NoDup perm) as Hnd by (rewrite Hperm; apply NoDup_seq).
  assert (((λ p, seqZ 0 (Z.of_nat (length H)) !!! p) <$> perm) = Z.of_nat <$> perm) as HI.
  { apply list_fmap_ext. intros k p Hp. apply seqZ_total, Hlt.
    by eapply list_elem_of_lookup_2. }
  rewrite HI. split_and!.
  - done.
  - rewrite Hperm. unfold seqZ. rewrite Nat2Z.id.
    assert (Z.of_nat <$> seq 0 (length H) = (λ i, Z.of_nat i + 0) <$> seq 0 (length H)) as ->;
      [|done].
    apply list_fmap_ext. intros; lia.
  - intros k i Hi. rewrite list_lookup_fmap in Hi. rewrite list_lookup_fmap.
    destruct (perm !! k) as [p|] eqn:Hp; simplify_eq/=. rewrite Nat2Z.id.
    symmetry. apply list_lookup_lookup_total_lt, Hlt. by eapply list_elem_of_lookup_2.
  - intros k1 k2 i1 i2 Hk H1 H2 Heq. rewrite list_lookup_fmap in H1, H2.
    rewrite !list_lookup_fmap in Heq.
    destruct (perm !! k1) as [p|] eqn:Hp; simplify_eq/=.
    destruct (perm !! k2) as [q|] eqn:Hq; simplify_eq/=.
    destruct (Nat.lt_trichotomy p q) as [?|[->|Hqp]]; [lia| |].
    + pose proof (NoDup_lookup _ _ _ _ Hnd Hp Hq). lia.
    + destruct (Hst q p) as (i & j & Hij & Hi & Hj).
      { split; [done|]. apply Hlt. by eapply list_elem_of_lookup_2. }
      { done. }
      pose proof (NoDup_lookup _ _ _ _ Hnd Hi Hq).
      pose proof (NoDup_lookup _ _ _ _ Hnd Hj Hp). lia.
Qed.

Lemma sorted_rows (H I : list Z) :
  length H = length I → StronglySorted Z.le H → sorted_by fst (rows H I).
Proof.
  intros Hlen Hs. revert I Hlen.
  induction Hs as [|h H Hs IH Hh]; intros [|i I] Hlen; simplify_eq/=; constructor.
  - by apply IH.
  - apply Forall_forall. intros b Hb%elem_of_rows_fst.
    rewrite Forall_forall in Hh. by apply Hh.
Qed.

(** A loop stops with a fault when one of its turns faults in every state
    that the turns before it can leave. *)
Lemma for_up_fault {St} (Inv : St → Prop) (body : Z → St → option St) lo hi s k :
  lo ≤ k < hi → Inv s →
  (∀ j s s', lo ≤ j < k → Inv s → body j s = Some s' → Inv s') →
  (∀ s, Inv s → body k s = None) →
  for_up lo hi body s = None.
Proof.
  intros Hk Hs Hstep Hfault. unfold for_up.
  assert (∃ n, Z.to_nat (hi - lo) = S n ∧ k < lo + Z.of_nat (S n)) as (n & -> & Hn).
  { exists (Nat.pred (Z.to_nat (hi - lo))). lia. }
  revert lo s Hk Hs Hstep Hn. induction n as [|n IH]; intros lo s Hk Hs Hstep Hn.
  - assert (k = lo) as -> by lia. simpl. by rewrite Hfault.
  - cbn [loop_up]. destruct (decide (k = lo)) as [->|Hne].
    + by rewrite Hfault.
    + destruct (body lo s) as [s1|] eqn:Hb; [|done]. cbn [mbind option_bind].
      apply IH; [lia| |intros j s2 s3 ?; apply Hstep; lia|lia].
      eapply Hstep; [|done..]. lia.
Qed.

(** X1.  [gf_sort_hash] sorts: status 0, the keys in non-decreasing order,
    keys and index rearranged by one permutation that keeps rows of equal
    key in their order; for non-empty arrays of fewer than [2^32] rows
    whose keys do not reach from 0 to [2^64 - 1]. *)
Theorem gf_sort_hash_sorts ok (hash index : list Z) :
  (∀ s, ok s = true) →
  length hash = length index → (0 < length hash)%nat → Z.of_nat (length hash) < 2 ^ 32 →
  (∀ h, h ∈ hash → 0 ≤ h < 2 ^ 64) →
  ¬ (0 ∈ hash ∧ 2 ^ 64 - 1 ∈ hash) →
  ∃ H' I', gf_sort_hash ok hash index (Z.of_nat (length hash)) = Some (0, H', I') ∧
           StronglySorted Z.le H' ∧ stable_arrays hash index H' I'.
Proof.
  intros Hok Hlen Hpos HN Hkeys Hwrap.
  destruct (gf_sort_hash_rows ok hash index Hok Hlen Hpos HN Hkeys Hwrap) as (out & Hr & Hst).
  exists (out.*1), (out.*2). split_and!; [done| |by apply stable_arrays_of_rows].
  apply sorted_by_fst_keys, Hst.
Qed.

Lemma gf_sort_hash_sorts_witness :
  ∃ H' I', gf_sort_hash all_ok [3; 1; 4; 1; 5] [0; 1; 2; 3; 4]
             (Z.of_nat (length [3; 1; 4; 1; 5])) = Some (0, H', I') ∧
           StronglySorted Z.le H' ∧ stable_arrays [3; 1; 4; 1; 5] [0; 1; 2; 3; 4] H' I'.
Proof.
  apply (gf_sort_hash_sorts all_ok [3; 1; 4; 1; 5] [0; 1; 2; 3; 4]).
  - reflexivity.
  - reflexivity.
  - simpl. lia.
  - simpl. lia.
  - apply elem_of_concrete. repeat constructor; lia.
  - intros [H0 _].
    apply (elem_of_concrete (λ h, 1 ≤ h) [3; 1; 4; 1; 5]) in H0; [lia|repeat constructor; lia].
Defined.

(** X2.  Given the index 0, 1, ..., N - 1, [gf_sort_hash] returns the
    sorting permutation: the index comes back as a rearrangement of
    0 .. N - 1, output row [k] is input row [I'[k]], and equal keys are
    listed by increasing input position. *)
Theorem gf_sort_hash_index ok (hash : list Z) :
  (∀ s, ok s = true) →
  (0 < length hash)%nat → Z.of_nat (length hash) < 2 ^ 32 →
  (∀ h, h ∈ hash → 0 ≤ h < 2 ^ 64) →
  ¬ (0 ∈ hash ∧ 2 ^ 64 - 1 ∈ hash) →
  ∃ H' I', gf_sort_hash ok hash (seqZ 0 (Z.of_nat (length hash))) (Z.of_nat (length hash))
             = Some (0, H', I') ∧
           sorted_by_index hash H' I'.
Proof.
  intros Hok Hpos HN Hkeys Hwrap.
  assert (length hash = length (seqZ 0 (Z.of_nat (length hash)))) as Hlen.
  { rewrite length_seqZ. lia. }
  destruct (gf_sort_hash_rows ok hash _ Hok Hlen Hpos HN Hkeys Hwrap) as (out & Hr & Hst).
  exists (out.*1), (out.*2). split; [done|].
  apply sorted_by_index_of_arrays; [apply sorted_by_fst_keys, Hst|].
  by apply stable_arrays_of_rows.
Qed.

Lemma gf_sort_hash_index_witness :
  ∃ H' I', gf_sort_hash all_ok [3; 1; 4; 1; 5] (seqZ 0 (Z.of_nat (length [3; 1; 4; 1; 5])))
             (Z.of_nat (length [3; 1; 4; 1; 5])) = Some (0, H', I') ∧
           sorted_by_index [3; 1; 4; 1; 5] H' I'.
Proof.
  apply (gf_sort_hash_index all_ok [3; 1; 4; 1; 5]).
  - reflexivity.
  - simpl. lia.
  - simpl. lia.
  - apply elem_of_concrete. repeat constructor; lia.
  - intros [H0 _].
    apply (elem_of_concrete (λ h, 1 ≤ h) [3; 1; 4; 1; 5]) in H0; [lia|repeat constructor; lia].
Defined.

(** The counting-sort path of [mf_radix_sort_index]. *)
Lemma mf_radix_sort_index_counting ok logq (x index : list Z) dshift raw :
  (∀ s, ok s = true) →
  length index = length x → (0 < length x)%nat → Z.of_nat (length x) < 2 ^ 31 →
  (∀ h, h ∈ x → 0 ≤ h < 2 ^ 64) →
  (∀ h h', h ∈ x → h' ∈ x → h' - h + 1 < 2 ^ 24) →
  (raw = false → 0 < dshift < 64) →
  ∃ out, mf_radix_sort_index ok logq x index (Z.of_nat (length x)) dshift raw
           = Some (0, out.*1, out.*2) ∧
         stable_sort_of (rows x (seqZ 0 (Z.of_nat (length x)))) out.
Proof.
  intros Hok Hlen Hpos HN Hkeys Hnarrow Hshift.
  unfold mf_radix_sort_index. rewrite mf_max_scan, mf_min_scan.
  destruct (max_scan x Hpos) as (max & -> & Hmax & Hmaxle).
  destruct (min_scan x Hpos) as (min & -> & Hmin & Hminle).
  obind.
  pose proof (Hkeys _ Hmin). pose proof (Hkeys _ Hmax). pose proof (Hminle _ Hmax).
  pose proof (Hnarrow _ _ Hmin Hmax).
  assert (wrap64 (max - min + 1) = max - min + 1) as ->.
  { unfold wrap64. apply Z.mod_small. lia. }
  assert (∃ sl, (if raw then Some (dshift, logq)
                 else if decide (0 < dshift < 64) then Some (2 ^ dshift, 64 / dshift - 1)
                      else None) = Some sl) as [[shift loops] ->].
  { destruct raw; [by eexists|]. rewrite decide_True by auto. by eexists. }
  obind.
  assert (for_up_int 0 (Z.of_nat (length x)) (λ i index, aset index i i) index
          = Some (seqZ 0 (Z.of_nat (length x)))) as ->.
  { rewrite <-Hlen. apply index_init_loop_int. by rewrite Hlen. }
  obind. rewrite decide_True by lia.
  set (N := Z.of_nat (length x)) in *.
  assert (length x = length (seqZ 0 N)) as Hlen'.
  { rewrite length_seqZ. unfold N. lia. }
  pose proof (mf_counting_sort_index_rows ok (rows x (seqZ 0 N)) min max Hok) as Hc.
  rewrite fst_rows, snd_rows, length_rows in Hc by done.
  fold N in Hc. rewrite Hc; [|done|lia|lia|].
  - obind. eexists. split; [done|].
    apply counting_order_stable. intros a Ha%elem_of_rows_fst.
    split; [by apply Hminle|by apply Hmaxle].
  - intros a Ha%elem_of_rows_fst. split; [by apply Hminle|by apply Hmaxle].
Qed.



(** X4.  When the keys reach from 0 to [2^64 - 1] the range
    [max - min + 1] of [gf_sort_hash] wraps to 0: the counting sort is
    taken with a single counter, and the row with key 0 counts in
    [count[1]], past its end. *)
Theorem gf_sort_hash_range_wraps ok (hash index : list Z) :
  (∀ s, ok s = true) →
  (∀ h, h ∈ hash → 0 ≤ h < 2 ^ 64) →
  0 ∈ hash → 2 ^ 64 - 1 ∈ hash →
  gf_sort_hash ok hash index (Z.of_nat (length hash)) = None.
Proof.
  intros Hok Hkeys H0 H1.
  assert (0 < length hash)%nat as Hpos.
  { destruct hash; [by apply elem_of_nil in H0|simpl; lia]. }
  unfold gf_sort_hash.
  destruct (min_scan hash Hpos) as (min & -> & Hmin & Hminle).
  destruct (max_scan hash Hpos) as (max & -> & Hmax & Hmaxle).
  obind.
  assert (min = 0) as -> by (pose proof (Hminle _ H0); pose proof (Hkeys _ Hmin); lia).
  assert (max = 2 ^ 64 - 1) as ->
    by (pose proof (Hmaxle _ H1); pose proof (Hkeys _ Hmax); lia).
  assert (wrap64 (2 ^ 64 - 1 - 0 + 1) = 0) as -> by reflexivity.
  rewrite decide_True by lia.
  unfold gf_counting_sort, calloc. rewrite !Hok.
  assert (wrap64 (2 ^ 64 - 1 - 0 + 1) = 0) as -> by reflexivity.
  cbv beta iota zeta. unfold counting_loops.
  assert (for_up 0 (wrap64 (0 + 1)) zero_body (replicate (Z.to_nat (wrap64 (0 + 1))) 0)
          = Some [0]) as -> by reflexivity.
  obind.
  apply list_elem_of_lookup_1 in H0 as [k Hk].
  rewrite (for_up_fault (λ st : list Z * list Z * list Z, length st.2 = 1%nat)
             _ 0 (Z.of_nat (length hash)) _ (Z.of_nat k)); [done| |done| |].
  - apply lookup_lt_Some in Hk. lia.
  - intros j [[xc ic] ct] s' _ Hct Hb; simpl in *. unfold cs_count_body in Hb.
    destruct (aget hash j) as [xj|]; simpl in Hb; [|done].
    destruct (aset xc j _) as [xc'|]; simpl in Hb; [|done].
    unfold bump in Hb.
    destruct (aget ct _) as [c|]; simpl in Hb; [|done].
    destruct (aset ct _ _) as [ct'|] eqn:Hset; simpl in Hb; [|done].
    destruct (aget index j) as [ij|]; simpl in Hb; [|done].
    destruct (aset ic j ij) as [ic'|]; simpl in Hb; [|done].
    simplify_eq. simpl. apply aset_inv in Hset as [_ ->]. by rewrite length_insert.
  - intros [[xc ic] ct] Hct; simpl in *. unfold cs_count_body.
    assert (aget hash (Z.of_nat k) = Some 0) as ->.
    { apply aget_Some. split; [lia|]. by rewrite Nat2Z.id. }
    obind. assert (wrap64 (0 + 1 - 0) = 1) as -> by reflexivity.
    assert (bump c_uint64 ct 1 = None) as Hbump.
    { unfold bump. rewrite aget_None; [reflexivity|]. rewrite Hct. lia. }
    destruct (aset xc (Z.of_nat k) 1) as [xc'|]; cbn [mbind option_bind]; [|reflexivity].
    by rewrite Hbump.
Qed.

Lemma gf_sort_hash_range_wraps_witness :
  gf_sort_hash all_ok [7; 18446744073709551615; 0] [0; 1; 2]
    (Z.of_nat (length [7; 18446744073709551615; 0])) = None.
Proof.
  apply (gf_sort_hash_range_wraps all_ok [7; 18446744073709551615; 0] [0; 1; 2]).
  - reflexivity.
  - apply elem_of_concrete. repeat constructor; lia.
  - repeat constructor.
  - repeat constructor.
Defined.

(** X5.  The 8-bit and the 16-bit radix sort return the same keys and the
    same index. *)
Theorem radix_sorts_agree ok (H I : list Z) :
  (∀ s, ok s = true) → length H = length I → Z.of_nat (length H) < 2 ^ 32 →
  (∀ h, h ∈ H → 0 ≤ h < 2 ^ 64) →
  ∃ H' I', gf_radix_sort8 ok H I (Z.of_nat (length H)) = Some (0, H', I') ∧
           gf_radix_sort16 ok H I (Z.of_nat (length H)) = Some (0, H', I').
Proof.
  intros Hok Hlen HN Hkeys.
  pose proof (gf_radix_sort8_rows ok (rows H I) Hok) as H8.
  pose proof (gf_radix_sort16_rows ok (rows H I) Hok) as H16.
  rewrite fst_rows, snd_rows, length_rows in H8, H16 by done.
  assert (lsd_sort 8 8 (rows H I) = lsd_sort 16 4 (rows H I)) as Heq.
  { apply (stable_sort_unique (rows H I)).
    - apply lsd_sort_stable; [lia|]. intros a Ha%elem_of_rows_fst%Hkeys. simpl. lia.
    - apply lsd_sort_stable; [lia|]. intros a Ha%elem_of_rows_fst%Hkeys. simpl. lia. }
  eexists _, _. split; [by apply H8|]. rewrite Heq. by apply H16.
Qed.

Lemma radix_sorts_agree_witness :
  ∃ H' I', gf_radix_sort8 all_ok [3; 1; 4; 1; 5] [0; 1; 2; 3; 4]
             (Z.of_nat (length [3; 1; 4; 1; 5])) = Some (0, H', I') ∧
           gf_radix_sort16 all_ok [3; 1; 4; 1; 5] [0; 1; 2; 3; 4]
             (Z.of_nat (length [3; 1; 4; 1; 5])) = Some (0, H', I').
Proof.
  apply (radix_sorts_agree all_ok [3; 1; 4; 1; 5] [0; 1; 2; 3; 4]).
  - reflexivity.
  - reflexivity.
  - simpl. lia.
  - apply elem_of_concrete. repeat constructor; lia.
Defined.

(** X6.  Arrays that are already in order come back from [gf_sort_hash]
    as they were, keys and index. *)
Theorem gf_sort_hash_sorted_input ok (hash index : list Z) :
  (∀ s, ok s = true) →
  length hash = length index → (0 < length hash)%nat → Z.of_nat (length hash) < 2 ^ 32 →
  (∀ h, h ∈ hash → 0 ≤ h < 2 ^ 64) →
  ¬ (0 ∈ hash ∧ 2 ^ 64 - 1 ∈ hash) →
  StronglySorted Z.le hash →
  gf_sort_hash ok hash index (Z.of_nat (length hash)) = Some (0, hash, index).
Proof.
  intros Hok Hlen Hpos HN Hkeys Hwrap Hs.
  destruct (gf_sort_hash_rows ok hash index Hok Hlen Hpos HN Hkeys Hwrap) as (out & Hr & Hst).
  assert (out = rows hash index) as ->.
  { apply (stable_sort_unique (rows hash index)); [done|].
    apply stable_sort_of_sorted. by apply sorted_rows. }
  by rewrite fst_rows, snd_rows in Hr.
Qed.

Lemma gf_sort_hash_sorted_input_witness :
  gf_sort_hash all_ok [1; 1; 3; 4; 5] [4; 3; 2; 1; 0] (Z.of_nat (length [1; 1; 3; 4; 5]))
  = Some (0, [1; 1; 3; 4; 5], [4; 3; 2; 1; 0]).
Proof.
  apply (gf_sort_hash_sorted_input all_ok [1; 1; 3; 4; 5] [4; 3; 2; 1; 0]).
  - reflexivity.
  - reflexivity.
  - simpl. lia.
  - simpl. lia.
  - apply elem_of_concrete. repeat constructor; lia.
  - intros [H0 _].
    apply (elem_of_concrete (λ h, 1 ≤ h) [1; 1; 3; 4; 5]) in H0; [lia|repeat constructor; lia].
  - repeat constructor; lia.
Defined.

(** X7.  The sorts of the [mf_] file test each of their buffers: when one
    of the three allocations of [mf_counting_sort_index] or of
    [mf_radix_sort_index_pass] fails, the status is not 0 and the keys and
    the index are as they were. *)
Theorem mf_sorts_check_allocations ok (x index : list Z) N min max exp shift :
  (ok "mf_counting_sort_index.xcopy" && ok "mf_counting_sort_index.icopy"
     && ok "mf_counting_sort_index.count" = false →
   ∃ rc, rc ≠ 0 ∧ mf_counting_sort_index ok x index N min max = Some (rc, x, index)) ∧
  (ok "mf_radix_sort_index_pass.xmod" && ok "mf_radix_sort_index_pass.outx"
     && ok "mf_radix_sort_index_pass.outi" = false →
   ∃ rc, rc ≠ 0 ∧ mf_radix_sort_index_pass ok x index N exp shift = Some (rc, x, index)).
Proof.
  split; intros Hfail.
  - unfold mf_counting_sort_index, calloc.
    destruct (ok "mf_counting_sort_index.xcopy"); [|by exists 1702].
    destruct (ok "mf_counting_sort_index.icopy"); [|by exists 1702].
    destruct (ok "mf_counting_sort_index.count"); [done|by exists 1702].
  - unfold mf_radix_sort_index_pass, calloc.
    destruct (ok "mf_radix_sort_index_pass.xmod"); [|by exists 1702].
    destruct (ok "mf_radix_sort_index_pass.outx"); [|by exists 1702].
    destruct (ok "mf_radix_sort_index_pass.outi"); [done|by exists 1702].
Qed.

Lemma mf_sorts_check_allocations_witness :
  ∃ rc, rc ≠ 0 ∧
    mf_counting_sort_index (λ s, negb (String.eqb s "mf_counting_sort_index.count"))
      [2; 1] [0; 1] 2 1 2 = Some (rc, [2; 1], [0; 1]).
Proof.
  apply (proj1 (mf_sorts_check_allocations
                  (λ s, negb (String.eqb s "mf_counting_sort_index.count"))
                  [2; 1] [0; 1] 2 1 2 1 2)).
  reflexivity.
Defined.

(** The digit that a pass of [mf_radix_sort_index] takes with
    [exp = 2^bits] and [shift = 2^d] is the digit of the bit-wise sorts. *)
Lemma pass_key_digit bits d (a : Z * Z) :
  0 ≤ bits → 0 ≤ d →
  pass_key (2 ^ bits) (2 ^ d) a = on_hash (digit bits (Z.ones d)) a.
Proof.
  intros ??. unfold pass_key, on_hash, digit.
  by rewrite Z.land_ones, Z.shiftr_div_pow2 by lia.
Qed.

(** The passes of [mf_radix_sort_index] from pass [j] on: the loop goes
    on to some pass [P], which is the last one allowed or the first one
    with [max ≤ 2^(d * P)]. *)
Lemma mf_radix_passes_run ok (src0 : list (Z * Z)) d loops max (n j : nat) :
  (∀ s, ok s = true) → Z.of_nat (length src0) < 2 ^ 31 →
  0 < d → d < 31 → 0 ≤ loops → d * (loops + 1) ≤ 64 →
  Z.of_nat j + Z.of_nat n = loops →
  ∃ P : nat, (j < P)%nat ∧ Z.of_nat P ≤ loops + 1 ∧
    (max ≤ 2 ^ (d * Z.of_nat P) ∨ Z.of_nat P = loops + 1) ∧
    (∀ q : nat, (j < q < P)%nat → max > 2 ^ (d * Z.of_nat q)) ∧
    mf_radix_passes (S n) ok ((lsd_sort d j src0).*1) ((lsd_sort d j src0).*2)
      (Z.of_nat (length src0)) (2 ^ (d * Z.of_nat j)) (2 ^ d) max (Z.of_nat j) loops
    = Some (0, (lsd_sort d P src0).*1, (lsd_sort d P src0).*2).
Proof.
  intros Hok HN Hd Hd31 Hloops Hbits. revert j.
  assert (2 ^ d < 2 ^ 31) as Hshift31 by (apply Z.pow_lt_mono_r; lia).
  induction n as [|n IH]; intros j Hj; rewrite mf_radix_passes_S.
  all: pose proof (mf_radix_sort_index_pass_rows (lsd_sort d j src0)
         (2 ^ (d * Z.of_nat j)) (2 ^ d)) as Hpass.
  all: rewrite lsd_sort_length in Hpass by lia.
  all: rewrite Hpass by (try done; lia); clear Hpass; obind.
  all: rewrite decide_False by (intros ?; done).
  all: assert (bucket_sort (pass_key (2 ^ (d * Z.of_nat j)) (2 ^ d)) (2 ^ d) (lsd_sort d j src0)
               = lsd_sort d (S j) src0) as ->
         by (cbn [lsd_sort]; apply bucket_sort_ext; intros a _; apply pass_key_digit; lia).
  - exists (S j). split_and!; [lia|lia|right; lia|intros; lia|].
    rewrite (bool_decide_eq_false_2 (Z.of_nat j < loops)) by lia.
    by rewrite andb_false_r.
  - assert (wrap64 (2 ^ (d * Z.of_nat j) * 2 ^ d) = 2 ^ (d * Z.of_nat (S j))) as ->.
    { rewrite <-Z.pow_add_r by lia. replace (d * Z.of_nat j + d) with (d * Z.of_nat (S j)) by lia.
      unfold wrap64. apply Z.mod_small. split; [lia|].
      apply Z.pow_lt_mono_r; nia. }
    rewrite (bool_decide_eq_true_2 (Z.of_nat j < loops)) by lia. rewrite andb_true_r.
    destruct (decide (max > 2 ^ (d * Z.of_nat (S j)))) as [Hgt|Hle].
    + rewrite bool_decide_eq_true_2 by done.
      destruct (IH (S j)) as (P & ? & ? & ? & Hfirst & HP); [lia|].
      replace (Z.of_nat j + 1) with (Z.of_nat (S j)) by lia.
      exists P. split_and!; [lia|done|done| |done].
      intros q Hq. destruct (decide (q = S j)) as [->|]; [done|]. apply Hfirst. lia.
    + rewrite bool_decide_eq_false_2 by done.
      exists (S j). split_and!; [lia|lia|left; lia|intros; lia|done].
Qed.

(** [mf_radix_sort_index] on keys that span [2^24] values or more: the
    rows come back in the order of their low [dshift * P] bits, where [P]
    is the number of passes the loop makes.  The radix [2^dshift] is one
    that the [int] counter of a pass reaches. *)
Lemma mf_radix_sort_index_run ok logq (x index : list Z) dshift min max :
  (∀ s, ok s = true) →
  length index = length x → Z.of_nat (length x) < 2 ^ 31 →
  min ∈ x → max ∈ x → (∀ h, h ∈ x → min ≤ h ≤ max) →
  0 ≤ min → 2 ^ 24 ≤ max - min + 1 < 2 ^ 64 →
  0 < dshift < 31 →
  ∃ P : nat, (0 < P)%nat ∧ Z.of_nat P ≤ 64 / dshift ∧
    (max ≤ 2 ^ (dshift * Z.of_nat P) ∨ Z.of_nat P = 64 / dshift) ∧
    (∀ q : nat, (0 < q < P)%nat → max > 2 ^ (dshift * Z.of_nat q)) ∧
    mf_radix_sort_index ok logq x index (Z.of_nat (length x)) dshift false
    = Some (0, (lsd_sort dshift P (rows x (seqZ 0 (Z.of_nat (length x))))).*1,
               (lsd_sort dshift P (rows x (seqZ 0 (Z.of_nat (length x))))).*2).
Proof.
  intros Hok Hlen HN Hmin Hmax Hb Hmin0 Hrange Hd.
  assert (0 < length x)%nat as Hpos.
  { destruct x; [by apply elem_of_nil in Hmin|simpl; lia]. }
  unfold mf_radix_sort_index. rewrite mf_max_scan, mf_min_scan.
  destruct (max_scan x Hpos) as (max' & -> & Hmax' & Hmaxle).
  destruct (min_scan x Hpos) as (min' & -> & Hmin' & Hminle).
  assert (max' = max) as -> by (pose proof (Hb _ Hmax'); pose proof (Hmaxle _ Hmax); lia).
  assert (min' = min) as -> by (pose proof (Hb _ Hmin'); pose proof (Hminle _ Hmin); lia).
  obind.
  assert (wrap64 (max - min + 1) = max - min + 1) as ->.
  { unfold wrap64. apply Z.mod_small. lia. }
  rewrite decide_True by lia. obind.
  assert (for_up_int 0 (Z.of_nat (length x)) (λ i index, aset index i i) index
          = Some (seqZ 0 (Z.of_nat (length x)))) as ->.
  { rewrite <-Hlen. apply index_init_loop_int. by rewrite Hlen. }
  obind. rewrite decide_False by lia.
  set (N := Z.of_nat (length x)) in *.
  assert (length x = length (seqZ 0 N)) as Hlen'.
  { rewrite length_seqZ. unfold N. lia. }
  set (src0 := rows x (seqZ 0 N)).
  assert (1 ≤ 64 / dshift) as Hq by (apply Z.div_le_lower_bound; lia).
  pose proof (Z.mul_div_le 64 dshift ltac:(lia)) as Hmul.
  destruct (mf_radix_passes_run ok src0 dshift (64 / dshift - 1) max
              (Z.to_nat (64 / dshift - 1)) 0 Hok) as (P & HP0 & HP1 & HP2 & HP3 & Hrun).
  { unfold src0. rewrite length_rows by done. done. }
  { lia. }
  { lia. }
  { lia. }
  { replace (64 / dshift - 1 + 1) with (64 / dshift) by lia. done. }
  { lia. }
  cbn [lsd_sort] in Hrun. unfold src0 in Hrun at 1 2 3.
  rewrite fst_rows, snd_rows, length_rows in Hrun by done.
  replace (dshift * Z.of_nat 0) with 0 in Hrun by lia.
  change (2 ^ 0) with 1 in Hrun. change (Z.of_nat 0) with 0 in Hrun.
  replace (Z.to_nat (64 / dshift - 1 + 1)) with (S (Z.to_nat (64 / dshift - 1))) by lia.
  fold N in Hrun. rewrite Hrun.
  exists P. split_and!; [done|lia| |done..].
  destruct HP2; [by left|right; lia].
Qed.

(** X8.  On keys that span [2^24] values or more, [mf_radix_sort_index]
    with [dshift] bits a pass, [dshift] at most 30 so that the [int]
    counter of a pass reaches the radix [2^dshift], returns status 0, the
    keys in non-decreasing order and the sorting permutation in the index,
    when no key needs more than the [64 / dshift] digits it can look at
    and the largest key is not an exact power of the radix. *)
Theorem mf_radix_sort_index_wide ok logq (x index : list Z) dshift min max :
  (∀ s, ok s = true) →
  length index = length x → Z.of_nat (length x) < 2 ^ 31 →
  min ∈ x → max ∈ x → (∀ h, h ∈ x → min ≤ h ≤ max) →
  0 ≤ min → 2 ^ 24 ≤ max - min + 1 < 2 ^ 64 →
  0 < dshift < 31 →
  max < 2 ^ (dshift * (64 / dshift)) →
  ¬ (∃ j, 0 ≤ j ∧ max = 2 ^ (dshift * j)) →
  ∃ H' I', mf_radix_sort_index ok logq x index (Z.of_nat (length x)) dshift false
             = Some (0, H', I') ∧
           sorted_by_index x H' I'.
Proof.
  intros Hok Hlen HN Hmin Hmax Hb Hmin0 Hrange Hd Hdigits Hpow.
  destruct (mf_radix_sort_index_run ok logq x index dshift min max)
    as (P & HP0 & HP1 & HP2 & _ & ->); [done..|].
  eexists _, _. split; [done|].
  set (N := Z.of_nat (length x)) in *.
  assert (length x = length (seqZ 0 N)) as Hlen'.
  { rewrite length_seqZ. unfold N. lia. }
  assert (stable_sort_of (rows x (seqZ 0 N)) (lsd_sort dshift P (rows x (seqZ 0 N)))) as Hst.
  { apply lsd_sort_stable; [lia|]. intros a Ha%elem_of_rows_fst.
    pose proof (Hb _ Ha). split; [lia|].
    destruct HP2 as [Hle|HPl].
    - assert (max ≠ 2 ^ (dshift * Z.of_nat P)); [|lia].
      intros Heq. apply Hpow. exists (Z.of_nat P). split; [lia|done].
    - rewrite HPl. lia. }
  apply sorted_by_index_of_arrays; [apply sorted_by_fst_keys, Hst|].
  by apply stable_arrays_of_rows.
Qed.

Lemma mf_radix_sort_index_wide_witness :
  ∃ H' I', mf_radix_sort_index all_ok 0 [4294967301; 0; 7] [9; 9; 9]
             (Z.of_nat (length [4294967301; 0; 7])) 16 false = Some (0, H', I') ∧
           sorted_by_index [4294967301; 0; 7] H' I'.
Proof.
  apply (mf_radix_sort_index_wide all_ok 0 [4294967301; 0; 7] [9; 9; 9] 16 0 4294967301).
  - reflexivity.
  - reflexivity.
  - simpl. lia.
  - repeat constructor.
  - repeat constructor.
  - apply elem_of_concrete. repeat constructor; lia.
  - lia.
  - lia.
  - lia.
  - reflexivity.
  - intros (j & Hj & Heq).
    destruct (decide (j ≤ 2)) as [Hle|Hgt].
    + assert (j = 0 ∨ j = 1 ∨ j = 2) as Hj3 by lia.
      destruct Hj3 as [Hj3|[Hj3|Hj3]]; subst j; discriminate Heq.
    + pose proof (Z.pow_le_mono_r 2 48 (16 * j) ltac:(lia) ltac:(lia)). lia.
Defined.

(** X10.  When the largest key is an exact power [2^(dshift * j)] of the
    radix ([dshift] at most 30, so that the [int] counter of a pass
    reaches the radix), the loop of [mf_radix_sort_index] stops after [j]
    passes, one short: the rows come back in the order of their low
    [dshift * j] bits, with status 0, and the keys are out of order as
    soon as there is another key that is not 0. *)
Theorem mf_radix_sort_index_power_of_radix ok logq (x index : list Z) dshift min max (j : nat) k :
  (∀ s, ok s = true) →
  length index = length x → Z.of_nat (length x) < 2 ^ 31 →
  min ∈ x → max ∈ x → (∀ h, h ∈ x → min ≤ h ≤ max) →
  0 ≤ min → 2 ^ 24 ≤ max - min + 1 →
  0 < dshift < 31 → dshift * Z.of_nat j < 64 →
  max = 2 ^ (dshift * Z.of_nat j) →
  k ∈ x → 0 < k < max →
  ∃ H' I', mf_radix_sort_index ok logq x index (Z.of_nat (length x)) dshift false
             = Some (0, H', I') ∧
           ¬ StronglySorted Z.le H'.
Proof.
  intros Hok Hlen HN Hmin Hmax Hb Hmin0 Hrange Hd Hj Hpow Hk Hk0.
  assert (0 < j)%nat as Hj0.
  { destruct j; [|lia]. replace (dshift * Z.of_nat 0) with 0 in Hpow by lia.
    change (2 ^ 0) with 1 in Hpow. lia. }
  assert (max ≤ 2 ^ 63) as Hmax64 by (subst max; apply Z.pow_le_mono_r; lia).
  destruct (mf_radix_sort_index_run ok logq x index dshift min max)
    as (P & HP0 & HP1 & HP2 & HP3 & ->); [done..|lia|lia|].
  eexists _, _. split; [done|].
  assert (P = j) as ->.
  { destruct (Nat.lt_trichotomy P j) as [Hlt|[->|Hgt]]; [|done|].
    - pose proof (Z.mul_succ_div_gt 64 dshift ltac:(lia)).
      assert (2 ^ (dshift * Z.of_nat P) < 2 ^ (dshift * Z.of_nat j))
        by (apply Z.pow_lt_mono_r; nia).
      destruct HP2 as [?|HP2]; [lia|]. nia.
    - pose proof (HP3 j ltac:(lia)). lia. }
  set (N := Z.of_nat (length x)) in *.
  assert (length x = length (seqZ 0 N)) as Hlen'.
  { rewrite length_seqZ. unfold N. lia. }
  set (out := lsd_sort dshift j (rows x (seqZ 0 N))).
  assert (∀ h, h ∈ x → ∃ p a, out !! p = Some a ∧ a.1 = h) as Hin.
  { intros h [p Hp]%list_elem_of_lookup_1.
    assert ((h, Z.of_nat p) ∈ out) as [q Hq]%list_elem_of_lookup_1.
    { unfold out. rewrite lsd_sort_perm by lia.
      apply (list_elem_of_lookup_2 _ p), rows_lookup; [done|].
      apply lookup_seqZ. apply lookup_lt_Some in Hp. unfold N. lia. }
    by exists q, (h, Z.of_nat p). }
  destruct (Hin _ Hmax) as (pm & am & Hpm & Ham).
  destruct (Hin _ Hk) as (pk & ak & Hpk & Hak).
  pose proof (lsd_sort_low dshift j (rows x (seqZ 0 N)) ltac:(lia)) as Hlow.
  fold out in Hlow. rewrite <-Hpow in Hlow.
  intros Hs.
  destruct (Nat.lt_trichotomy pk pm) as [Hlt|[->|Hgt]].
  - pose proof (StronglySorted_lookup _ _ _ _ _ _ Hlow Hlt Hpk Hpm) as Hle.
    simpl in Hle. rewrite Ham, Hak, Z.mod_same, Z.mod_small in Hle by lia. lia.
  - simplify_eq. lia.
  - assert (out.*1 !! pm = Some max) as Hm1 by (by rewrite list_lookup_fmap, Hpm; simpl; f_equal).
    assert (out.*1 !! pk = Some k) as Hk1 by (by rewrite list_lookup_fmap, Hpk; simpl; f_equal).
    pose proof (StronglySorted_lookup _ _ _ _ _ _ Hs Hgt Hm1 Hk1). lia.
Qed.

Lemma mf_radix_sort_index_power_of_radix_witness :
  ∃ H' I', mf_radix_sort_index all_ok 0 [4294967296; 0; 7] [9; 9; 9]
             (Z.of_nat (length [4294967296; 0; 7])) 16 false = Some (0, H', I') ∧
           ¬ StronglySorted Z.le H'.
Proof.
  apply (mf_radix_sort_index_power_of_radix all_ok 0 [4294967296; 0; 7] [9; 9; 9]
           16 0 4294967296 2 7).
  - reflexivity.
  - reflexivity.
  - simpl. lia.
  - repeat constructor.
  - repeat constructor.
  - apply elem_of_concrete. repeat constructor; lia.
  - lia.
  - lia.
  - lia.
  - lia.
  - reflexivity.
  - repeat constructor.
  - lia.
Defined.



(** * Further properties of the panel builders *)

(** The loop of [mf_check_allequal] over [n] entries from [i]. *)
Lemma check_allequal_from_spec (hash : list Z) first (n : nat) i :
  0 ≤ i → i + Z.of_nat n ≤ Z.of_nat (length hash) →
  ∃ b, check_allequal_from n hash first i = Some b ∧
       (b = true ↔ ∀ k, i ≤ k < i + Z.of_nat n → aget hash k = Some first).
Proof.
  revert i. induction n as [|n IH]; intros i Hi Hn.
  - exists true. split; [done|]. split; [intros _ k ?; lia|done].
  - cbn [check_allequal_from].
    destruct (aget_row hash i) as (h & Hh & _); [lia|]. rewrite Hh. obind.
    destruct (decide (h ≠ first)) as [Hne|Heq].
    + exists false. split; [done|]. split; [done|]. intros Hall.
      specialize (Hall i ltac:(lia)). congruence.
    + assert (h = first) as -> by (destruct (decide (h = first)); [done|contradiction]).
      destruct (IH (i + 1)) as (b & -> & Hb); [lia|lia|].
      exists b. split; [done|]. rewrite Hb. split.
      * intros Hall k ?. destruct (decide (k = i)) as [->|]; [done|]. apply Hall. lia.
      * intros Hall k ?. apply Hall. lia.
Qed.

(** The answer of [mf_check_allequal]. *)
Lemma mf_check_allequal_run (hash : list Z) start end_ :
  0 ≤ start < Z.of_nat (length hash) → end_ ≤ Z.of_nat (length hash) →
  ∃ b, mf_check_allequal hash start end_ = Some b ∧
       (b = true ↔ ∀ k, start ≤ k < end_ → aget hash k = aget hash start).
Proof.
  intros Hs He. unfold mf_check_allequal.
  destruct (aget_row hash start) as (first & Hf & _); [lia|]. rewrite Hf. obind.
  destruct (check_allequal_from_spec hash first (Z.to_nat (end_ - (start + 1))) (start + 1))
    as (b & -> & Hb); [lia|lia|].
  exists b. split; [done|]. rewrite Hb. split.
  - intros Hall k ?. destruct (decide (k = start)) as [->|]; [done|]. apply Hall. lia.
  - intros Hall k ?. apply Hall. lia.
Qed.

(** X11.  [mf_check_allequal] says whether the entries from [start] up
    to [end] all have the value of the first one; a range of one entry
    or none passes. *)
Theorem mf_check_allequal_spec (hash : list Z) start end_ :
  0 ≤ start < Z.of_nat (length hash) → end_ ≤ Z.of_nat (length hash) →
  ∃ b, mf_check_allequal hash start end_ = Some b ∧
       (b = true ↔ ∀ k, start ≤ k < end_ → aget hash k = aget hash start).
Proof. apply mf_check_allequal_run. Qed.

Lemma mf_check_allequal_spec_witness :
  ∃ b, mf_check_allequal [7; 4; 4; 4; 9] 1 4 = Some b ∧
       (b = true ↔ ∀ k, 1 ≤ k < 4 → aget [7; 4; 4; 4; 9] k = aget [7; 4; 4; 4; 9] 1).
Proof.
  apply (mf_check_allequal_spec [7; 4; 4; 4; 9] 1 4).
  - simpl. lia.
  - simpl. lia.
Defined.

(** A range of equal entries passes [mf_check_allequal]. *)
Lemma mf_check_allequal_true (hash : list Z) start end_ :
  0 ≤ start < Z.of_nat (length hash) → end_ ≤ Z.of_nat (length hash) →
  (∀ k, start ≤ k < end_ → aget hash k = aget hash start) →
  mf_check_allequal hash start end_ = Some true.
Proof.
  intros Hs He Hall.
  destruct (mf_check_allequal_run hash start end_ Hs He) as (b & -> & Hb).
  f_equal. by apply Hb.
Qed.

(** The rule of [do ... while] for loops that make at least one more
    turn. *)
Lemma do_while_up_inv {St} (Inv : Z → St → Prop) body lo hi (s : St) :
  lo < hi → Inv lo s →
  (∀ k s, lo ≤ k < hi → Inv k s → ∃ s', body k s = Some s' ∧ Inv (k + 1) s') →
  ∃ s', do_while_up lo hi body s = Some s' ∧ Inv hi s'.
Proof.
  intros Hlt H0 Hstep. unfold do_while_up.
  destruct (Hstep lo s ltac:(lia) H0) as (s1 & -> & H1). obind.
  apply for_up_inv; [lia|done|]. intros k s2 ??. apply Hstep; [lia|done].
Qed.

(** One turn of the scan. *)
Lemma panel_step (h1 : list Z) k st :
  1 ≤ k < Z.of_nat (length h1) → panel_inv h1 k st →
  ∃ st', panel_body h1 k st = Some st' ∧ panel_inv h1 (k + 1) st'.
Proof.
  intros Hk. destruct st as [[il l] el]. intros (Hlen & Hl & H0 & (s & Hs & Hsk & Hrun) & Hg).
  unfold panel_body. destruct (aget_row h1 k) as (hk & Hhk & _); [lia|]. rewrite Hhk. obind.
  destruct (decide (hk ≠ el)) as [Hne|Heq].
  - rewrite aset_Some by lia. obind. eexists. split; [done|].
    unfold panel_inv. rewrite length_insert. split_and!; [done|lia|lia| | |].
    + by rewrite aget_insert_ne by lia.
    + exists k. replace (l + 1 - 1) with l by lia. rewrite aget_insert_eq by lia.
      split_and!; [done|lia|lia|]. intros i ?. by replace i with k by lia.
    + intros g a b ? Ha Hb. destruct (decide (g = l - 1)) as [->|].
      * replace (l - 1 + 1) with l in Hb by lia.
        rewrite aget_insert_ne in Ha by lia. rewrite aget_insert_eq in Hb by lia.
        assert (a = s) as -> by congruence. assert (b = k) as -> by congruence.
        split_and!; [lia|lia|lia| |].
        -- intros i ?. rewrite (Hrun i), (Hrun s) by lia. done.
        -- rewrite Hhk, (Hrun s) by lia. congruence.
      * rewrite aget_insert_ne in Ha, Hb by lia.
        destruct (Hg g a b) as (? & ? & ? & ?); [lia|done..|]. split_and!; [lia|lia|lia|done..].
  - assert (hk = el) as -> by (destruct (decide (hk = el)); [done|contradiction]).
    eexists. split; [done|]. unfold panel_inv. split_and!; [done|lia|lia|done| |].
    + exists s. split_and!; [done|lia|lia|]. intros i ?.
      destruct (decide (i = k)) as [->|]; [done|]. apply Hrun. lia.
    + intros g a b ? Ha Hb. destruct (Hg g a b) as (? & ? & ? & ?); [done..|].
      split_and!; [lia|lia|lia|done..].
Qed.

(** The state in which both builders enter their scan. *)
Lemma panel_start (h1 : list Z) el :
  (0 < length h1)%nat → aget h1 0 = Some el →
  panel_inv h1 1 (<[Z.to_nat 0 := 0]> (replicate (Z.to_nat (Z.of_nat (length h1) + 1)) 0), 1, el).
Proof.
  intros Hpos Hel. unfold panel_inv. rewrite length_insert, length_replicate.
  split_and!; [lia|lia|lia| | |].
  - rewrite aget_insert_eq; [done|rewrite length_replicate; lia].
  - exists 0. split; [|split; [lia|]].
    + rewrite aget_insert_eq; [done|rewrite length_replicate; lia].
    + intros i ?. by replace i with 0 by lia.
  - intros; lia.
Qed.

(** The copy of [info_largest] into an array of its used size. *)
Lemma copy_loop_run (src : list Z) n :
  0 ≤ n ≤ Z.of_nat (length src) →
  ∃ out, for_up 0 n (copy_body src) (replicate (Z.to_nat n) 0) = Some out ∧
         Z.of_nat (length out) = n ∧ ∀ j, 0 ≤ j < n → aget out j = aget src j.
Proof.
  intros Hn.
  destruct (for_up_inv (λ k arr, Z.of_nat (length arr) = n ∧
                                 ∀ j, 0 ≤ j < k → aget arr j = aget src j)
              (copy_body src) 0 n (replicate (Z.to_nat n) 0))
    as (out & Hl & Hlen & Hc); [lia| | |by exists out].
  - rewrite length_replicate. split; [lia|]. intros; lia.
  - intros k arr ? [Hlen Hc]. unfold copy_body.
    destruct (aget_row src k) as (v & Hv & _); [lia|]. rewrite Hv. obind.
    rewrite aset_Some by lia. eexists. split; [done|].
    rewrite length_insert. split; [done|]. intros j ?.
    destruct (decide (j = k)) as [->|].
    + by rewrite aget_insert_eq by lia.
    + rewrite aget_insert_ne by lia. apply Hc. lia.
Qed.

(** What the last lines of a builder make of a finished scan. *)
Lemma panel_of_scan (h1 il : list Z) l el out :
  panel_inv h1 (Z.of_nat (length h1)) (il, l, el) →
  Z.of_nat (length out) = l + 1 →
  (∀ j, 0 ≤ j < l + 1 →
     aget out j = aget (<[Z.to_nat l := Z.of_nat (length h1)]> il) j) →
  panel_of h1 out l.
Proof.
  intros (Hlen & Hl & H0 & (s & Hs & Hsk & Hrun) & Hg) Hout Hc.
  unfold panel_of. split_and!; [done| | |].
  - rewrite Hc by lia. by rewrite aget_insert_ne by lia.
  - rewrite Hc by lia. by rewrite aget_insert_eq by lia.
  - intros g a b ? Ha Hb. rewrite Hc in Ha, Hb by lia.
    rewrite aget_insert_ne in Ha by lia.
    destruct (decide (g = l - 1)) as [->|].
    + replace (l - 1 + 1) with l in Hb by lia. rewrite aget_insert_eq in Hb by lia.
      assert (a = s) as -> by congruence.
      assert (b = Z.of_nat (length h1)) as -> by congruence.
      split_and!; [lia|lia|lia| |lia].
      intros i ?. by rewrite (Hrun i), (Hrun s) by lia.
    + rewrite aget_insert_ne in Hb by lia.
      destruct (Hg g a b) as (? & ? & ? & ?); [lia|done..|]. split_and!; [lia|lia|lia|done|done].
Qed.

(** X12.  [mf_panelsetup] on two rows or more returns the panel of [h1]:
    [J] groups of rows with one key each, in [J + 1] boundaries from 0 to
    [N], every group followed by a row with another key. *)
Theorem mf_panelsetup_groups ok (h1 : list Z) :
  (∀ s, ok s = true) →
  2 ≤ Z.of_nat (length h1) → Z.of_nat (length h1) + 1 < 2 ^ 64 →
  ∃ info J, mf_panelsetup ok h1 (Z.of_nat (length h1)) = Some (Some info, J) ∧
            panel_of h1 info J.
Proof.
  intros Hok HN Hmax. unfold mf_panelsetup, calloc. rewrite !Hok.
  destruct (aget_row h1 0) as (el & Hel & _); [lia|]. rewrite Hel. obind.
  assert (wrap64 (Z.of_nat (length h1) + 1) = Z.of_nat (length h1) + 1) as ->.
  { unfold wrap64. apply Z.mod_small. lia. }
  rewrite aset_Some by (rewrite length_replicate; lia). obind.
  destruct (do_while_up_inv (panel_inv h1) (panel_body h1) 1 (Z.of_nat (length h1))
              (<[Z.to_nat 0 := 0]> (replicate (Z.to_nat (Z.of_nat (length h1) + 1)) 0), 1, el))
    as ([[il l] el'] & -> & Hinv); [lia| | |].
  - apply panel_start; [lia|done].
  - intros k st ?. by apply panel_step.
  - obind. pose proof Hinv as (Hlen & Hl & _).
    rewrite aset_Some by lia. obind.
    assert (wrap64 (l + 1) = l + 1) as ->.
    { unfold wrap64. apply Z.mod_small. lia. }
    destruct (copy_loop_run (<[Z.to_nat l := Z.of_nat (length h1)]> il) (l + 1))
      as (out & -> & Hout & Hc).
    { rewrite length_insert. lia. }
    obind. exists out, l. split; [done|]. by eapply panel_of_scan.
Qed.

Lemma mf_panelsetup_groups_witness :
  ∃ info J, mf_panelsetup all_ok [4; 4; 6; 9; 9] (Z.of_nat (length [4; 4; 6; 9; 9]))
              = Some (Some info, J) ∧
            panel_of [4; 4; 6; 9; 9] info J.
Proof.
  apply (mf_panelsetup_groups all_ok [4; 4; 6; 9; 9]).
  - reflexivity.
  - simpl. lia.
  - simpl. lia.
Defined.

(** The scan of [mf_panelsetup128] when rows with the same first half have
    the same second half: every block passes [mf_check_allequal], so the
    scan is the scan of [mf_panelsetup], the index is not touched and no
    collision is counted. *)
Lemma panel128_loop_no_collision ok R (h1 h2 index : list Z) (n : nat) k il l el :
  length h2 = length h1 →
  (∀ i j v, aget h1 i = Some v → aget h1 j = Some v → aget h2 i = aget h2 j) →
  1 ≤ k → k + Z.of_nat n ≤ Z.of_nat (length h1) →
  panel_inv h1 k (il, l, el) →
  ∃ il' l' el',
    loop_up n k (panel_body h1) (il, l, el) = Some (il', l', el') ∧
    panel_inv h1 (k + Z.of_nat n) (il', l', el') ∧
    panel128_loop n ok R h1 h2 k (Panel128 il l el index 0)
    = Some (inr (Panel128 il' l' el' index 0)).
Proof.
  intros Hlen Hnc. revert k il l el.
  induction n as [|n IH]; intros k il l el Hk Hn Hinv.
  - exists il, l, el. replace (k + Z.of_nat 0) with k by lia. done.
  - destruct (panel_step h1 k (il, l, el)) as ([[il1 l1] el1] & Hb & Hinv1); [lia|done|].
    destruct (IH (k + 1) il1 l1 el1) as (il' & l' & el' & Hl & Hinv' & H128); [lia|lia|done|].
    exists il', l', el'. cbn [loop_up panel128_loop]. rewrite Hb. obind.
    replace (k + Z.of_nat (S n)) with (k + 1 + Z.of_nat n) by lia.
    split_and!; [done|done|].
    assert (panel128_body ok R h1 h2 k (Panel128 il l el index 0)
            = Some (inr (Panel128 il1 l1 el1 index 0))) as ->; [|by obind].
    destruct Hinv as (Hil & Hl0 & H0 & (s & Hs & Hsk & Hrun) & Hg).
    unfold panel128_body, panel_body in *. cbn [p_el p_info p_l p_index p_collision64].
    destruct (aget h1 k) as [hk|]; [|done]. obind. simpl in Hb.
    destruct (decide (hk ≠ el)); [|by simplify_eq].
    rewrite Hs. obind.
    rewrite mf_check_allequal_true; [|lia|lia|].
    + obind. destruct (aset il l k) as [il2|]; simpl in Hb; [|done]. obind. by simplify_eq.
    + intros i ?. apply (Hnc i s el); apply Hrun; lia.
Qed.

(** X13.  When no two rows agree on the first half of the hash and
    differ on the second, [mf_panelsetup128] returns the panel that
    [mf_panelsetup] builds from the first halves, leaves the index as it
    was and counts no collision. *)
Theorem mf_panelsetup128_no_collision ok RADIX_SHIFT (h1 h2 index : list Z) :
  (∀ s, ok s = true) →
  2 ≤ Z.of_nat (length h1) → Z.of_nat (length h1) + 1 < 2 ^ 64 →
  length h2 = length h1 →
  (∀ i j v, aget h1 i = Some v → aget h1 j = Some v → aget h2 i = aget h2 j) →
  ∃ info J,
    mf_panelsetup ok h1 (Z.of_nat (length h1)) = Some (Some info, J) ∧
    mf_panelsetup128 ok RADIX_SHIFT h1 h2 index (Z.of_nat (length h1))
    = Some (Some info, J, index, 0) ∧
    panel_of h1 info J.
Proof.
  intros Hok HN Hmax Hlen Hnc. unfold mf_panelsetup, mf_panelsetup128, calloc. rewrite !Hok.
  destruct (aget_row h1 0) as (el & Hel & _); [lia|]. rewrite Hel. obind.
  assert (wrap64 (Z.of_nat (length h1) + 1) = Z.of_nat (length h1) + 1) as ->.
  { unfold wrap64. apply Z.mod_small. lia. }
  rewrite aset_Some by (rewrite length_replicate; lia). obind.
  destruct (panel128_loop_no_collision ok RADIX_SHIFT h1 h2 index
              (S (Z.to_nat (Z.of_nat (length h1) - 2))) 1
              (<[Z.to_nat 0 := 0]> (replicate (Z.to_nat (Z.of_nat (length h1) + 1)) 0)) 1 el)
    as (il & l & el' & Hloop & Hinv & ->); [done|done|lia|lia| |].
  { apply panel_start; [lia|done]. }
  replace (1 + Z.of_nat (S (Z.to_nat (Z.of_nat (length h1) - 2))))
    with (Z.of_nat (length h1)) in Hinv by lia.
  assert (do_while_up 1 (Z.of_nat (length h1)) (panel_body h1)
            (<[Z.to_nat 0 := 0]> (replicate (Z.to_nat (Z.of_nat (length h1) + 1)) 0), 1, el)
          = Some (il, l, el')) as -> by exact Hloop.
  obind.
  cbn [p_el p_info p_l p_index p_collision64].
  pose proof Hinv as (Hil & Hl & _).
  rewrite aset_Some by lia. obind.
  assert (wrap64 (l + 1) = l + 1) as ->.
  { unfold wrap64. apply Z.mod_small. lia. }
  destruct (copy_loop_run (<[Z.to_nat l := Z.of_nat (length h1)]> il) (l + 1))
    as (out & -> & Hout & Hc).
  { rewrite length_insert. lia. }
  obind. exists out, l. split_and!; [done|done|]. by eapply panel_of_scan.
Qed.

Lemma mf_panelsetup128_no_collision_witness :
  ∃ info J,
    mf_panelsetup all_ok [4; 4; 6; 9; 9] (Z.of_nat (length [4; 4; 6; 9; 9]))
    = Some (Some info, J) ∧
    mf_panelsetup128 all_ok 16 [4; 4; 6; 9; 9] [1; 1; 5; 2; 2] [3; 0; 1; 4; 2]
      (Z.of_nat (length [4; 4; 6; 9; 9]))
    = Some (Some info, J, [3; 0; 1; 4; 2], 0) ∧
    panel_of [4; 4; 6; 9; 9] info J.
Proof.
  apply (mf_panelsetup128_no_collision all_ok 16 [4; 4; 6; 9; 9] [1; 1; 5; 2; 2] [3; 0; 1; 4; 2]).
  - reflexivity.
  - simpl. lia.
  - simpl. lia.
  - reflexivity.
  - intros i j v Hi Hj.
    apply aget_Some in Hi as [? Hi]. apply aget_Some in Hj as [? Hj].
    destruct (Z.to_nat i) as [|[|[|[|[|?]]]]] eqn:Ei; simplify_eq/=;
    destruct (Z.to_nat j) as [|[|[|[|[|?]]]]] eqn:Ej; simplify_eq/=;
    unfold aget; rewrite !decide_True by lia; rewrite Ei, Ej; reflexivity.
Defined.

(** A turn of the scan of [mf_panelsetup128] that goes on does to
    [info_largest], [l] and [el] what the turn of [mf_panelsetup] does. *)
Lemma panel128_body_scan ok R (h1 h2 : list Z) k st st' :
  panel128_body ok R h1 h2 k st = Some (inr st') →
  panel_body h1 k (p_info st, p_l st, p_el st) = Some (p_info st', p_l st', p_el st').
Proof.
  unfold panel128_body, panel_body. intros Hb.
  destruct (aget h1 k) as [hk|]; simpl in *; [|done].
  destruct (decide (hk ≠ p_el st)); [|by simplify_eq].
  destruct (aget (p_info st) (p_l st - 1)) as [start_l|]; simpl in Hb; [|done].
  destruct (mf_check_allequal h2 start_l k) as [alleq|]; simpl in Hb; [|done].
  match type of Hb with
  | context [mbind _ ?r] => destruct r as [[?|[ix' c']]|]; simpl in Hb; [done| |done]
  end.
  destruct (aset (p_info st) (p_l st) k) as [a'|]; simpl in *; [|done].
  by simplify_eq.
Qed.

Lemma panel128_loop_scan ok R (h1 h2 : list Z) n k st st' :
  panel128_loop n ok R h1 h2 k st = Some (inr st') →
  loop_up n k (panel_body h1) (p_info st, p_l st, p_el st)
  = Some (p_info st', p_l st', p_el st').
Proof.
  revert k st. induction n as [|n IH]; intros k st Hl; simpl in Hl.
  - by simplify_eq.
  - destruct (panel128_body ok R h1 h2 k st) as [[ix|st1]|] eqn:Hb; simpl in Hl; [done| |done].
    cbn [loop_up]. rewrite (panel128_body_scan _ _ _ _ _ _ _ Hb). obind. by apply IH.
Qed.

(** X14.  The second halves of the hashes never change the panel: an
    [info] array that [mf_panelsetup128] returns, with its [J], is what
    [mf_panelsetup] returns on the first halves. *)
Theorem mf_panelsetup128_same_panel ok RADIX_SHIFT (h1 h2 index : list Z) N
    info J index' collisions :
  ok "mf_panelsetup.info_largest" = true → ok "mf_panelsetup.info" = true →
  mf_panelsetup128 ok RADIX_SHIFT h1 h2 index N = Some (Some info, J, index', collisions) →
  mf_panelsetup ok h1 N = Some (Some info, J).
Proof.
  intros Hok1 Hok2. unfold mf_panelsetup128, mf_panelsetup, calloc. rewrite Hok1, Hok2.
  generalize (eq_refl (S (Z.to_nat (N - 2)))).
  generalize (S (Z.to_nat (N - 2))) at 1 3. intros n Hn Hp.
  destruct (aget h1 0) as [el|]; simpl in Hp |- *; [|done].
  destruct (ok "mf_panelsetup128.info_largest"); [|done].
  destruct (aset _ 0 0) as [il1|]; simpl in Hp |- *; [|done].
  destruct (panel128_loop _ _ _ _ _ _ _) as [[ix|st]|] eqn:Hloop; simpl in Hp; [done| |done].
  apply panel128_loop_scan in Hloop. simpl in Hloop.
  assert (do_while_up 1 N (panel_body h1) (il1, 1, el)
          = Some (p_info st, p_l st, p_el st)) as -> by (subst n; exact Hloop).
  obind.
  destruct (aset (p_info st) (p_l st) N) as [il'|]; simpl in Hp |- *; [|done].
  destruct (ok "mf_panelsetup128.info"); [|done].
  destruct (for_up _ _ _ _) as [out|]; simpl in Hp |- *; [|done].
  by simplify_eq.
Qed.

Lemma mf_panelsetup128_same_panel_witness :
  mf_panelsetup all_ok [7; 7; 8] 3 = Some (Some [0; 2; 3], 2).
Proof.
  apply (mf_panelsetup128_same_panel all_ok 8 [7; 7; 8] [2; 1; 5] [0; 1; 2] 3
           [0; 2; 3] 2 [1; 0; 2] 1).
  - reflexivity.
  - reflexivity.
  - vm_compute. reflexivity.
Defined.

(** * Further properties of the summaries *)

(** [<] on doubles is transitive and irreflexive, not-a-number included. *)
Lemma SFltb_trans (a b c : spec_float) :
  SFltb a b = true → SFltb b c = true → SFltb a c = true.
Proof.
  unfold SFltb, SFcompare.
  destruct a as [sa|sa| |sa ma ea], b as [sb|sb| |sb mb eb], c as [sc|sc| |sc mc ec];
    try destruct sa; try destruct sb; try destruct sc; try done.
  all: destruct (Z.compare_spec ea eb), (Z.compare_spec eb ec), (Z.compare_spec ea ec);
    try done; try lia; subst.
  all: rewrite ?Pos.compare_cont_spec; unfold Pos.switch_Eq.
  all: destruct (Pos.compare_spec ma mb), (Pos.compare_spec mb mc), (Pos.compare_spec ma mc);
    simpl; try done; try lia.
Qed.

Lemma SFltb_irrefl (a : spec_float) : SFltb a a = false.
Proof.
  unfold SFltb, SFcompare. destruct a as [s|s| |s m e]; try destruct s; try done.
  all: rewrite Z.compare_refl, Pos.compare_refl; done.
Qed.

Lemma ltb_trans (x y z : float) :
  (x <? y)%float = true → (y <? z)%float = true → (x <? z)%float = true.
Proof. rewrite !FloatAxioms.ltb_spec. apply SFltb_trans. Qed.

Lemma ltb_irrefl (x : float) : (x <? x)%float = false.
Proof. rewrite FloatAxioms.ltb_spec. apply SFltb_irrefl. Qed.

(** X15.  [mf_array_dmin_range] on a range that is not empty returns one
    of the entries of the range, and no entry of the range is less than
    it. *)
Theorem mf_array_dmin_range_least (v : list float) start end_ :
  0 ≤ start < end_ → end_ ≤ Z.of_nat (length v) →
  ∃ m, mf_array_dmin_range v start end_ = Some m ∧
       (∃ i, start ≤ i < end_ ∧ aget v i = Some m) ∧
       ∀ i x, start ≤ i < end_ → aget v i = Some x → (x <? m)%float = false.
Proof.
  intros Hs He. unfold mf_array_dmin_range.
  destruct (aget_row v start) as (m0 & Hm0 & _); [lia|]. rewrite Hm0. obind.
  apply (for_up_inv
    (λ k m, (∃ i, start ≤ i < k ∧ aget v i = Some m) ∧
            ∀ i x, start ≤ i < k → aget v i = Some x → (x <? m)%float = false)).
  - lia.
  - split; [exists start; split; [lia|done]|].
    intros i x ? Hx. replace i with start in Hx by lia. simplify_eq. apply ltb_irrefl.
  - intros k m ? [(i0 & Hi0 & Hm) Hall].
    destruct (aget_row v k) as (vk & Hvk & _); [lia|]. rewrite Hvk. obind.
    eexists. split; [done|]. destruct (vk <? m)%float eqn:Hlt.
    + split; [exists k; split; [lia|done]|]. intros i x ? Hx.
      destruct (decide (i = k)) as [->|]; [simplify_eq; apply ltb_irrefl|].
      destruct (x <? vk)%float eqn:Hxv; [|done].
      rewrite <-(Hall i x ltac:(lia) Hx). symmetry. by eapply ltb_trans.
    + split; [exists i0; split; [lia|done]|]. intros i x ? Hx.
      destruct (decide (i = k)) as [->|]; [by simplify_eq|]. apply Hall with i; [lia|done].
Qed.

Lemma mf_array_dmin_range_least_witness :
  ∃ m, mf_array_dmin_range [3; 1; 4; 1; 5]%float 1 4 = Some m ∧
       (∃ i, 1 ≤ i < 4 ∧ aget [3; 1; 4; 1; 5]%float i = Some m) ∧
       ∀ i x, 1 ≤ i < 4 → aget [3; 1; 4; 1; 5]%float i = Some x → (x <? m)%float = false.
Proof.
  apply (mf_array_dmin_range_least [3; 1; 4; 1; 5]%float 1 4).
  - lia.
  - simpl. lia.
Defined.

(** X16.  [mf_array_dmax_range] on a range that is not empty returns one
    of the entries of the range, and it is less than no entry of the
    range. *)
Theorem mf_array_dmax_range_greatest (v : list float) start end_ :
  0 ≤ start < end_ → end_ ≤ Z.of_nat (length v) →
  ∃ m, mf_array_dmax_range v start end_ = Some m ∧
       (∃ i, start ≤ i < end_ ∧ aget v i = Some m) ∧
       ∀ i x, start ≤ i < end_ → aget v i = Some x → (m <? x)%float = false.
Proof.
  intros Hs He. unfold mf_array_dmax_range.
  destruct (aget_row v start) as (m0 & Hm0 & _); [lia|]. rewrite Hm0. obind.
  apply (for_up_inv
    (λ k m, (∃ i, start ≤ i < k ∧ aget v i = Some m) ∧
            ∀ i x, start ≤ i < k → aget v i = Some x → (m <? x)%float = false)).
  - lia.
  - split; [exists start; split; [lia|done]|].
    intros i x ? Hx. replace i with start in Hx by lia. simplify_eq. apply ltb_irrefl.
  - intros k m ? [(i0 & Hi0 & Hm) Hall].
    destruct (aget_row v k) as (vk & Hvk & _); [lia|]. rewrite Hvk. obind.
    eexists. split; [done|]. destruct (m <? vk)%float eqn:Hlt.
    + split; [exists k; split; [lia|done]|]. intros i x ? Hx.
      destruct (decide (i = k)) as [->|]; [simplify_eq; apply ltb_irrefl|].
      destruct (vk <? x)%float eqn:Hxv; [|done].
      rewrite <-(Hall i x ltac:(lia) Hx). symmetry. by eapply ltb_trans.
    + split; [exists i0; split; [lia|done]|]. intros i x ? Hx.
      destruct (decide (i = k)) as [->|]; [by simplify_eq|]. apply Hall with i; [lia|done].
Qed.

Lemma mf_array_dmax_range_greatest_witness :
  ∃ m, mf_array_dmax_range [3; 1; 4; 1; 5]%float 1 4 = Some m ∧
       (∃ i, 1 ≤ i < 4 ∧ aget [3; 1; 4; 1; 5]%float i = Some m) ∧
       ∀ i x, 1 ≤ i < 4 → aget [3; 1; 4; 1; 5]%float i = Some x → (m <? x)%float = false.
Proof.
  apply (mf_array_dmax_range_greatest [3; 1; 4; 1; 5]%float 1 4).
  - lia.
  - simpl. lia.
Defined.

(** The loop of [mf_array_dsorted_range] over [n] entries from [i]. *)
Lemma dsorted_from_spec (v : list float) (n : nat) i :
  1 ≤ i → i + Z.of_nat n ≤ Z.of_nat (length v) →
  ∃ b, dsorted_from n v i = Some b ∧
       (b = true ↔ ∀ k x y, i ≤ k < i + Z.of_nat n →
                     aget v (k - 1) = Some x → aget v k = Some y → (y <? x)%float = false).
Proof.
  revert i. induction n as [|n IH]; intros i Hi Hn.
  - exists true. split; [done|]. split; [intros _ k x y ?; lia|done].
  - cbn [dsorted_from].
    destruct (aget_row v (i - 1)) as (x0 & Hx0 & _); [lia|]. rewrite Hx0. obind.
    destruct (aget_row v i) as (y0 & Hy0 & _); [lia|]. rewrite Hy0. obind.
    destruct (y0 <? x0)%float eqn:Hlt.
    + exists false. split; [done|]. split; [done|]. intros Hall.
      rewrite (Hall i x0 y0) in Hlt; [done|lia|done..].
    + destruct (IH (i + 1)) as (b & -> & Hb); [lia|lia|].
      exists b. split; [done|]. rewrite Hb. split.
      * intros Hall k x y ? Hx Hy. destruct (decide (k = i)) as [->|].
        -- by simplify_eq.
        -- apply (Hall k x y); [lia|done..].
      * intros Hall k x y ?. apply Hall. lia.
Qed.

(** X17.  [mf_array_dsorted_range] answers 1 exactly when no entry of
    the range after the first is less than the entry before it. *)
Theorem mf_array_dsorted_range_spec (v : list float) start end_ :
  0 ≤ start → end_ ≤ Z.of_nat (length v) →
  ∃ b, mf_array_dsorted_range v start end_ = Some b ∧
       (b = true ↔ ∀ k x y, start < k < end_ →
                     aget v (k - 1) = Some x → aget v k = Some y → (y <? x)%float = false).
Proof.
  intros Hs He. unfold mf_array_dsorted_range.
  destruct (decide (start + 1 < end_)) as [Hlt|Hge]; cycle 1.
  { replace (Z.to_nat (end_ - (start + 1))) with 0%nat by lia.
    exists true. split; [done|]. split; [intros _ k x y ?; lia|done]. }
  destruct (dsorted_from_spec v (Z.to_nat (end_ - (start + 1))) (start + 1))
    as (b & -> & Hb); [lia|lia|].
  exists b. split; [done|]. rewrite Hb. split.
  - intros Hall k x y ?. apply Hall. lia.
  - intros Hall k x y ?. apply Hall. lia.
Qed.

Lemma mf_array_dsorted_range_spec_witness :
  ∃ b, mf_array_dsorted_range [3; 1; 4; 1; 5]%float 1 3 = Some b ∧
       (b = true ↔ ∀ k x y, 1 < k < 3 →
                     aget [3; 1; 4; 1; 5]%float (k - 1) = Some x →
                     aget [3; 1; 4; 1; 5]%float k = Some y → (y <? x)%float = false).
Proof.
  apply (mf_array_dsorted_range_spec [3; 1; 4; 1; 5]%float 1 3).
  - lia.
  - simpl. lia.
Defined.

(** X18.  The mean of an empty range is 0 / 0, not-a-number, whatever
    the array holds; no entry is read. *)
Theorem mf_array_dmean_range_empty (v : list float) start :
  0 ≤ start < 2 ^ 64 →
  mf_array_dsum_range v start start = Some 0%float ∧
  mf_array_dmean_range v start start = Some nan.
Proof.
  intros Hs. unfold mf_array_dmean_range, mf_array_dsum_range.
  rewrite for_up_empty by lia. split; [done|]. obind.
  replace (start - start) with 0 by lia. reflexivity.
Qed.

Lemma mf_array_dmean_range_empty_witness :
  mf_array_dsum_range [3; 1]%float 1 1 = Some 0%float ∧
  mf_array_dmean_range [3; 1]%float 1 1 = Some nan.
Proof. apply (mf_array_dmean_range_empty [3; 1]%float 1). lia. Defined.

(** * The comparators of the quicksort *)

Lemma BaseCompareNum_swap (a b : float) : BaseCompareNum b a = - BaseCompareNum a b.
Proof. unfold BaseCompareNum. lia. Qed.

(** X19.  The descending comparators are the ascending ones negated, and
    swapping the rows negates the answer; not-a-number compares equal to
    everything. *)
Theorem descending_comparators_negate (row : Type) (load_double : row → Z → option float)
    (a b : list float) (ra rb : row) kstart :
  MultiCompareNum2Invert a b kstart = Z.opp <$> MultiCompareNum2 a b kstart ∧
  MultiCompareNum2 b a kstart = Z.opp <$> MultiCompareNum2 a b kstart ∧
  AltCompareNumInvert row load_double ra rb kstart
    = Z.opp <$> AltCompareNum row load_double ra rb kstart ∧
  (aget a kstart = Some nan → is_Some (aget b kstart) → MultiCompareNum2 a b kstart = Some 0).
Proof.
  unfold MultiCompareNum2Invert, MultiCompareNum2, AltCompareNumInvert, AltCompareNum.
  split_and!.
  - destruct (aget a kstart), (aget b kstart); simpl; try done.
    by rewrite BaseCompareNum_swap.
  - destruct (aget a kstart), (aget b kstart); simpl; try done.
    by rewrite BaseCompareNum_swap.
  - destruct (load_double ra kstart), (load_double rb kstart); simpl; try done.
    by rewrite BaseCompareNum_swap.
  - intros -> [y ->]. simpl. f_equal. unfold BaseCompareNum.
    rewrite !FloatAxioms.ltb_spec. unfold SFltb.
    change (Prim2SF nan) with S754_nan. simpl. by destruct (Prim2SF y).
Qed.

(** X20.  [CompareSpooky] is a three-way comparison of the 64-bit keys
    of the two rows: -1, 0 or 1 as the first key is less than, equal to or
    greater than the second. *)
Theorem CompareSpooky_three_way (row : Type) (load_uint64 : row → Z → option Z)
    (a b : row) kstart x y :
  load_uint64 a kstart = Some x → load_uint64 b kstart = Some y →
  ∃ c, CompareSpooky row load_uint64 a b kstart = Some c ∧
       (c = -1 ↔ x < y) ∧ (c = 0 ↔ x = y) ∧ (c = 1 ↔ x > y) ∧
       CompareSpooky row load_uint64 b a kstart = Some (- c).
Proof.
  intros Ha Hb. unfold CompareSpooky. rewrite Ha, Hb. simpl.
  eexists. split; [done|]. unfold BaseCompareNum64.
  repeat case_bool_decide; simpl; split_and!; (split || f_equal); lia.
Qed.

Lemma CompareSpooky_three_way_witness :
  ∃ c, CompareSpooky (list Z) aget [5; 9] [5; 7] 1 = Some c ∧
       (c = -1 ↔ 9 < 7) ∧ (c = 0 ↔ 9 = 7) ∧ (c = 1 ↔ 9 > 7) ∧
       CompareSpooky (list Z) aget [5; 7] [5; 9] 1 = Some (- c).
Proof.
  apply (CompareSpooky_three_way (list Z) aget [5; 9] [5; 7] 1 9 7).
  - reflexivity.
  - reflexivity.
Defined.

(** * The refinement of the index by [mf_panelsetup128] *)

(** [mf_radix_sort_index] sorts the keys it is meant for: fewer than
    [2^31] of them, none [2^64 - 1], none too wide for [64 / dshift]
    digits and none an exact power of the radix, which is [2^30] at
    most. *)
Lemma mf_radix_sort_index_block_rows ok logq (x index : list Z) dshift :
  (∀ s, ok s = true) →
  length index = length x → (0 < length x)%nat → Z.of_nat (length x) < 2 ^ 31 →
  0 < dshift < 31 →
  (∀ h, h ∈ x → 0 ≤ h < 2 ^ 64 - 1 ∧ h < 2 ^ (dshift * (64 / dshift)) ∧
                ¬ ∃ j, 1 ≤ j ∧ h = 2 ^ (dshift * j)) →
  ∃ out, mf_radix_sort_index ok logq x index (Z.of_nat (length x)) dshift false
           = Some (0, out.*1, out.*2) ∧
         stable_sort_of (rows x (seqZ 0 (Z.of_nat (length x)))) out.
Proof.
  intros Hok Hlen Hpos HN Hd Hkeys.
  destruct (min_scan x Hpos) as (min & _ & Hmin & Hminle).
  destruct (max_scan x Hpos) as (max & _ & Hmax & Hmaxle).
  destruct (Hkeys _ Hmin) as (? & _ & _). destruct (Hkeys _ Hmax) as (? & ? & Hpow).
  pose proof (Hminle _ Hmax).
  destruct (decide (max - min + 1 < 2 ^ 24)) as [Hnarrow|Hwide].
  - apply mf_radix_sort_index_counting; [done..| | |intros; lia].
    + intros h Hh. destruct (Hkeys _ Hh) as (? & _). lia.
    + intros h h' Hh Hh'. pose proof (Hminle _ Hh). pose proof (Hmaxle _ Hh'). lia.
  - destruct (mf_radix_sort_index_run ok logq x index dshift min max)
      as (P & HP0 & HP1 & HP2 & _ & ->); [done..| |lia|lia|done|].
    { intros h Hh. split; [by apply Hminle|by apply Hmaxle]. }
    eexists. split; [done|].
    apply lsd_sort_stable; [lia|]. intros a Ha%elem_of_rows_fst.
    pose proof (Hmaxle _ Ha). destruct (Hkeys _ Ha) as (? & _). split; [lia|].
    destruct HP2 as [Hle|HPl].
    + assert (max ≠ 2 ^ (dshift * Z.of_nat P)); [|lia].
      intros Heq. apply Hpow. exists (Z.of_nat P). split; [lia|done].
    + rewrite HPl. lia.
Qed.

Lemma mf_radix_sort_index_block ok logq (x index : list Z) dshift :
  (∀ s, ok s = true) →
  length index = length x → (0 < length x)%nat → Z.of_nat (length x) < 2 ^ 31 →
  0 < dshift < 31 →
  (∀ h, h ∈ x → 0 ≤ h < 2 ^ 64 - 1 ∧ h < 2 ^ (dshift * (64 / dshift)) ∧
                ¬ ∃ j, 1 ≤ j ∧ h = 2 ^ (dshift * j)) →
  ∃ H' I', mf_radix_sort_index ok logq x index (Z.of_nat (length x)) dshift false
             = Some (0, H', I') ∧
           sorted_by_index x H' I'.
Proof.
  intros Hok Hlen Hpos HN Hd Hkeys.
  destruct (mf_radix_sort_index_block_rows ok logq x index dshift) as (out & -> & Hst);
    [done..|].
  eexists _, _. split; [done|].
  apply sorted_by_index_of_arrays; [apply sorted_by_fst_keys, Hst|].
  apply stable_arrays_of_rows; [|done]. rewrite length_seqZ. lia.
Qed.

(** What [sorted_by_index] says about the entries of the index. *)
Lemma sorted_by_index_bound (H H' I' : list Z) (j : nat) p :
  sorted_by_index H H' I' → I' !! j = Some p → 0 ≤ p < Z.of_nat (length H).
Proof.
  intros (_ & Hperm & _) Hp. apply list_elem_of_lookup_2 in Hp.
  rewrite Hperm in Hp. apply elem_of_seqZ in Hp. lia.
Qed.

Lemma sorted_by_index_length (H H' I' : list Z) :
  sorted_by_index H H' I' → length I' = length H.
Proof. intros (_ & Hperm & _). rewrite Hperm, length_seqZ. lia. Qed.

(** The three loops around the sort in [mf_panelsetup128]. *)
Lemma resort_copy_loop (h2 : list Z) s k :
  0 ≤ s → s ≤ k → k ≤ Z.of_nat (length h2) →
  for_up s k (λ j h2_l, v ← aget h2 j; aset h2_l (j - s) v) (replicate (Z.to_nat (k - s)) 0)
  = Some (slice h2 s k).
Proof.
  intros Hs Hsk Hk.
  destruct (for_up_inv
    (λ i arr, length arr = Z.to_nat (k - s) ∧
              ∀ j, 0 ≤ j < i - s → aget arr j = aget h2 (s + j))
    (λ j h2_l, v ← aget h2 j; aset h2_l (j - s) v) s k (replicate (Z.to_nat (k - s)) 0))
    as (arr & -> & Hlen & Harr); [lia| | |].
  - rewrite length_replicate. split; [done|]. intros; lia.
  - intros i arr ? [Hlen Harr].
    destruct (aget_row h2 i) as (v & Hv & _); [lia|]. rewrite Hv. obind.
    rewrite aset_Some by lia. eexists. split; [done|].
    rewrite length_insert. split; [done|]. intros j ?.
    destruct (decide (j = i - s)) as [->|].
    + rewrite aget_insert_eq by lia. rewrite <-Hv. f_equal. lia.
    + rewrite aget_insert_ne by lia. apply Harr. lia.
  - f_equal. apply list_eq. intros j.
    destruct (decide (j < Z.to_nat (k - s))%nat) as [Hj|Hj].
    + rewrite <-!aget_nat. rewrite Harr by lia. symmetry. apply aget_slice; lia.
    + rewrite !(proj2 (lookup_ge_None _ _)); [done| |lia].
      pose proof (length_slice h2 s k Hs Hsk Hk). lia.
Qed.

Lemma resort_gather_loop (index σ : list Z) s (n : nat) :
  0 ≤ s → length σ = n →
  (∀ (j : nat) p, σ !! j = Some p → 0 ≤ p ∧ s + p < Z.of_nat (length index)) →
  Z.of_nat (length index) < 2 ^ 64 →
  ∃ ix_c,
    for_up 0 (Z.of_nat n)
      (λ j ix_c, p ← aget σ j; v ← aget index (wrap64 (p + s)); aset ix_c j v)
      (replicate n 0) = Some ix_c ∧
    length ix_c = n ∧
    ∀ (j : nat) p, σ !! j = Some p → aget ix_c (Z.of_nat j) = aget index (s + p).
Proof.
  intros Hs Hlen Hσ Hmax.
  destruct (for_up_inv
    (λ i arr, length arr = n ∧
              ∀ (j : nat) p, Z.of_nat j < i → σ !! j = Some p →
                aget arr (Z.of_nat j) = aget index (s + p))
    (λ j ix_c, p ← aget σ j; v ← aget index (wrap64 (p + s)); aset ix_c j v)
    0 (Z.of_nat n) (replicate n 0)) as (arr & -> & Hl & Harr); [lia| | |].
  - rewrite length_replicate. split; [done|]. intros; lia.
  - intros i arr ? [Hl Harr].
    destruct (aget_row σ i) as (p & Hp & Hp'); [lia|]. rewrite Hp. obind.
    destruct (Hσ _ _ Hp') as [? ?].
    assert (wrap64 (p + s) = s + p) as ->.
    { unfold wrap64. rewrite Z.mod_small; lia. }
    destruct (aget_row index (s + p)) as (v & Hv & _); [lia|]. rewrite Hv. obind.
    rewrite aset_Some by lia. eexists. split; [done|].
    rewrite length_insert. split; [done|]. intros j q ? Hq.
    destruct (decide (Z.of_nat j = i)) as [<-|].
    + rewrite aget_insert_eq by lia. rewrite Nat2Z.id in Hp'. by simplify_eq.
    + rewrite aget_insert_ne by lia. apply Harr; [lia|done].
  - exists arr. split; [done|]. split; [done|]. intros j p Hp.
    apply Harr; [|done]. apply lookup_lt_Some in Hp. lia.
Qed.

Lemma resort_scatter_loop (index ix_c : list Z) s k :
  0 ≤ s → s ≤ k → k ≤ Z.of_nat (length index) → Z.of_nat (length ix_c) = k - s →
  ∃ index',
    for_up s k (λ j index, v ← aget ix_c (j - s); aset index j v) index = Some index' ∧
    length index' = length index ∧
    (∀ i, ¬ (s ≤ i < k) → aget index' i = aget index i) ∧
    ∀ j, 0 ≤ j < k - s → aget index' (s + j) = aget ix_c j.
Proof.
  intros Hs Hsk Hk Hlen.
  destruct (for_up_inv
    (λ i arr, length arr = length index ∧
              (∀ i', ¬ (s ≤ i' < i) → aget arr i' = aget index i') ∧
              ∀ j, 0 ≤ j < i - s → aget arr (s + j) = aget ix_c j)
    (λ j index, v ← aget ix_c (j - s); aset index j v) s k index)
    as (arr & -> & Hl & Hout & Hin); [lia| | |by exists arr].
  - split_and!; [done|done|intros; lia].
  - intros i arr ? (Hl & Hout & Hin).
    destruct (aget_row ix_c (i - s)) as (v & Hv & _); [lia|]. rewrite Hv. obind.
    rewrite aset_Some by lia. eexists. split; [done|].
    rewrite length_insert. split_and!; [done| |].
    + intros i' ?. rewrite aget_insert_ne by lia. apply Hout. lia.
    + intros j ?. destruct (decide (j = i - s)) as [->|].
      * replace (s + (i - s)) with i by lia. by rewrite aget_insert_eq by lia.
      * rewrite aget_insert_ne by lia. apply Hin. lia.
Qed.

(** The repair of one block: the sort of the second halves gives the
    order in which the block of the index is rewritten. *)
Lemma panel128_resort_spec ok R (h2 index : list Z) s k :
  (∀ a, ok a = true) →
  length index = length h2 → Z.of_nat (length h2) < 2 ^ 31 →
  0 ≤ s → s < k → k ≤ Z.of_nat (length h2) →
  0 < R < 31 →
  (∀ h, h ∈ h2 → 0 ≤ h < 2 ^ 64 - 1 ∧ h < 2 ^ (R * (64 / R)) ∧
                 ¬ ∃ j, 1 ≤ j ∧ h = 2 ^ (R * j)) →
  ∃ index',
    panel128_resort ok R h2 index s k = Some (inr index') ∧
    length index' = length index ∧
    (∀ i, ¬ (s ≤ i < k) → aget index' i = aget index i) ∧
    block_refined h2 index index' s k.
Proof.
  intros Hok Hlen HN Hs Hsk Hk HR Hkeys.
  pose proof (length_slice h2 s k ltac:(lia) ltac:(lia) Hk) as Hsl.
  unfold panel128_resort, calloc. rewrite !Hok.
  assert (wrap64 (k - s) = k - s) as ->.
  { unfold wrap64. apply Z.mod_small. lia. }
  rewrite resort_copy_loop by lia. obind.
  destruct (mf_radix_sort_index_block ok 0 (slice h2 s k) (replicate (Z.to_nat (k - s)) 0) R)
    as (H' & σ & Hsort & Hσ); [done| |lia|lia|done| |].
  { rewrite length_replicate. lia. }
  { intros h Hh%elem_of_slice. by apply Hkeys. }
  rewrite Hsl in Hsort. rewrite Hsort. obind.
  pose proof (sorted_by_index_length _ _ _ Hσ) as Hlσ.
  destruct (resort_gather_loop index σ s (Z.to_nat (k - s))) as (ix_c & Hg & Hlc & Hc).
  { lia. }
  { lia. }
  { intros j p Hp. pose proof (sorted_by_index_bound _ _ _ _ _ Hσ Hp). lia. }
  { lia. }
  rewrite Z2Nat.id in Hg by lia. rewrite Hg. obind.
  destruct (resort_scatter_loop index ix_c s k) as (index' & -> & Hl' & Hout & Hin);
    [lia..|].
  obind. exists index'. split_and!; [done..|].
  exists H', σ. split; [done|]. intros j p Hp.
  rewrite Hin by (apply lookup_lt_Some in Hp; lia). by apply Hc.
Qed.

(** A block whose second halves are all equal is in their order as it
    is. *)
Lemma block_refined_const (h2 index index' : list Z) a b :
  0 ≤ a → a < b → b ≤ Z.of_nat (length h2) →
  (∀ i, a ≤ i < b → aget h2 i = aget h2 a) →
  (∀ i, a ≤ i < b → aget index' i = aget index i) →
  block_refined h2 index index' a b.
Proof.
  intros Ha Hab Hb Hconst Hsame.
  pose proof (length_slice h2 a b Ha ltac:(lia) Hb) as Hsl.
  destruct (aget_row h2 a) as (v & Hv & _); [lia|].
  assert (∀ x, x ∈ slice h2 a b → x = v) as Hall.
  { intros x [j Hj]%list_elem_of_lookup_1.
    pose proof (lookup_lt_Some _ _ _ Hj).
    rewrite <-aget_nat, aget_slice, Hconst in Hj by lia. congruence. }
  exists (slice h2 a b), (seqZ 0 (b - a)). split.
  - unfold sorted_by_index. rewrite Hsl. split_and!.
    + apply (StronglySorted_impl (λ _ _, True)); [|by apply StronglySorted_total].
      intros x y Hx Hy _. rewrite (Hall x Hx), (Hall y Hy). lia.
    + done.
    + intros j i Hi. apply lookup_seqZ in Hi as [-> _]. by rewrite Z.add_0_l, Nat2Z.id.
    + intros k1 k2 i1 i2 ? H1 H2 _.
      apply lookup_seqZ in H1 as [-> _]. apply lookup_seqZ in H2 as [-> _]. lia.
  - intros j p Hp. apply lookup_seqZ in Hp as [-> ?]. rewrite Z.add_0_l.
    apply Hsame. lia.
Qed.

(** A refined block stays refined when the index changes elsewhere. *)
Lemma block_refined_outside (h2 index ix ix' : list Z) a b :
  0 ≤ a → a ≤ b → b ≤ Z.of_nat (length h2) →
  block_refined h2 index ix a b →
  (∀ i, a ≤ i < b → aget ix' i = aget ix i) →
  block_refined h2 index ix' a b.
Proof.
  intros Ha Hab Hb (H' & σ & Hσ & Hix) Hsame.
  exists H', σ. split; [done|]. intros j p Hp.
  rewrite Hsame; [by apply Hix|].
  pose proof (sorted_by_index_length _ _ _ Hσ). pose proof (length_slice h2 a b Ha Hab Hb).
  apply lookup_lt_Some in Hp. lia.
Qed.

(** One turn of the scan of [mf_panelsetup128]. *)
Lemma panel128_step ok R (h1 h2 index0 : list Z) k st :
  (∀ a, ok a = true) →
  length h2 = length h1 → length index0 = length h1 → Z.of_nat (length h1) < 2 ^ 31 →
  0 < R < 31 →
  (∀ h, h ∈ h2 → 0 ≤ h < 2 ^ 64 - 1 ∧ h < 2 ^ (R * (64 / R)) ∧
                 ¬ ∃ j, 1 ≤ j ∧ h = 2 ^ (R * j)) →
  1 ≤ k < Z.of_nat (length h1) →
  panel128_inv h1 h2 index0 k st →
  ∃ st', panel128_body ok R h1 h2 k st = Some (inr st') ∧
         panel128_inv h1 h2 index0 (k + 1) st'.
Proof.
  intros Hok Hl2 Hl0 HN HR Hkeys Hk.
  destruct st as [il l el ix c]. unfold panel128_inv at 1.
  cbn [p_info p_l p_el p_index p_collision64].
  intros (Hp & Hlen & Hc & Hopen & Hmono & Hclosed).
  destruct (panel_step h1 k (il, l, el)) as ([[il1 l1] el1] & Hb & Hp1); [lia|done|].
  pose proof Hp as (Hil & Hl & H0 & (s & Hs & Hsk & Hrun) & Hg).
  unfold panel128_body, panel_body in *. cbn [p_info p_l p_el p_index p_collision64].
  destruct (aget h1 k) as [hk|] eqn:Hhk; simpl in Hb; [|done]. obind.
  destruct (decide (hk ≠ el)) as [Hne|Heq]; cycle 1.
  { injection Hb as <- <- <-. eexists. split; [done|].
    unfold panel128_inv. cbn [p_info p_l p_el p_index p_collision64]. done. }
  destruct (aset il l k) as [il'|] eqn:Hset; simpl in Hb; [|done].
  apply aset_inv in Hset as [Hlk ->]. injection Hb as <- <- <-.
  rewrite Hs. obind.
  destruct (mf_check_allequal_run h2 s k) as (alleq & -> & Halleq); [lia|lia|]. obind.
  assert (∀ g a, 0 ≤ g ≤ l - 1 → aget il g = Some a → a ≤ s) as Hle.
  { intros g a ? Ha. destruct (decide (g = l - 1)) as [->|]; [simplify_eq; lia|].
    pose proof (Hmono g (l - 1) a s ltac:(lia) ltac:(lia) Ha Hs). lia. }
  assert (∀ ix',
    length ix' = length index0 →
    (∀ i, ¬ (s ≤ i < k) → aget ix' i = aget ix i) →
    block_refined h2 index0 ix' s k →
    ∀ c', 0 ≤ c' ≤ l + 1 - 1 →
    panel128_inv h1 h2 index0 (k + 1) (Panel128 (<[Z.to_nat l := k]> il) (l + 1) hk ix' c'))
    as Hnext.
  { intros ix' Hlen' Hout Hblk c' Hc'. unfold panel128_inv.
    cbn [p_info p_l p_el p_index p_collision64].
    replace (l + 1 - 1) with l by lia. rewrite aget_insert_eq by lia.
    split_and!; [exact Hp1|done|lia|lia| | |].
    - intros s' [= <-] i ?. rewrite Hout by lia. apply (Hopen s Hs). lia.
    - intros g g' a b ?? Ha Hb'. rewrite aget_insert_ne in Ha by lia.
      destruct (decide (g' = l)) as [->|].
      + rewrite aget_insert_eq in Hb' by lia. simplify_eq.
        pose proof (Hle g a ltac:(lia) Ha). lia.
      + rewrite aget_insert_ne in Hb' by lia. apply (Hmono g g' a b); [lia|lia|done..].
    - intros g a b ? Ha Hb'. rewrite aget_insert_ne in Ha by lia.
      destruct (decide (g = l - 1)) as [->|].
      + replace (l - 1 + 1) with l in Hb' by lia. rewrite aget_insert_eq in Hb' by lia.
        by simplify_eq.
      + rewrite aget_insert_ne in Hb' by lia.
        destruct (Hg g a b) as (? & ? & _); [lia|done..|].
        pose proof (Hle (g + 1) b ltac:(lia) Hb').
        apply (block_refined_outside h2 index0 ix); [lia|lia|lia| |].
        * apply (Hclosed g); [lia|done..].
        * intros i ?. apply Hout. lia. }
  destruct alleq.
  - obind. eexists. split; [done|].
    apply Hnext; [done|done| |lia].
    apply block_refined_const; [lia|lia|lia| |].
    + by apply Halleq.
    + intros i ?. apply (Hopen s Hs). lia.
  - destruct (panel128_resort_spec ok R h2 ix s k) as (ix' & -> & Hlen' & Hout & Hblk);
      [done|lia|lia|lia|lia|lia|done|done|].
    obind. eexists. split; [done|].
    apply Hnext; [lia|done| |lia].
    destruct Hblk as (H' & σ & Hσ & Hix). exists H', σ. split; [done|].
    intros j p Hj. rewrite (Hix j p Hj). apply (Hopen s Hs).
    pose proof (sorted_by_index_bound _ _ _ _ _ Hσ Hj). lia.
Qed.

Lemma panel128_loop_refines ok R (h1 h2 index0 : list Z) (n : nat) k st :
  (∀ a, ok a = true) →
  length h2 = length h1 → length index0 = length h1 → Z.of_nat (length h1) < 2 ^ 31 →
  0 < R < 31 →
  (∀ h, h ∈ h2 → 0 ≤ h < 2 ^ 64 - 1 ∧ h < 2 ^ (R * (64 / R)) ∧
                 ¬ ∃ j, 1 ≤ j ∧ h = 2 ^ (R * j)) →
  1 ≤ k → k + Z.of_nat n ≤ Z.of_nat (length h1) →
  panel128_inv h1 h2 index0 k st →
  ∃ st', panel128_loop n ok R h1 h2 k st = Some (inr st') ∧
         panel128_inv h1 h2 index0 (k + Z.of_nat n) st'.
Proof.
  intros Hok Hl2 Hl0 HN HR Hkeys. revert k st.
  induction n as [|n IH]; intros k st Hk Hn Hinv.
  - exists st. replace (k + Z.of_nat 0) with k by lia. done.
  - destruct (panel128_step ok R h1 h2 index0 k st) as (st1 & Hb & Hinv1); [done..|lia|done|].
    destruct (IH (k + 1) st1) as (st' & Hl & Hinv'); [lia|lia|done|].
    exists st'. cbn [panel128_loop]. rewrite Hb. obind.
    replace (k + Z.of_nat (S n)) with (k + 1 + Z.of_nat n) by lia. done.
Qed.

(** X21.  [mf_panelsetup128] on two rows or more, when the sort of the
    second halves is within its means (fewer than [2^31] rows; a radix of
    [2^30] at most, as far as the [int] counter of a pass goes; no second
    half that is [2^64 - 1], too wide for [64 / RADIX_SHIFT] digits or an
    exact power of the radix): it returns the panel of the first halves;
    in every group but the last the index holds the entries it had, in
    the stable order of the second halves of their rows; the last group,
    which the scan never closes, is as it was. *)
Theorem mf_panelsetup128_refines ok R (h1 h2 index : list Z) :
  (∀ a, ok a = true) →
  length h2 = length h1 → length index = length h1 →
  2 ≤ Z.of_nat (length h1) → Z.of_nat (length h1) < 2 ^ 31 →
  0 < R < 31 →
  (∀ h, h ∈ h2 → 0 ≤ h < 2 ^ 64 - 1 ∧ h < 2 ^ (R * (64 / R)) ∧
                 ¬ ∃ j, 1 ≤ j ∧ h = 2 ^ (R * j)) →
  ∃ info J index' collisions,
    mf_panelsetup128 ok R h1 h2 index (Z.of_nat (length h1))
    = Some (Some info, J, index', collisions) ∧
    panel128_of h1 h2 index index' info J collisions.
Proof.
  intros Hok Hl2 Hl0 HN2 HN HR Hkeys. unfold mf_panelsetup128, calloc. rewrite !Hok.
  destruct (aget_row h1 0) as (el & Hel & _); [lia|]. rewrite Hel. obind.
  assert (wrap64 (Z.of_nat (length h1) + 1) = Z.of_nat (length h1) + 1) as ->.
  { unfold wrap64. apply Z.mod_small. lia. }
  rewrite aset_Some by (rewrite length_replicate; lia). obind.
  destruct (panel128_loop_refines ok R h1 h2 index
              (S (Z.to_nat (Z.of_nat (length h1) - 2))) 1
              (Panel128 (<[Z.to_nat 0 := 0]>
                           (replicate (Z.to_nat (Z.of_nat (length h1) + 1)) 0)) 1 el index 0))
    as ([il l el' ix c] & -> & Hinv); [done..|lia|lia| |].
  { unfold panel128_inv. cbn [p_info p_l p_el p_index p_collision64].
    split_and!; [|done|lia|lia| | |].
    - apply panel_start; [lia|done].
    - intros s _ i _. done.
    - intros; lia.
    - intros; lia. }
  replace (1 + Z.of_nat (S (Z.to_nat (Z.of_nat (length h1) - 2))))
    with (Z.of_nat (length h1)) in Hinv by lia.
  destruct Hinv as (Hp & Hlen & Hc & Hopen & Hmono & Hclosed).
  cbn [p_info p_l p_el p_index p_collision64] in *. obind.
  cbn [p_info p_l p_el p_index p_collision64]. pose proof Hp as (Hil & Hl & _).
  rewrite aset_Some by lia. obind.
  assert (wrap64 (l + 1) = l + 1) as ->.
  { unfold wrap64. apply Z.mod_small. lia. }
  destruct (copy_loop_run (<[Z.to_nat l := Z.of_nat (length h1)]> il) (l + 1))
    as (out & -> & Hout & Hcopy).
  { rewrite length_insert. lia. }
  obind. exists out, l, ix, c. split; [done|].
  unfold panel128_of. split_and!; [by eapply panel_of_scan|done|lia|lia| |].
  - intros g a b ? Ha Hb. rewrite Hcopy in Ha, Hb by lia.
    rewrite aget_insert_ne in Ha, Hb by lia. by apply (Hclosed g).
  - intros s Hs i ?. rewrite Hcopy in Hs by lia. rewrite aget_insert_ne in Hs by lia.
    by apply (Hopen s).
Qed.

Lemma mf_panelsetup128_refines_witness :
  ∃ info J index' collisions,
    mf_panelsetup128 all_ok 8 [7; 7; 8] [2; 1; 5] [0; 1; 2] (Z.of_nat (length [7; 7; 8]))
    = Some (Some info, J, index', collisions) ∧
    panel128_of [7; 7; 8] [2; 1; 5] [0; 1; 2] index' info J collisions.
Proof.
  apply (mf_panelsetup128_refines all_ok 8 [7; 7; 8] [2; 1; 5] [0; 1; 2]).
  - reflexivity.
  - reflexivity.
  - reflexivity.
  - simpl. lia.
  - simpl. lia.
  - lia.
  - intros h Hh. apply (elem_of_concrete (λ h, 1 ≤ h ≤ 5) [2; 1; 5]) in Hh;
      [|repeat constructor; lia].
    split; [lia|]. split.
    { change (2 ^ (8 * (64 / 8))) with 18446744073709551616. lia. }
    intros (j & Hj & Heq).
    pose proof (Z.pow_le_mono_r 2 8 (8 * j) ltac:(lia) ltac:(lia)). lia.
Defined.

(** * Further properties of the parts of the sorts *)

Lemma sorts_keys_of_rows (f : list Z → list Z → option sort_result) H I out :
  length H = length I →
  f ((rows H I).*1) ((rows H I).*2) = Some (0, out.*1, out.*2) →
  stable_sort_of (rows H I) out → sorts_keys f H I.
Proof.
  intros Hlen Hf Hst. rewrite fst_rows, snd_rows in Hf by done.
  exists (out.*1), (out.*2). split_and!; [done| | |].
  - apply sorted_by_fst_keys, Hst.
  - rewrite (stable_sort_perm _ _ Hst). by rewrite fst_rows.
  - rewrite (stable_sort_perm _ _ Hst). by rewrite snd_rows.
Qed.

(** X22.  Every whole sort returns status 0 and the keys in
    non-decreasing order, with the keys and the index it was given
    rearranged: the counting sorts of both files and the radix sorts of 8
    and 16 bits.  For [mf_counting_sort_index] the rows are fewer than
    [2^31] and the range [max - min + 2] is below [2^31], as far as its
    [int] counter goes. *)
Theorem sorts_put_in_order ok (H I : list Z) :
  (∀ s, ok s = true) → length H = length I →
  (∀ h, h ∈ H → 0 ≤ h < 2 ^ 64) →
  all_sorts_sort ok H I.
Proof.
  intros Hok Hlen Hkeys.
  pose proof (length_rows H I Hlen) as Hrows.
  assert (∀ a, a ∈ rows H I → 0 ≤ a.1 < 2 ^ 64) as Hkeys'.
  { intros a Ha%elem_of_rows_fst. by apply Hkeys. }
  unfold all_sorts_sort. cbv zeta. rewrite <-Hrows. split_and!.
  - intros HN min max ???? Hb.
    apply (sorts_keys_of_rows _ H I (counting_order min max (rows H I)) Hlen).
    + apply gf_counting_sort_rows; [done..|].
      intros a Ha%elem_of_rows_fst. by apply Hb.
    + apply counting_order_stable. intros a Ha%elem_of_rows_fst. by apply Hb.
  - intros HN min max ???? Hb.
    apply (sorts_keys_of_rows _ H I (counting_order min max (rows H I)) Hlen).
    + apply mf_counting_sort_index_rows; [done..|].
      intros a Ha%elem_of_rows_fst. by apply Hb.
    + apply counting_order_stable. intros a Ha%elem_of_rows_fst. by apply Hb.
  - intros HN. split_and!.
    + apply (sorts_keys_of_rows _ H I (lsd_sort 8 8 (rows H I)) Hlen).
      * by apply gf_radix_sort8_rows.
      * apply lsd_sort_stable; [lia|]. intros a Ha%Hkeys'. simpl. lia.
    + apply (sorts_keys_of_rows _ H I (lsd_sort 16 4 (rows H I)) Hlen).
      * by apply gf_radix_sort16_rows.
      * apply lsd_sort_stable; [lia|]. intros a Ha%Hkeys'. simpl. lia.
    + apply (sorts_keys_of_rows _ H I (lsd_sort 16 4 (rows H I)) Hlen).
      * by apply gf_radix_psort16_rows.
      * apply lsd_sort_stable; [lia|]. intros a Ha%Hkeys'. simpl. lia.
Qed.

Lemma sorts_put_in_order_witness : all_sorts_sort all_ok [3; 1; 4; 1; 5] [0; 1; 2; 3; 4].
Proof.
  apply (sorts_put_in_order all_ok [3; 1; 4; 1; 5] [0; 1; 2; 3; 4]).
  - reflexivity.
  - reflexivity.
  - apply elem_of_concrete. repeat constructor; lia.
Defined.

(** X23.  A worker of [gf_radix_psort16] leaves, for every digit value
    [d], the number of keys whose digit at [16 * thread] is below [d]:
    the place where the first key with digit [d] goes. *)
Theorem gf_radix_counts16_offsets (hash : list Z) thread :
  Z.of_nat (length hash) < 2 ^ 32 → thread ∈ [0; 1; 2; 3] →
  ∃ c, gf_radix_counts16 hash (replicate (Z.to_nat 65536) 0) 65536
         (Z.of_nat (length hash)) thread = Some c ∧
       ∀ d, 0 ≤ d < 65536 →
         aget c d
         = Some (Z.of_nat (length (filter (λ h, digit (16 * thread) 65535 h < d) hash))).
Proof.
  intros HN Ht.
  destruct (gf_radix_counts16_spec ((λ h, (h, 0)) <$> hash) thread) as (c & Hc & Htab).
  { by rewrite length_fmap. }
  { done. }
  assert (((λ h, (h, 0)) <$> hash).*1 = hash) as Hfst.
  { rewrite <-list_fmap_compose. apply list_fmap_id. }
  rewrite Hfst, length_fmap in Hc. exists c. split; [done|].
  intros d Hd. destruct Htab as [_ Htab]. rewrite Htab by (simpl; lia).
  f_equal. unfold cnt_lt. f_equal.
  rewrite filter_fmap_comm, length_fmap. reflexivity.
Qed.

Lemma gf_radix_counts16_offsets_witness :
  ∃ c, gf_radix_counts16 [70000; 3; 65536] (replicate (Z.to_nat 65536) 0) 65536
         (Z.of_nat (length [70000; 3; 65536])) 1 = Some c ∧
       ∀ d, 0 ≤ d < 65536 →
         aget c d
         = Some (Z.of_nat (length (filter (λ h, digit (16 * 1) 65535 h < d)
                                     [70000; 3; 65536]))).
Proof.
  apply (gf_radix_counts16_offsets [70000; 3; 65536] 1).
  - simpl. lia.
  - repeat constructor.
Defined.

(** X24.  The histograms of the 16-bit radix sorts are used as they
    come from [calloc]: when [hcopy] and [ixcopy] are there and [counts],
    one of its four tables, [pinfo] or one of the four [pcounts] is not,
    [gf_radix_sort16] and [gf_radix_psort16] go through the NULL pointer
    instead of returning a status. *)
Theorem radix_sorts_unchecked_allocations ok (hash index : list Z) N :
  (ok "gf_radix_sort16.hcopy" = true → ok "gf_radix_sort16.ixcopy" = true →
   ok "gf_radix_sort16.counts" && ok "gf_radix_sort16.counts->c4"
     && ok "gf_radix_sort16.counts->c3" && ok "gf_radix_sort16.counts->c2"
     && ok "gf_radix_sort16.counts->c1" = false →
   gf_radix_sort16 ok hash index N = None) ∧
  (ok "gf_radix_psort16.hcopy" = true → ok "gf_radix_psort16.ixcopy" = true →
   ok "gf_radix_psort16.pinfo" && ok "gf_radix_psort16.pcounts4"
     && ok "gf_radix_psort16.pcounts3" && ok "gf_radix_psort16.pcounts2"
     && ok "gf_radix_psort16.pcounts1" = false →
   gf_radix_psort16 ok hash index N = None).
Proof.
  split; intros Hh Hi Hfail.
  - unfold gf_radix_sort16, calloc. rewrite Hh, Hi.
    destruct (ok "gf_radix_sort16.counts"); [|reflexivity].
    destruct (ok "gf_radix_sort16.counts->c4"); [|reflexivity].
    destruct (ok "gf_radix_sort16.counts->c3"); [|reflexivity].
    destruct (ok "gf_radix_sort16.counts->c2"); [|reflexivity].
    destruct (ok "gf_radix_sort16.counts->c1"); [discriminate Hfail|reflexivity].
  - unfold gf_radix_psort16, calloc. rewrite Hh, Hi.
    destruct (ok "gf_radix_psort16.pinfo"); [|reflexivity]. obind.
    destruct (ok "gf_radix_psort16.pcounts4"); [|reflexivity]. obind.
    destruct (gf_radix_counts16 hash _ 65536 N 0); [|reflexivity]. obind.
    destruct (ok "gf_radix_psort16.pcounts3"); [|reflexivity]. obind.
    destruct (gf_radix_counts16 hash _ 65536 N 1); [|reflexivity]. obind.
    destruct (ok "gf_radix_psort16.pcounts2"); [|reflexivity]. obind.
    destruct (gf_radix_counts16 hash _ 65536 N 2); [|reflexivity]. obind.
    destruct (ok "gf_radix_psort16.pcounts1"); [discriminate Hfail|reflexivity].
Qed.

Lemma radix_sorts_unchecked_allocations_witness :
  gf_radix_psort16 (λ s, negb (String.eqb s "gf_radix_psort16.pcounts3")) [2; 1] [0; 1] 2 = None.
Proof.
  apply (proj2 (radix_sorts_unchecked_allocations
                  (λ s, negb (String.eqb s "gf_radix_psort16.pcounts3")) [2; 1] [0; 1] 2)).
  - reflexivity.
  - reflexivity.
  - reflexivity.
Defined.

(** * The two entry points *)

(** X25.  The sort entry points of the two files agree: given the
    identity index, [gf_sort_hash] returns the keys and the index that
    [mf_radix_sort_index] returns on the same keys, for the keys that
    [mf_radix_sort_index] is meant for and a radix of [2^30] at most, as
    far as the [int] counter of its passes goes. *)
Theorem entry_points_agree ok logq (x index : list Z) dshift :
  (∀ s, ok s = true) →
  length index = length x → (0 < length x)%nat → Z.of_nat (length x) < 2 ^ 31 →
  0 < dshift < 31 →
  (∀ h, h ∈ x → 0 ≤ h < 2 ^ 64 - 1 ∧ h < 2 ^ (dshift * (64 / dshift)) ∧
                ¬ ∃ j, 1 ≤ j ∧ h = 2 ^ (dshift * j)) →
  ∃ H' I',
    mf_radix_sort_index ok logq x index (Z.of_nat (length x)) dshift false
    = Some (0, H', I') ∧
    gf_sort_hash ok x (seqZ 0 (Z.of_nat (length x))) (Z.of_nat (length x))
    = Some (0, H', I').
Proof.
  intros Hok Hlen Hpos HN Hd Hkeys.
  destruct (mf_radix_sort_index_block_rows ok logq x index dshift) as (out & -> & Hst);
    [done..|].
  assert (length x = length (seqZ 0 (Z.of_nat (length x)))) as Hlen'.
  { rewrite length_seqZ. lia. }
  destruct (gf_sort_hash_rows ok x (seqZ 0 (Z.of_nat (length x))) Hok Hlen' Hpos)
    as (out' & -> & Hst').
  { lia. }
  { intros h Hh. destruct (Hkeys _ Hh) as (? & _). lia. }
  { intros [_ Hh]. destruct (Hkeys _ Hh) as (? & _). lia. }
  rewrite (stable_sort_unique _ _ _ Hst Hst'). by eexists _, _.
Qed.

Lemma entry_points_agree_witness :
  ∃ H' I',
    mf_radix_sort_index all_ok 0 [4294967301; 0; 7] [9; 9; 9]
      (Z.of_nat (length [4294967301; 0; 7])) 16 false = Some (0, H', I') ∧
    gf_sort_hash all_ok [4294967301; 0; 7] (seqZ 0 (Z.of_nat (length [4294967301; 0; 7])))
      (Z.of_nat (length [4294967301; 0; 7])) = Some (0, H', I').
Proof.
  apply (entry_points_agree all_ok 0 [4294967301; 0; 7] [9; 9; 9] 16).
  - reflexivity.
  - reflexivity.
  - simpl. lia.
  - simpl. lia.
  - lia.
  - intros h Hh.
    apply (elem_of_concrete (λ h, 0 ≤ h ≤ 7 ∨ h = 4294967301) [4294967301; 0; 7]) in Hh;
      [|repeat constructor; lia].
    split; [lia|]. split.
    { change (2 ^ (16 * (64 / 16))) with 18446744073709551616. lia. }
    intros (j & Hj & Heq).
    destruct (decide (j ≤ 2)) as [Hle|Hgt].
    + assert (j = 1 ∨ j = 2) as Hj2 by lia.
      destruct Hj2 as [Hj2|Hj2]; subst j.
      * change (2 ^ (16 * 1)) with 65536 in Heq. lia.
      * change (2 ^ (16 * 2)) with 4294967296 in Heq. lia.
    + pose proof (Z.pow_le_mono_r 2 48 (16 * j) ltac:(lia) ltac:(lia)).
      change (2 ^ 48) with 281474976710656 in *. lia.
Defined.

(** X26.  [gf_sort_hash] uses its two copies as they come from
    [calloc]: on the radix path with at least one row, when [copy_hash] or
    [copy_index] cannot be had, the copy loop stores through the NULL
    pointer. *)
Theorem gf_sort_hash_unchecked_copies ok (hash index : list Z) N min max :
  GTOOLS_MIN hash N = Some min → GTOOLS_MAX hash N = Some max →
  2 ^ 24 ≤ wrap64 (max - min + 1) → 0 < N →
  ok "gf_sort_hash.copy_hash" && ok "gf_sort_hash.copy_index" = false →
  gf_sort_hash ok hash index N = None.
Proof.
  intros Hmin Hmax Hrange HN Hfail. unfold gf_sort_hash. rewrite Hmin, Hmax. obind.
  rewrite decide_False by lia.
  rewrite (for_up_fault (λ st : option (list Z) * option (list Z), st.1 = None ∨ st.2 = None)
             _ 0 N _ 0); [done|lia| | |].
  - unfold calloc. destruct (ok "gf_sort_hash.copy_hash"); [|by left].
    destruct (ok "gf_sort_hash.copy_index"); [done|by right].
  - intros; lia.
  - intros [ch ci] [Hn|Hn]; simpl in Hn; subst; unfold sort_hash_copy_body; [done|].
    destruct ch as [ch|]; [|done]. obind.
    destruct (aget hash 0) as [h|]; [|done]. obind.
    destruct (aset ch 0 h); done.
Qed.

Lemma gf_sort_hash_unchecked_copies_witness :
  gf_sort_hash (λ s, negb (String.eqb s "gf_sort_hash.copy_index"))
    [1099511627776; 0; 7] [0; 1; 2] 3 = None.
Proof.
  apply (gf_sort_hash_unchecked_copies (λ s, negb (String.eqb s "gf_sort_hash.copy_index"))
           [1099511627776; 0; 7] [0; 1; 2] 3 0 1099511627776).
  - vm_compute. reflexivity.
  - vm_compute. reflexivity.
  - vm_compute. discriminate.
  - lia.
  - reflexivity.
Defined.

(** * The comparator of gtools_math.c *)

Lemma digits2_pos_bound (m : positive) : Z.pos m < 2 ^ Z.pos (digits2_pos m).
Proof.
  induction m as [m IH|m IH|]; simpl.
  - rewrite Pos2Z.inj_succ, Z.pow_succ_r by lia. lia.
  - rewrite Pos2Z.inj_succ, Z.pow_succ_r by lia. lia.
  - lia.
Qed.

Lemma valid_mantissa s m e :
  valid_binary (S754_finite s m e) = true → Z.pos m < 2 ^ 53.
Proof.
  unfold valid_binary, SpecFloat.valid_binary, bounded, canonical_mantissa.
  intros [Hc _]%andb_true_iff. apply Z.eqb_eq in Hc.
  unfold fexp, emin, prec, emax in Hc.
  pose proof (digits2_pos_bound m).
  assert (Z.pos (digits2_pos m) ≤ 53) by lia.
  pose proof (Z.pow_le_mono_r 2 (Z.pos (digits2_pos m)) 53 ltac:(lia) ltac:(lia)). lia.
Qed.

Lemma Prim2SF_zero : Prim2SF 0 = S754_zero false.
Proof. vm_compute. reflexivity. Qed.

Lemma Prim2SF_one : Prim2SF 1 = S754_finite false 4503599627370496 (-52).
Proof. vm_compute. reflexivity. Qed.

Lemma SFltb_finite (m m' : positive) (e e' : Z) :
  SFltb (S754_finite false m e) (S754_finite false m' e') = true →
  e < e' ∨ (e = e' ∧ (m < m')%positive).
Proof.
  unfold SFltb, SFcompare.
  destruct (Z.compare_spec e e') as [Heq|He|He]; [|by left|done].
  rewrite Pos.compare_cont_spec. unfold Pos.switch_Eq.
  destruct (Pos.compare_spec m m') as [?|Hm|?]; [done| |done].
  by right.
Qed.

(** A double in [0, 1) is cut to 0. *)
Lemma below_one_SF (sx : spec_float) :
  valid_binary sx = true →
  SFleb (S754_zero false) sx = true →
  SFltb sx (S754_finite false 4503599627370496 (-52)) = true →
  sx = S754_zero false ∨ sx = S754_zero true ∨
  ∃ m e, sx = S754_finite false m e ∧ e < 0 ∧ Z.pos m < 2 ^ (- e).
Proof.
  intros Hv Hle Hlt.
  destruct sx as [[]|[]| |[] m e];
    [by right; left|by left|discriminate Hle|discriminate Hlt|discriminate Hle
    |discriminate Hle|].
  right. right. exists m, e. split; [done|].
  apply valid_mantissa in Hv. clear Hle.
  apply SFltb_finite in Hlt as [He|[-> Hm]].
  - split; [lia|].
    eapply Z.lt_le_trans; [exact Hv|]. apply Z.pow_le_mono_r; lia.
  - clear Hv. split; [done|].
    assert (2 ^ (- -52) = 4503599627370496) as -> by (vm_compute; reflexivity).
    exact (Pos2Z.pos_lt_pos _ _ Hm).
Qed.

Lemma below_one (x : float) :
  (0 <=? x)%float = true → (x <? 1)%float = true →
  Prim2SF x = S754_zero false ∨ Prim2SF x = S754_zero true ∨
  ∃ m e, Prim2SF x = S754_finite false m e ∧ e < 0 ∧ Z.pos m < 2 ^ (- e).
Proof.
  rewrite FloatAxioms.leb_spec, FloatAxioms.ltb_spec, Prim2SF_zero, Prim2SF_one.
  apply below_one_SF, Prim2SF_valid.
Qed.

Lemma c_int_of_double_small s m e :
  e < 0 → Z.pos m < 2 ^ (- e) →
  (let mag := if decide (0 ≤ e) then Z.pos m * 2 ^ e else Z.pos m / 2 ^ (- e) in
   let z := if s : bool then - mag else mag in
   if decide (- 2 ^ 31 ≤ z < 2 ^ 31) then Some z else None) = Some 0.
Proof.
  intros He Hm. cbv zeta. destruct (decide (0 ≤ e)); [lia|].
  rewrite Z.div_small by lia. by destruct s.
Qed.

(** X27.  [mf_qsort_compare] cuts its first operand to an [int] and the
    difference again: it answers 0, "equal", for any two doubles from 0 up
    to 1, whatever their order. *)
Theorem mf_qsort_compare_below_one (a b : float) :
  (0 <=? a)%float = true → (a <? 1)%float = true →
  (0 <=? b)%float = true → (b <? 1)%float = true →
  mf_qsort_compare a b = Some 0.
Proof.
  intros Ha0 Ha1 Hb0 Hb1. unfold mf_qsort_compare.
  assert (c_int_of_double a = Some 0) as ->.
  { unfold c_int_of_double.
    destruct (below_one a Ha0 Ha1) as [->|[->|(m & e & -> & He & Hm)]]; [done..|].
    by apply (c_int_of_double_small false m e). }
  cbn [mbind option_bind].
  assert (double_of_int 0 = 0%float) as -> by (vm_compute; reflexivity).
  unfold c_int_of_double. rewrite sub_spec, Prim2SF_zero.
  destruct (below_one b Hb0 Hb1) as [->|[->|(m & e & -> & He & Hm)]]; [done..|].
  by apply (c_int_of_double_small true m e).
Qed.

Lemma mf_qsort_compare_below_one_witness : mf_qsort_compare 0.75 0.25 = Some 0.
Proof.
  apply (mf_qsort_compare_below_one 0.75 0.25); vm_compute; reflexivity.
Defined.

(** * The [int] counters of the [mf_] sorts *)

(** X28.  The sorts of the [mf_] file count their loops in [int]: with
    the buffers allocated, a counter array of [2^31] entries or more
    ([mf_counting_sort_index]), a radix of [2^31] or more
    ([mf_radix_sort_index_pass]) or [2^31] rows or more
    ([mf_radix_sort_index]) takes the counter past [INT_MAX], and nothing
    is returned. *)
Theorem mf_sorts_overflow_int_counter ok logq (x index : list Z) N min max exp shift dshift raw :
  (∀ s, ok s = true) →
  (2 ^ 31 ≤ wrap64 (wrap64 (max - min + 1) + 1) →
   mf_counting_sort_index ok x index N min max = None) ∧
  (2 ^ 31 ≤ shift → mf_radix_sort_index_pass ok x index N exp shift = None) ∧
  (2 ^ 31 ≤ N → mf_radix_sort_index ok logq x index N dshift raw = None).
Proof.
  intros Hok. split_and!.
  - intros Hr. unfold mf_counting_sort_index, calloc. rewrite !Hok.
    cbv beta iota zeta. unfold mf_counting_loops.
    by rewrite for_up_int_overflow by lia.
  - intros Hs. unfold mf_radix_sort_index_pass, calloc. rewrite !Hok.
    cbv beta iota zeta. by rewrite for_up_int_overflow by lia.
  - intros HN. unfold mf_radix_sort_index.
    destruct (mf_max x N) as [mx|]; [|done].
    destruct (mf_min x N) as [mn|]; [|done]. obind.
    match goal with
    | |- context [mbind _ ?s] => destruct s as [[sh lo]|]; [|done]
    end.
    obind. by rewrite for_up_int_overflow by lia.
Qed.

Lemma mf_sorts_overflow_int_counter_witness :
  mf_radix_sort_index_pass all_ok [2; 1] [0; 1] 2 1 (2 ^ 31) = None.
Proof.
  apply (proj1 (proj2 (mf_sorts_overflow_int_counter all_ok 0 [2; 1] [0; 1] 2 1 2 1 (2 ^ 31)
                         16 false (λ _, eq_refl)))).
  lia.
Defined.

(** * The shape of a panel *)

(** The rule of [do ... while] for runs that return. *)
Lemma do_while_up_post {St} (Inv : Z → St → Prop) body lo hi (s s' : St) :
  do_while_up lo hi body s = Some s' →
  Inv lo s →
  (∀ k s s', lo ≤ k → Inv k s → body k s = Some s' → Inv (k + 1) s') →
  Inv (Z.max (lo + 1) hi) s'.
Proof.
  intros Hl H0 Hstep. unfold do_while_up in Hl.
  destruct (body lo s) as [s1|] eqn:Hb; simpl in Hl; [|done].
  pose proof (Hstep lo s s1 ltac:(lia) H0 Hb) as H1.
  destruct (decide (lo + 1 ≤ hi)).
  - rewrite Z.max_r by lia. eapply for_up_post; [done..|].
    intros k s2 s3 ???. eapply Hstep; [lia|done..].
  - rewrite for_up_empty in Hl by lia. rewrite Z.max_l by lia. by simplify_eq.
Qed.

(** The copy of the first [n] entries of [info_largest] into [info]. *)
Lemma copy_loop (src dst out : list Z) n :
  for_up 0 n (copy_body src) dst = Some out → 0 ≤ n →
  length out = length dst ∧ ∀ j, 0 ≤ j < n → aget out j = aget src j.
Proof.
  intros Hl Hn.
  apply (for_up_post (λ k arr, length arr = length dst ∧
                               ∀ j, 0 ≤ j < k → aget arr j = aget src j)
           _ _ _ _ _ Hl Hn).
  - split; [done|]. intros; lia.
  - intros k arr arr' ? [Hlen Hc] Hb. unfold copy_body in Hb.
    destruct (aget src k) as [v|] eqn:Hv; simpl in Hb; [|done].
    apply aset_inv in Hb as [? ->]. split; [by rewrite length_insert|].
    intros j ?. destruct (decide (j = k)) as [->|].
    + by rewrite aget_insert_eq by lia.
    + rewrite aget_insert_ne by lia. apply Hc. lia.
Qed.

(** What the last lines of both builders make of [info_largest]. *)
Lemma panel_finish ok name (il il' info : list Z) l N :
  1 ≤ l → Z.of_nat (length il) < 2 ^ 64 → aget il 0 = Some 0 →
  aset il l N = Some il' →
  calloc ok name (wrap64 (l + 1)) = Some info →
  ∀ out, for_up 0 (wrap64 (l + 1)) (copy_body il') info = Some out →
  Z.of_nat (length out) = l + 1 ∧ aget out 0 = Some 0 ∧ aget out l = Some N.
Proof.
  intros Hl Hlen H0 Hset Hinfo out Hcopy.
  apply aset_inv in Hset as [? ->].
  assert (wrap64 (l + 1) = l + 1) as Hw by (unfold wrap64; apply Z.mod_small; lia).
  rewrite Hw in *. unfold calloc in Hinfo. destruct (ok name); [|done].
  simplify_eq. apply copy_loop in Hcopy as [Hout Hc]; [|lia].
  rewrite length_replicate in Hout. split_and!.
  - lia.
  - rewrite Hc by lia. by rewrite aget_insert_ne by lia.
  - rewrite Hc by lia. by rewrite aget_insert_eq by lia.
Qed.

Lemma calloc_length ok name n (a : list Z) :
  calloc ok name (wrap64 n) = Some a → Z.of_nat (length a) < 2 ^ 64.
Proof.
  unfold calloc. destruct (ok name); [|done]. intros [= <-].
  rewrite length_replicate. unfold wrap64.
  pose proof (Z.mod_pos_bound n (2 ^ 64) ltac:(lia)). lia.
Qed.

Lemma mf_panelsetup_shape ok (h1 : list Z) N info J :
  mf_panelsetup ok h1 N = Some (Some info, J) →
  1 ≤ J ∧ Z.of_nat (length info) = J + 1 ∧ aget info 0 = Some 0 ∧ aget info J = Some N.
Proof.
  unfold mf_panelsetup. intros Hp.
  destruct (aget h1 0) as [el|]; simpl in Hp; [|done].
  destruct (calloc _ _ (wrap64 (N + 1))) as [il0|] eqn:Hil0; [|done].
  apply calloc_length in Hil0.
  destruct (aset il0 0 0) as [il1|] eqn:Hil1; simpl in Hp; [|done].
  apply aset_inv in Hil1 as [? ->].
  destruct (do_while_up _ _ _ _) as [[[il l] el']|] eqn:Hloop; simpl in Hp; [|done].
  apply (do_while_up_post
    (λ k st, length st.1.1 = length il0 ∧ 1 ≤ st.1.2 ∧ aget st.1.1 0 = Some 0)) in Hloop.
  - destruct Hloop as (Hlen & Hl & H0); simpl in *.
    destruct (aset il l N) as [il'|] eqn:Hil'; simpl in Hp; [|done].
    destruct (calloc _ _ (wrap64 (l + 1))) as [info0|] eqn:Hinfo; [|done].
    destruct (for_up _ _ _ info0) as [out|] eqn:Hcopy; simpl in Hp; [|done].
    simplify_eq. split; [done|].
    eapply (panel_finish _ _ il il' info0 J N); [done|lia|done..].
  - simpl. rewrite length_insert. split_and!; [done|lia|].
    by rewrite aget_insert_eq by lia.
  - intros k [[a l0] e0] s' _ (Hlen & Hl & H0) Hb; simpl in *.
    unfold panel_body in Hb.
    destruct (aget h1 k) as [hk|]; simpl in Hb; [|done].
    case_decide; [|by simplify_eq].
    destruct (aset a l0 k) as [a'|] eqn:Ha; simpl in Hb; [|done].
    apply aset_inv in Ha as [? ->]. simplify_eq. simpl.
    rewrite length_insert. split_and!; [done|lia|].
    by rewrite aget_insert_ne by lia.
Qed.

Lemma panel128_loop_shape ok R (h1 h2 : list Z) n i st st' :
  panel128_loop n ok R h1 h2 i st = Some (inr st') →
  1 ≤ p_l st → aget (p_info st) 0 = Some 0 →
  length (p_info st') = length (p_info st) ∧ 1 ≤ p_l st' ∧ aget (p_info st') 0 = Some 0.
Proof.
  revert i st. induction n as [|n IH]; intros i st Hl Hl1 H0; simpl in Hl.
  - by simplify_eq.
  - destruct (panel128_body ok R h1 h2 i st) as [[ix|st1]|] eqn:Hb; simpl in Hl; [done| |done].
    assert (length (p_info st1) = length (p_info st) ∧ 1 ≤ p_l st1 ∧
            aget (p_info st1) 0 = Some 0) as (Hlen1 & Hl1' & H01).
    { unfold panel128_body in Hb.
      destruct (aget h1 i) as [hi|]; simpl in Hb; [|done].
      case_decide; [|by simplify_eq].
      destruct (aget (p_info st) (p_l st - 1)) as [start_l|]; simpl in Hb; [|done].
      destruct (mf_check_allequal h2 start_l i) as [alleq|]; simpl in Hb; [|done].
      match type of Hb with
      | context [mbind _ ?r] => destruct r as [[?|[ix' c']]|]; simpl in Hb; [done| |done]
      end.
      destruct (aset (p_info st) (p_l st) i) as [a'|] eqn:Ha; simpl in Hb; [|done].
      apply aset_inv in Ha as [? ->]. simplify_eq. simpl.
      rewrite length_insert. split_and!; [done|lia|].
      by rewrite aget_insert_ne by lia. }
    destruct (IH _ _ Hl Hl1' H01) as (? & ? & ?). split_and!; [congruence|done..].
Qed.

Lemma mf_panelsetup128_shape ok R (h1 h2 index : list Z) N info J index' c :
  mf_panelsetup128 ok R h1 h2 index N = Some (Some info, J, index', c) →
  1 ≤ J ∧ Z.of_nat (length info) = J + 1 ∧ aget info 0 = Some 0 ∧ aget info J = Some N.
Proof.
  unfold mf_panelsetup128. generalize (S (Z.to_nat (N - 2))). intros n Hp.
  destruct (aget h1 0) as [el|]; simpl in Hp; [|done].
  destruct (calloc _ _ (wrap64 (N + 1))) as [il0|] eqn:Hil0; [|done].
  apply calloc_length in Hil0.
  destruct (aset il0 0 0) as [il1|] eqn:Hil1; simpl in Hp; [|done].
  apply aset_inv in Hil1 as [? ->].
  destruct (panel128_loop _ _ _ _ _ _ _) as [[ix|st]|] eqn:Hloop; simpl in Hp; [done| |done].
  apply panel128_loop_shape in Hloop as (Hlen & Hl & H0); simpl; [|lia|].
  - simpl in Hlen. rewrite length_insert in Hlen.
    destruct (aset (p_info st) (p_l st) N) as [il'|] eqn:Hil'; simpl in Hp; [|done].
    destruct (calloc _ _ (wrap64 (p_l st + 1))) as [info0|] eqn:Hinfo; [|done].
    destruct (for_up _ _ _ info0) as [out|] eqn:Hcopy; simpl in Hp; [|done].
    simplify_eq. split; [done|].
    eapply (panel_finish _ _ (p_info st) il' info0 (p_l st) N); [done|lia|done..].
  - by rewrite aget_insert_eq by lia.
Qed.

(** X29.  Whatever the rows and whatever the allocations do, an [info]
    array that a panel builder returns has [J + 1] entries with [J ≥ 1],
    starts with 0 and ends with [N]. *)
Theorem panel_info_shape ok RADIX_SHIFT (h1 h2 index : list Z) N :
  (∀ info J, mf_panelsetup ok h1 N = Some (Some info, J) →
     1 ≤ J ∧ Z.of_nat (length info) = J + 1 ∧
     aget info 0 = Some 0 ∧ aget info J = Some N) ∧
  (∀ info J index' collisions,
     mf_panelsetup128 ok RADIX_SHIFT h1 h2 index N = Some (Some info, J, index', collisions) →
     1 ≤ J ∧ Z.of_nat (length info) = J + 1 ∧
     aget info 0 = Some 0 ∧ aget info J = Some N).
Proof.
  split.
  - intros info J. apply mf_panelsetup_shape.
  - intros info J index' c. apply mf_panelsetup128_shape.
Qed.

Lemma panel_info_shape_witness :
  (1 ≤ 2 ∧ Z.of_nat (length [0; 2; 3]) = 2 + 1 ∧
   aget [0; 2; 3] 0 = Some 0 ∧ aget [0; 2; 3] 2 = Some 3) ∧
  (1 ≤ 2 ∧ Z.of_nat (length [0; 2; 3]) = 2 + 1 ∧
   aget [0; 2; 3] 0 = Some 0 ∧ aget [0; 2; 3] 2 = Some 3).
Proof.
  split.
  - apply (proj1 (panel_info_shape all_ok 8 [42; 42; 43] [2; 1; 5] [0; 1; 2] 3) [0; 2; 3] 2).
    reflexivity.
  - apply (proj2 (panel_info_shape all_ok 8 [7; 7; 8] [2; 1; 5] [0; 1; 2] 3)
             [0; 2; 3] 2 [1; 0; 2] 1).
    vm_compute. reflexivity.
Defined.
